(** * A shallow embedding of the HLS scheduler (src/scheduler.cpp)

    The scheduler assigns a start cycle to every statement of a data-flow
    graph: [reorderToTopological] renumbers the statements, [scheduleASAP]
    and [scheduleALAP] compute the priority keys and [scheduleByList] is the
    resource- and delay-constrained list scheduler.

    Modelling conventions.
    - C++ [int] values (cycles, latencies, limits) are integers of [Z];
      signed overflow is undefined behaviour in the source and outside the
      model.  Indices into vectors are [nat].
    - C++ [double] values (delays, the clock period) are rationals of [Q];
      the source only adds and compares them.
    - [vector<Stmt*>] is a [list Stmt]: every statement object occurs once
      in the sequence, so an update through the pointer is an update of the
      record at that position.  An access out of range is undefined
      behaviour in the source; the model reads a default there.
    - Loops that the source does not bound are given a fuel argument; running
      out of fuel is a separate outcome, never a result. *)

From Stdlib Require Import String.
From Stdlib Require Import List ZArith QArith Bool Lia Arith.
From Stdlib Require Import Permutation ListSet Wf_nat Relations.
Import ListNotations.
Open Scope Z_scope.

(** ** Data model (common.h is not part of the sources; the fields are the
       ones scheduler.cpp reads and writes) *)

Record Op : Type := mkOp {
  name : string;
  latency : Z;
  delay : Q;
  limit : Z
}.

Record Stmt : Type := mkStmt {
  idx : nat;
  op : Op;
  start_cycle : Z
}.

Definition vec2d := list (list nat).

Definition dOp : Op := mkOp EmptyString 0 0 0.
Definition dStmt : Stmt := mkStmt 0 dOp 0.

Definition with_start (v : Z) (s : Stmt) : Stmt := mkStmt (idx s) (op s) v.
Definition with_idx (i : nat) (s : Stmt) : Stmt := mkStmt i (op s) (start_cycle s).

(** [statements[i]] and [dependencies[i]] *)
Definition stmt_at (stmts : list Stmt) (i : nat) : Stmt := nth i stmts dStmt.
Definition row (v : vec2d) (i : nat) : list nat := nth i v [].

(** In-place update of position [i] of a vector. *)
Fixpoint upd {A : Type} (i : nat) (f : A -> A) (l : list A) : list A :=
  match l, i with
  | [], _ => []
  | x :: l', O => f x :: l'
  | x :: l', S i' => x :: upd i' f l'
  end.

(** What a call can end in: a value, a thrown [runtime_error], or the model's
    fuel running out before the loops of the source have finished. *)
Inductive outcome (A : Type) : Type :=
| Done (a : A)
| Throw (msg : string)
| OutOfFuel.
Arguments Done {A} a.
Arguments Throw {A} msg.
Arguments OutOfFuel {A}.

(** ** validateTopologicalOrder (lines 20-29) *)

Definition validateTopologicalOrder (stmts : list Stmt) (dependencies : vec2d) : bool :=
  forallb (fun statement =>
             forallb (fun dependencyIdx => negb (idx statement <? dependencyIdx)%nat)
                     (row dependencies (idx statement)))
          stmts.

(** ** reorderToTopological (lines 31-94) *)

(** The loop over [usage_links[current]]: decrement, push on reaching zero. *)
Definition kahn_visit (st : list Z * list nat) (successor : nat) : list Z * list nat :=
  let '(incomingEdges, zeroIncomingEdges) := st in
  let v := nth successor incomingEdges 0 - 1 in
  let incomingEdges' := upd successor (fun _ => v) incomingEdges in
  if v =? 0 then (incomingEdges', zeroIncomingEdges ++ [successor])
  else (incomingEdges', zeroIncomingEdges).

Fixpoint kahn (fuel : nat) (usage_links : vec2d)
         (incomingEdges : list Z) (zeroIncomingEdges : list nat)
         (sortedOrder : list nat) : option (list nat) :=
  match fuel with
  | O => None
  | S fuel' =>
      match zeroIncomingEdges with
      | [] => Some sortedOrder
      | current :: rest =>
          let '(inc', q') :=
            fold_left kahn_visit (row usage_links current) (incomingEdges, rest) in
          kahn fuel' usage_links inc' q' (sortedOrder ++ [current])
      end
  end.

Definition cycle_msg : string := "Topological order cannot be fixed due to a cycle.".

Definition reorderToTopological (fuel : nat) (stmts : list Stmt)
           (dependencies usage_links : vec2d)
  : outcome (list Stmt * vec2d * vec2d) :=
  if validateTopologicalOrder stmts dependencies then
    Done (stmts, dependencies, usage_links)
  else
    let count := length stmts in
    let incomingEdges :=
      map (fun i => Z.of_nat (length (row dependencies i))) (seq 0 count) in
    let zeroIncomingEdges :=
      filter (fun i => nth i incomingEdges 0 =? 0) (seq 0 count) in
    match kahn fuel usage_links incomingEdges zeroIncomingEdges [] with
    | None => OutOfFuel
    | Some sortedOrder =>
        if (length sortedOrder <? count)%nat then Throw cycle_msg
        else
          let reorderedStatements :=
            map (fun i => with_idx i (stmt_at stmts (nth i sortedOrder O)))
                (seq 0 count) in
          let translate (v : vec2d) :=
            map (fun i =>
                   map (fun old => idx (stmt_at reorderedStatements old))
                       (row v (nth i sortedOrder O)))
                (seq 0 count) in
          Done (reorderedStatements, translate dependencies, translate usage_links)
    end.

(** ** scheduleASAP (lines 96-117) *)

Definition reset_starts (stmts : list Stmt) : list Stmt := map (with_start 0) stmts.

(** [start_cycle + max(op->latency - 1, 0)] *)
Definition completion (s : Stmt) : Z :=
  start_cycle s + Z.max (latency (op s) - 1) 0.

(** One iteration of the loop over the predecessors of statement [i]; the
    predecessor is read from the vector as it is at that moment. *)
Definition asap_pred (i : nat) (stmts : list Stmt) (predecessorIndex : nat) : list Stmt :=
  let predecessorCompletion := completion (stmt_at stmts predecessorIndex) in
  upd i (fun s => with_start (Z.max (start_cycle s) (predecessorCompletion + 1)) s) stmts.

Definition asap_step (dependencies : vec2d) (st : list Stmt * Z) (i : nat)
  : list Stmt * Z :=
  let '(stmts, maximumLatency) := st in
  let ds := row dependencies (idx (stmt_at stmts i)) in
  let stmts' :=
    match ds with
    | [] => upd i (with_start 1) stmts
    | _ => fold_left (asap_pred i) ds stmts
    end in
  (stmts', Z.max maximumLatency (completion (stmt_at stmts' i))).

Definition scheduleASAP (stmts : list Stmt) (dependencies : vec2d) : list Stmt * Z :=
  fold_left (asap_step dependencies) (seq 0 (length stmts)) (reset_starts stmts, 0).

(** ** scheduleALAP (lines 119-149) *)

Definition alap_step (usage_links : vec2d) (asapLatency : Z)
           (st : list Stmt * Z) (i : nat) : list Stmt * Z :=
  let '(stmts, earliestCycle) := st in
  let statement := stmt_at stmts i in
  match row usage_links (idx statement) with
  | [] =>
      (upd i (with_start (asapLatency - Z.max (latency (op statement) - 1) 0)) stmts,
       earliestCycle)
  | us =>
      let latestStart :=
        fold_left (fun acc successorIndex =>
                     Z.min acc (start_cycle (stmt_at stmts successorIndex)
                                - Z.max (latency (op statement)) 1))
                  us asapLatency in
      (upd i (with_start latestStart) stmts, Z.min earliestCycle latestStart)
  end.

Definition alap_shift (earliestCycle : Z) (stmts : list Stmt) : list Stmt :=
  map (fun s => with_start (start_cycle s - (earliestCycle - 1)) s) stmts.

(** The [max] of [completion] over the statements, from 0: the closing loop
    of [scheduleALAP] and of [scheduleByList]. *)
Definition schedule_latency (stmts : list Stmt) : Z :=
  fold_left (fun acc s => Z.max acc (completion s)) stmts 0.

Definition scheduleALAP (stmts : list Stmt) (usage_links : vec2d) (asapLatency : Z)
  : list Stmt * Z :=
  let '(stmts1, earliestCycle) :=
    fold_left (alap_step usage_links asapLatency)
              (rev (seq 0 (length stmts))) (reset_starts stmts, asapLatency) in
  let stmts2 := alap_shift earliestCycle stmts1 in
  (stmts2, schedule_latency stmts2).

(** ** The ready queue: std::priority_queue<int, vector<int>, comparator>

    The queue is library code.  The scheduler uses [push], [top]/[pop] and
    [empty]; what the library promises is that the queue holds the pushed
    elements that were not popped, and that the popped element is one that
    the comparator ranks below no other (for a comparator that is a strict
    weak order).  Which of several equally ranked elements comes out is not
    fixed by that contract, so the scheduler is defined over any
    implementation of it. *)

Definition strict_weak (c : nat -> nat -> bool) : Prop :=
  (forall x y, c x y = true -> c y x = false) /\
  (forall x y z, c x y = true -> c x z = true \/ c z y = true).

Class PriorityQueue : Type := {
  pq_t : Type;
  pq_empty : pq_t;
  pq_push : (nat -> nat -> bool) -> nat -> pq_t -> pq_t;
  pq_pop : (nat -> nat -> bool) -> pq_t -> option (nat * pq_t);
  pq_elems : pq_t -> list nat;
  pq_empty_elems : pq_elems pq_empty = [];
  pq_push_elems : forall c x q, Permutation (pq_elems (pq_push c x q)) (x :: pq_elems q);
  pq_pop_none : forall c q, pq_pop c q = None -> pq_elems q = [];
  pq_pop_some : forall c q x q',
      pq_pop c q = Some (x, q') -> Permutation (pq_elems q) (x :: pq_elems q');
  pq_pop_top : forall c q x q',
      strict_weak c -> pq_pop c q = Some (x, q') ->
      forall y, In y (pq_elems q) -> c x y = false
}.

(** A reference implementation: an unordered vector, searched on [pop]. *)
Module ListQueue.

Definition best (c : nat -> nat -> bool) (x : nat) (l : list nat) : nat :=
  fold_left (fun b y => if c b y then y else b) l x.

Fixpoint remove1 (x : nat) (l : list nat) : list nat :=
  match l with
  | [] => []
  | y :: l' => if Nat.eqb x y then l' else y :: remove1 x l'
  end.

Definition push (c : nat -> nat -> bool) (x : nat) (q : list nat) : list nat :=
  q ++ [x].

Definition pop (c : nat -> nat -> bool) (q : list nat) : option (nat * list nat) :=
  match q with
  | [] => None
  | x :: l => let b := best c x l in Some (b, remove1 b q)
  end.

End ListQueue.

(** ** The per-cycle delay ledger:
       unordered_map<int, unordered_map<int, double>> delayByCycle

    An association list from (cycle, statement index) to the accumulated
    delay; an absent key reads as 0.0, the value [operator[]] inserts. *)

Definition ledger := list (Z * nat * Q).

Definition ledger_key (c : Z) (i : nat) (e : Z * nat * Q) : bool :=
  (fst (fst e) =? c) && (snd (fst e) =? i)%nat.

Definition ledger_get (l : ledger) (c : Z) (i : nat) : Q :=
  match find (ledger_key c i) l with
  | Some e => snd e
  | None => 0%Q
  end.

Definition ledger_set (l : ledger) (c : Z) (i : nat) (v : Q) : ledger :=
  (c, i, v) :: l.

(** [a < b] and [std::max(a, b)] on doubles *)
Definition Qlt_b (a b : Q) : bool := negb (Qle_bool b a).
Definition dmax (a b : Q) : Q := if Qlt_b a b then b else a.

(** ** scheduleByList (lines 151-264) *)

(** The lambda [calculateResourceUsage] (lines 169-181). *)
Definition is_active (cycle : Z) (operation : Op) (stmt : Stmt) : bool :=
  negb (start_cycle stmt =? 0)
  && String.eqb (name (op stmt)) (name operation)
  && (start_cycle stmt <=? cycle)
  && (cycle <? start_cycle stmt + latency (op stmt)).

Definition calculateResourceUsage (stmts : list Stmt) (cycle : Z) (operation : Op) : Z :=
  if limit operation <? 0 then -2
  else Z.of_nat (length (filter (is_active cycle operation) stmts)).

(** The lambda [comparator] (lines 183-187); [priority] is the snapshot of
    the ALAP start cycles, [stmts] the captured statement vector. *)
Definition comparator (priority : list Z) (stmts : list Stmt) (a b : nat) : bool :=
  if nth a priority 0 =? nth b priority 0
  then Qlt_b (delay (op (stmt_at stmts b))) (delay (op (stmt_at stmts a)))
  else nth b priority 0 <? nth a priority 0.

Section ListScheduler.

Context {PQ : PriorityQueue}.

(** The variables of [scheduleByList] that change while it runs. *)
Record LState : Type := mkL {
  statements : list Stmt;
  completedStatements : list nat;   (* std::set<int> *)
  notReady : list nat;              (* std::set<int>, ascending *)
  readyQueue : pq_t;
  delayByCycle : ledger;
  currentCycle : Z
}.

Variable time_period : Q.
Variables dependencies usage_links : vec2d.
Variable priority : list Z.

Definition with_queue (q : pq_t) (st : LState) : LState :=
  mkL (statements st) (completedStatements st) (notReady st) q
      (delayByCycle st) (currentCycle st).

(** Lines 212-217: a combinational statement is placed in the current
    cycle and its accumulated delay is written for its successors.
    [usedDelay] is a reference into the ledger and is read again at every
    use. *)
Definition place_combinational (st : LState) (i : nat) (q : pq_t) : LState :=
  let cur := currentCycle st in
  let stmts := upd i (with_start cur) (statements st) in
  let led :=
    fold_left (fun l successorIndex =>
                 let k := idx (stmt_at stmts successorIndex) in
                 ledger_set l cur k
                   (dmax (ledger_get l cur k)
                         (ledger_get l cur i + delay (op (stmt_at stmts i)))%Q))
              (row usage_links i) (delayByCycle st) in
  mkL stmts (completedStatements st) (notReady st) q led cur.

(** Lines 220-228: a resource-limited statement is placed in the current
    cycle and its delay is written, at its last busy cycle, for its
    combinational successors. *)
Definition place_physical (st : LState) (i : nat) (q : pq_t) : LState :=
  let cur := currentCycle st in
  let stmts := upd i (with_start cur) (statements st) in
  let stmt := stmt_at stmts i in
  let led :=
    fold_left (fun l successorIndex =>
                 let successor := stmt_at stmts successorIndex in
                 if limit (op successor) <? 0 then
                   let c := cur + latency (op stmt) - 1 in
                   ledger_set l c (idx successor)
                     (dmax (ledger_get l c (idx successor)) (delay (op stmt)))
                 else l)
              (row usage_links i) (delayByCycle st) in
  mkL stmts (completedStatements st) (notReady st) q led cur.

(** One iteration of the loop of lines 204-233.  [None]: the queue is
    empty; otherwise whether the loop goes on ([true]) or was left by
    [break] ([false]), the new state and the vector [scheduled]. *)
Definition drain_iter (st : LState) (scheduled : list nat)
  : option (bool * LState * list nat) :=
  let cmp := comparator priority (statements st) in
  match pq_pop cmp (readyQueue st) with
  | None => None
  | Some (i, q) =>
      let stmt := stmt_at (statements st) i in
      let usedDelay := ledger_get (delayByCycle st) (currentCycle st) i in
      if limit (op stmt) <? 0 then
        if Qle_bool (delay (op stmt) + usedDelay) time_period then
          Some (true, place_combinational st i q, scheduled ++ [i])
        else
          Some (true, with_queue (pq_push cmp i q) st, scheduled)
      else if calculateResourceUsage (statements st) (currentCycle st) (op stmt)
              <? limit (op stmt) then
        Some (true, place_physical st i q, scheduled ++ [i])
      else
        Some (false, with_queue (pq_push cmp i q) st, scheduled)
  end.

Fixpoint drain (fuel : nat) (st : LState) (scheduled : list nat)
  : option (LState * list nat) :=
  match fuel with
  | O => None
  | S fuel' =>
      match drain_iter st scheduled with
      | None => Some (st, scheduled)
      | Some (true, st', scheduled') => drain fuel' st' scheduled'
      | Some (false, st', scheduled') => Some (st', scheduled')
      end
  end.

(** Lines 240-248: the readiness test of a statement of [notReady]. *)
Definition isReady (stmts : list Stmt) (completed : list nat) (cur : Z) (i : nat) : bool :=
  forallb (fun dep =>
             let pred := stmt_at stmts dep in
             negb (negb (set_mem Nat.eq_dec dep completed)
                   || (cur + 1 <? start_cycle pred + Z.max (latency (op pred)) 1)))
          (row dependencies i).

(** Lines 235-256: commit the statements scheduled in this cycle, move the
    statements that became ready into the queue, advance the cycle. *)
Definition end_of_cycle (st : LState) (scheduled : list nat) : LState :=
  let completed :=
    fold_left (fun c i => set_add Nat.eq_dec i c) scheduled (completedStatements st) in
  let ready := isReady (statements st) completed (currentCycle st) in
  let cmp := comparator priority (statements st) in
  mkL (statements st) completed
      (filter (fun i => negb (ready i)) (notReady st))
      (fold_left (fun q i => pq_push cmp i q) (filter ready (notReady st)) (readyQueue st))
      (delayByCycle st)
      (currentCycle st + 1).

(** The loop of lines 201-257. *)
Fixpoint list_loop (fuel : nat) (st : LState) : option LState :=
  match fuel with
  | O => None
  | S fuel' =>
      if (length (completedStatements st) <? length (statements st))%nat then
        match drain fuel' st [] with
        | None => None
        | Some (st', scheduled) => list_loop fuel' (end_of_cycle st' scheduled)
        end
      else Some st
  end.

End ListScheduler.

Section Scheduler.

Context {PQ : PriorityQueue}.

(** Lines 152-199: the state in which the loop is entered. *)
Definition list_init (dependencies : vec2d) (stmts0 : list Stmt) : LState :=
  let n := length stmts0 in
  let priority := map start_cycle stmts0 in
  let stmts := reset_starts stmts0 in
  let cmp := comparator priority stmts in
  let no_deps i := match row dependencies i with [] => true | _ => false end in
  mkL stmts []
      (filter (fun i => negb (no_deps i)) (seq 0 n))
      (fold_left (fun q i => pq_push cmp i q) (filter no_deps (seq 0 n)) pq_empty)
      [] 1.

Definition scheduleByList (fuel : nat) (time_period : Q)
           (dependencies usage_links : vec2d) (stmts0 : list Stmt)
  : option (list Stmt * Z) :=
  match list_loop time_period dependencies usage_links (map start_cycle stmts0)
                  fuel (list_init dependencies stmts0) with
  | None => None
  | Some st => Some (statements st, schedule_latency (statements st))
  end.

(** ** schedule (lines 266-279)

    [get_deps_and_uses] is not part of the sources: the adjacency it
    returns is an input here.  The printed latency is the second
    component of the result. *)
Definition schedule (fuel : nat) (cycleTime : Q)
           (deps0 uses0 : vec2d) (graph : list Stmt)
  : outcome (list Stmt * Z) :=
  match reorderToTopological fuel graph deps0 uses0 with
  | Throw msg => Throw msg
  | OutOfFuel => OutOfFuel
  | Done (stmts, dependencies, usage_links) =>
      let '(stmts1, latency1) := scheduleASAP stmts dependencies in
      let '(stmts2, latency2) := scheduleALAP stmts1 usage_links latency1 in
      match scheduleByList fuel cycleTime dependencies usage_links stmts2 with
      | None => OutOfFuel
      | Some r => Done r
      end
  end.

End Scheduler.

(** ** Well-formed inputs

    What the dependency index hands to the scheduler: [idx] is the position
    of a statement, both adjacency vectors have one row per statement with
    entries in range, and each is the transpose of the other. *)

Definition static (s : Stmt) : nat * Op := (idx s, op s).

Definition indexed (stmts : list Stmt) : bool :=
  forallb (fun i => (idx (stmt_at stmts i) =? i)%nat) (seq 0 (length stmts)).

Definition in_range (n : nat) (v : vec2d) : bool :=
  (length v =? n)%nat && forallb (forallb (fun j => (j <? n)%nat)) v.

Definition transposed (a b : vec2d) : bool :=
  forallb (fun i => forallb (fun j => existsb (Nat.eqb i) (row b j)) (row a i))
          (seq 0 (length a)).

Definition wf_dfg (stmts : list Stmt) (dependencies usage_links : vec2d) : bool :=
  indexed stmts
  && in_range (length stmts) dependencies
  && in_range (length stmts) usage_links
  && transposed dependencies usage_links
  && transposed usage_links dependencies.

(** The postcondition of the canonicalizer: [deps[i]] lies in [{0..i-1}]. *)
Definition topological (dependencies : vec2d) : bool :=
  forallb (fun i => forallb (fun j => (j <? i)%nat) (row dependencies i))
          (seq 0 (length dependencies)).

(** A configuration in which every statement can be placed at all: a
    combinational op fits the clock period on its own, and a
    resource-limited op has at least one unit. *)
Definition placeable (time_period : Q) (s : Stmt) : bool :=
  if limit (op s) <? 0 then Qle_bool (delay (op s)) time_period
  else 1 <=? limit (op s).

Definition schedulable (time_period : Q) (stmts : list Stmt) : bool :=
  forallb (placeable time_period) stmts.

(** ** The resource count of the specification:
       |{ i : op(i) = k, start_cycle[i] <= c < start_cycle[i] + latency(i) }| *)

Definition Op_eq_dec : forall a b : Op, {a = b} + {a <> b}.
Proof.
  repeat decide equality.
Defined.

Definition busy (k : Op) (c : Z) (s : Stmt) : bool :=
  (if Op_eq_dec (op s) k then true else false)
  && (start_cycle s <=? c)
  && (c <? start_cycle s + latency (op s)).

Definition busy_count (stmts : list Stmt) (k : Op) (c : Z) : Z :=
  Z.of_nat (length (filter (busy k c) stmts)).

(** ** The list scheduler without a ledger

    The scheduler as it behaves when the ledger has no effect: a ready
    combinational statement is placed in the current cycle exactly when its
    own delay fits the clock period, and nothing is recorded for its
    successors.  It differs from [drain_iter] only in the test of the
    combinational branch and in leaving [delayByCycle] alone. *)

Section LedgerFree.

Context {PQ : PriorityQueue}.
Variable time_period : Q.
Variables dependencies : vec2d.
Variable priority : list Z.

Definition place_plain (st : LState) (i : nat) (q : pq_t) : LState :=
  mkL (upd i (with_start (currentCycle st)) (statements st))
      (completedStatements st) (notReady st) q (delayByCycle st) (currentCycle st).

Definition drain_iter_plain (st : LState) (scheduled : list nat)
  : option (bool * LState * list nat) :=
  let cmp := comparator priority (statements st) in
  match pq_pop cmp (readyQueue st) with
  | None => None
  | Some (i, q) =>
      let stmt := stmt_at (statements st) i in
      if limit (op stmt) <? 0 then
        if Qle_bool (delay (op stmt)) time_period then
          Some (true, place_plain st i q, scheduled ++ [i])
        else
          Some (true, with_queue (pq_push cmp i q) st, scheduled)
      else if calculateResourceUsage (statements st) (currentCycle st) (op stmt)
              <? limit (op stmt) then
        Some (true, place_plain st i q, scheduled ++ [i])
      else
        Some (false, with_queue (pq_push cmp i q) st, scheduled)
  end.

Fixpoint drain_plain (fuel : nat) (st : LState) (scheduled : list nat)
  : option (LState * list nat) :=
  match fuel with
  | O => None
  | S fuel' =>
      match drain_iter_plain st scheduled with
      | None => Some (st, scheduled)
      | Some (true, st', scheduled') => drain_plain fuel' st' scheduled'
      | Some (false, st', scheduled') => Some (st', scheduled')
      end
  end.

Fixpoint list_loop_plain (fuel : nat) (st : LState) : option LState :=
  match fuel with
  | O => None
  | S fuel' =>
      if (length (completedStatements st) <? length (statements st))%nat then
        match drain_plain fuel' st [] with
        | None => None
        | Some (st', scheduled) =>
            list_loop_plain fuel' (end_of_cycle dependencies priority st' scheduled)
        end
      else Some st
  end.

End LedgerFree.

Definition scheduleByList_plain {PQ : PriorityQueue} (fuel : nat) (time_period : Q)
           (dependencies : vec2d) (stmts0 : list Stmt)
  : option (list Stmt * Z) :=
  match list_loop_plain time_period dependencies (map start_cycle stmts0)
                        fuel (list_init dependencies stmts0) with
  | None => None
  | Some st => Some (statements st, schedule_latency (statements st))
  end.

(** A state with its ledger emptied. *)
Definition erase_ledger {PQ : PriorityQueue} (st : LState) : LState :=
  mkL (statements st) (completedStatements st) (notReady st) (readyQueue st)
      [] (currentCycle st).

(** ** The states the list scheduler passes through

    [reachable st scheduled]: the loops of [scheduleByList] are at the head
    of the inner loop with these variables. *)

Section Reachable.

Context {PQ : PriorityQueue}.
Variable time_period : Q.
Variables dependencies usage_links : vec2d.
Variable stmts0 : list Stmt.

Let priority := map start_cycle stmts0.

Inductive reachable : LState -> list nat -> Prop :=
| reach_init : reachable (list_init dependencies stmts0) []
| reach_iter : forall st scheduled st' scheduled',
    reachable st scheduled ->
    drain_iter time_period usage_links priority st scheduled
    = Some (true, st', scheduled') ->
    reachable st' scheduled'
| reach_cycle : forall st scheduled st' scheduled',
    reachable st scheduled ->
    (drain_iter time_period usage_links priority st scheduled
     = Some (false, st', scheduled')
     \/ (drain_iter time_period usage_links priority st scheduled = None
         /\ st' = st /\ scheduled' = scheduled)) ->
    (length (completedStatements
               (end_of_cycle dependencies priority st' scheduled'))
     <? length (statements st'))%nat = true ->
    reachable (end_of_cycle dependencies priority st' scheduled') [].

End Reachable.

(** ** The maximum of the specification *)

(** The maximum of a list of integers (0 for the empty list). *)
Definition Zmax_list (l : list Z) : Z :=
  match l with
  | [] => 0
  | x :: r => fold_left Z.max r x
  end.

(** ** Invariants of the passes *)

Section Invariants.

Context {PQ : PriorityQueue}.
Variables dependencies usage_links : vec2d.
Variable stmts0 : list Stmt.

Local Abbreviation startOf st i := (start_cycle (stmt_at (statements st) i)).
Local Abbreviation spanOf st i := (Z.max (latency (op (stmt_at (statements st) i))) 1).
Local Abbreviation startIn ss i := (start_cycle (stmt_at ss i)).

(** The four places a statement index can be in. *)
Definition whole (st : LState) (scheduled : list nat) : list nat :=
  pq_elems (readyQueue st) ++ notReady st ++ completedStatements st ++ scheduled.

(** A scheduled statement of kind [k] that is busy in cycle [c]. *)
Definition active_op (k : Op) (c : Z) (s : Stmt) : bool :=
  negb (start_cycle s =? 0) && busy k c s.

Record Inv (st : LState) (scheduled : list nat) : Prop := {
  inv_static : map static (statements st) = map static stmts0;
  inv_part : Permutation (whole st scheduled) (seq 0 (length stmts0));
  inv_cur : 1 <= currentCycle st;
  inv_unsched : forall i,
      In i (pq_elems (readyQueue st) ++ notReady st) -> startOf st i = 0;
  inv_done : forall i,
      In i (completedStatements st) -> 1 <= startOf st i < currentCycle st;
  inv_now : forall i, In i scheduled -> startOf st i = currentCycle st;
  inv_ready : forall k j,
      In k (pq_elems (readyQueue st)) -> In j (row dependencies k) ->
      In j (completedStatements st)
      /\ startOf st j + spanOf st j <= currentCycle st;
  inv_prec : forall i j,
      In i (completedStatements st ++ scheduled) -> In j (row dependencies i) ->
      In j (completedStatements st)
      /\ startOf st j + spanOf st j <= startOf st i;
  inv_ledger : wf_dfg stmts0 dependencies usage_links = true ->
      forall c k v,
      In (c, k, v) (delayByCycle st) ->
      exists j, In j (row dependencies k)
                /\ In j (completedStatements st ++ scheduled)
                /\ c < startOf st j + spanOf st j;
  inv_res : forall k c,
      0 <= limit k ->
      Z.of_nat (length (filter (active_op k c) (statements st))) <= limit k
}.

(** The cycle from which a scheduled statement no longer holds anything back. *)
Definition retire (s : Stmt) : Z :=
  if start_cycle s =? 0 then 0
  else start_cycle s + Z.max (latency (op s)) 1.

Definition horizon (stmts : list Stmt) : Z :=
  fold_right (fun s acc => Z.max (retire s) acc) 0 stmts.

(** Cycles in which nothing is placed are counted down by this measure. *)
Definition idle_measure (st : LState) : nat :=
  2 * Z.to_nat (horizon (statements st) - currentCycle st)
  + match pq_elems (readyQueue st) with [] => 1 | _ => 0 end.

(** The state of the loop of lines 104-115 after [k] iterations. *)
Record AsapInv (k : nat) (ss : list Stmt) (m : Z) : Prop := {
  asap_static : map static ss = map static stmts0;
  asap_todo : forall i, (k <= i)%nat -> startIn ss i = 0;
  asap_pos : forall i, (i < k)%nat -> 1 <= startIn ss i;
  asap_src : forall i, (i < k)%nat -> row dependencies i = [] -> startIn ss i = 1;
  asap_max : forall i,
      (i < k)%nat -> row dependencies i <> [] ->
      startIn ss i
      = Zmax_list (map (fun j => completion (stmt_at ss j) + 1) (row dependencies i));
  asap_lat : m = fold_left Z.max (map (fun i => completion (stmt_at ss i)) (seq 0 k)) 0
}.

End Invariants.

(** ** Dependency paths *)

(** [depends_on deps n i j]: statement [i] of an [n]-statement graph lists
    [j] among its producers. *)
Definition depends_on (dependencies : vec2d) (n : nat) (i j : nat) : Prop :=
  (i < n)%nat /\ In j (row dependencies i).

(** ** Kahn's loop (lines 39-66) *)

(** What the loop of lines 56-66 leaves in [sortedOrder]: the value that
    [reorderToTopological] tests against [count] and reads the new order
    from. *)
Definition sortedOrder (fuel : nat) (stmts : list Stmt)
           (dependencies usage_links : vec2d) : option (list nat) :=
  let count := length stmts in
  let incomingEdges :=
    map (fun i => Z.of_nat (length (row dependencies i))) (seq 0 count) in
  let zeroIncomingEdges :=
    filter (fun i => nth i incomingEdges 0 =? 0) (seq 0 count) in
  kahn fuel usage_links incomingEdges zeroIncomingEdges [].

(** The nodes that were pushed so far are those whose counter is used up,
    and none was pushed twice. *)
Record KahnInv (count : nat) (incomingEdges : list Z)
       (zeroIncomingEdges sorted : list nat) : Prop := {
  kahn_len : length incomingEdges = count;
  kahn_nodup : NoDup (sorted ++ zeroIncomingEdges);
  kahn_seen : forall v,
      In v (sorted ++ zeroIncomingEdges)
      <-> (v < count)%nat /\ nth v incomingEdges 0 <= 0
}.

(** The producers of [v] that are not in [sorted] yet, counted with
    repetitions. *)
Definition pending (dependencies : vec2d) (sorted : list nat) (v : nat) : Z :=
  Z.of_nat (length (filter (fun j => negb (existsb (Nat.eqb j) sorted))
                           (row dependencies v))).

(** Every edge is listed as often in [usage_links] as in [dependencies]. *)
Definition mirrored (dependencies usage_links : vec2d) : bool :=
  forallb (fun i =>
             forallb (fun j =>
                        (count_occ Nat.eq_dec (row dependencies i) j
                         =? count_occ Nat.eq_dec (row usage_links j) i)%nat)
                     (seq 0 (length dependencies)))
          (seq 0 (length dependencies)).

(** [order] lists every producer of a node before the node. *)
Definition producers_first (dependencies : vec2d) (order : list nat) : Prop :=
  forall i j, (i < length order)%nat -> In j (row dependencies (nth i order 0%nat)) ->
              exists k, (k < i)%nat /\ nth k order 0%nat = j.

(** While the successors [rest] of the node that was taken last are still
    to be visited, a counter is what is pending plus what [rest] will take
    off. *)
Record KahnOrd (count : nat) (dependencies : vec2d) (incomingEdges : list Z)
       (zeroIncomingEdges sorted rest : list nat) : Prop := {
  ord_count : forall v,
      (v < count)%nat ->
      nth v incomingEdges 0
      = pending dependencies sorted v + Z.of_nat (count_occ Nat.eq_dec rest v);
  ord_queue : forall v j,
      In v zeroIncomingEdges -> In j (row dependencies v) -> In j sorted;
  ord_sorted : producers_first dependencies sorted
}.

(** ** The loop of scheduleALAP (lines 127-141) *)

(** The state of the loop once the statements from position [k] on have
    been visited. *)
Record AlapInv (usage_links : vec2d) (stmts0 : list Stmt) (asapLatency : Z)
       (k : nat) (ss : list Stmt) (earliestCycle : Z) : Prop := {
  alap_static : map static ss = map static stmts0;
  alap_top : forall i,
      (k <= i)%nat -> (i < length stmts0)%nat ->
      start_cycle (stmt_at ss i) <= asapLatency;
  alap_sink : forall i,
      (k <= i)%nat -> (i < length stmts0)%nat -> row usage_links i = [] ->
      start_cycle (stmt_at ss i)
      = asapLatency - Z.max (latency (op (stmt_at ss i)) - 1) 0;
  alap_prec : forall i j,
      (k <= i)%nat -> (i < length stmts0)%nat -> In j (row usage_links i) ->
      start_cycle (stmt_at ss i) + Z.max (latency (op (stmt_at ss i))) 1
      <= start_cycle (stmt_at ss j);
  alap_tight : forall i,
      (k <= i)%nat -> (i < length stmts0)%nat -> row usage_links i <> [] ->
      exists j, In j (row usage_links i)
                /\ start_cycle (stmt_at ss i) + Z.max (latency (op (stmt_at ss i))) 1
                   = start_cycle (stmt_at ss j);
  alap_early : forall i,
      (k <= i)%nat -> (i < length stmts0)%nat -> row usage_links i <> [] ->
      earliestCycle <= start_cycle (stmt_at ss i);
  alap_reached :
      earliestCycle = asapLatency
      \/ exists i, (k <= i)%nat /\ (i < length stmts0)%nat
                   /\ row usage_links i <> []
                   /\ earliestCycle = start_cycle (stmt_at ss i)
}.

(** ** The pace of the list scheduler *)

(** The cycles a statement keeps its successors waiting. *)
Definition span (s : Stmt) : Z := Z.max (latency (op s)) 1.


Definition spans (stmts : list Stmt) (l : list nat) : Z :=
  fold_right (fun i acc => span (stmt_at stmts i) + acc) 0 l.


(** ** Scenarios *)

(** The chain [A -> B -> C] of three combinational statements with delay
    0.3 (scenario 3 of the specification). *)
Definition add_op : Op := mkOp "add" 0 (3 # 10) (-1).
Definition chain3 : list Stmt := [mkStmt 0 add_op 0; mkStmt 1 add_op 0; mkStmt 2 add_op 0].
Definition chain3_deps : vec2d := [[]; [0%nat]; [1%nat]].
Definition chain3_uses : vec2d := [[1%nat]; [2%nat]; []].

(** Four independent multiplications on two units (scenario 4). *)
Definition mul_op : Op := mkOp "mul" 1 0 2.
Definition mul4 : list Stmt :=
  [mkStmt 0 mul_op 0; mkStmt 1 mul_op 0; mkStmt 2 mul_op 0; mkStmt 3 mul_op 0].
Definition no_edges4 : vec2d := [[]; []; []; []].

(** One combinational statement whose delay 2 exceeds the clock period 1. *)
Definition slow_op : Op := mkOp "slow" 0 2 (-1).
Definition slow1 : list Stmt := [mkStmt 0 slow_op 0].

Definition chain3_result : list Stmt :=
  [mkStmt 0 add_op 1; mkStmt 1 add_op 2; mkStmt 2 add_op 3].

(** A wire: combinational, no delay.  A unit whose delay is five periods. *)
Definition wire_op : Op := mkOp "wire" 0 0 (-1).
Definition big_op : Op := mkOp "big" 1 5 1.

(** Two statements that depend on each other, with two choices of ops. *)
Definition cyclic2 : list Stmt := [mkStmt 0 wire_op 0; mkStmt 1 wire_op 0].
Definition cyclic2_slow : list Stmt := [mkStmt 0 slow_op 0; mkStmt 1 big_op 0].
Definition cyclic2_edges : vec2d := [[1%nat]; [0%nat]].

(** One statement that lists itself as its producer. *)
Definition self_loop : list Stmt := [mkStmt 0 wire_op 0].
Definition self_loop_edges : vec2d := [[0%nat]].

Definition op_a : Op := mkOp "a" 1 0 (-1).
Definition op_b : Op := mkOp "b" 1 0 (-1).
Definition op_c : Op := mkOp "c" 1 0 (-1).

(** Three statements and the one edge [2 -> 1] (scenario 6). *)
Definition unordered3 : list Stmt := [mkStmt 0 op_a 0; mkStmt 1 op_b 0; mkStmt 2 op_c 0].
Definition unordered3_deps : vec2d := [[]; [2%nat]; []].
Definition unordered3_uses : vec2d := [[]; []; [1%nat]].

(** An acyclic graph that is out of order: statement 0 consumes statement
    2, and statement 3 consumes statement 1.  All four are combinational. *)
Definition comb_op : Op := mkOp "c" 0 (3 # 5) (-1).
Definition thin_op : Op := mkOp "t" 0 (1 # 10) (-1).
Definition g4 : list Stmt :=
  [mkStmt 0 thin_op 0; mkStmt 1 comb_op 0; mkStmt 2 comb_op 0; mkStmt 3 thin_op 0].
Definition g4_deps : vec2d := [[2%nat]; []; []; [1%nat]].
Definition g4_uses : vec2d := [[]; [3%nat]; [0%nat]; []].

(** What the canonicalizer and the first two passes make of it. *)
Definition g4_sorted_deps : vec2d := [[]; []; [1%nat]; [2%nat]].
Definition g4_sorted_uses : vec2d := [[3%nat]; [0%nat]; []; []].
Definition g4_alap : list Stmt :=
  [mkStmt 0 comb_op 4; mkStmt 1 comb_op 1; mkStmt 2 thin_op 5; mkStmt 3 thin_op 5].

(** Two statements on one unit and a combinational one, no edges; the
    delays 1/20 < 1/15 < 1/10 fix the order in which they are popped. *)
Definition unit_a : Op := mkOp "u" 1 (1 # 20) 1.
Definition unit_b : Op := mkOp "u" 1 (1 # 15) 1.
Definition small_comb : Op := mkOp "c" 0 (1 # 10) (-1).
Definition uuc : list Stmt :=
  [mkStmt 0 unit_a 0; mkStmt 1 unit_b 0; mkStmt 2 small_comb 0].
Definition no_edges3 : vec2d := [[]; []; []].


Definition div_op : Op := mkOp "div" 3 0 1.

(** Two producers of latency 2 feeding one consumer (scenario 2). *)
Definition two_cycle_op : Op := mkOp "mac" 2 0 (-1).
Definition fan_in : list Stmt :=
  [mkStmt 0 two_cycle_op 0; mkStmt 1 two_cycle_op 0; mkStmt 2 two_cycle_op 0].
Definition fan_in_deps : vec2d := [[]; []; [0%nat; 1%nat]].

(** * Properties *)

(** ** Vectors *)

Lemma upd_length : forall (A : Type) (f : A -> A) i l, length (upd i f l) = length l.
Proof.
  intros A f i l; revert i; induction l as [|x l IH]; intros [|i]; simpl; auto.
Qed.

Lemma nth_upd_same : forall (A : Type) (f : A -> A) d i l,
    (i < length l)%nat -> nth i (upd i f l) d = f (nth i l d).
Proof.
  intros A f d i l; revert i; induction l as [|x l IH]; intros [|i] H; simpl in *;
    try lia; auto.
  apply IH; lia.
Qed.

Lemma nth_upd_other : forall (A : Type) (f : A -> A) d i j l,
    i <> j -> nth j (upd i f l) d = nth j l d.
Proof.
  intros A f d i j l; revert i j; induction l as [|x l IH]; intros [|i] [|j] H;
    simpl; auto; try congruence.
Qed.

Lemma map_upd_invariant : forall (A B : Type) (g : A -> B) (f : A -> A) i l,
    (forall x, g (f x) = g x) -> map g (upd i f l) = map g l.
Proof.
  intros A B g f i l Hg; revert i; induction l as [|x l IH]; intros [|i]; simpl;
    auto; f_equal; auto.
Qed.

(** ** The reference queue meets the contract of the priority queue *)

Module ListQueueFacts.
Import ListQueue.

Lemma best_in : forall c l x, In (best c x l) (x :: l).
Proof.
  intros c l; induction l as [|a l IH]; intros x; simpl; auto.
  destruct (c x a).
  - destruct (IH a) as [H|H]; auto.
  - destruct (IH x) as [H|H]; auto.
Qed.

Lemma best_top : forall c, strict_weak c ->
    forall l x seen, (forall y, In y seen -> c x y = false) ->
    forall y, In y (seen ++ l) -> c (best c x l) y = false.
Proof.
  intros c [Hasym Hneg] l; induction l as [|a l IH]; intros x seen Hseen y Hy.
  - rewrite app_nil_r in Hy; simpl; auto.
  - simpl. change (seen ++ a :: l) with (seen ++ [a] ++ l) in Hy.
    rewrite app_assoc in Hy.
    destruct (c x a) eqn:Hxa.
    + apply IH with (seen := seen ++ [a]); auto.
      intros z Hz; apply in_app_or in Hz; destruct Hz as [Hz|[<-|[]]].
      * destruct (Hneg _ _ z Hxa) as [H|H].
        -- rewrite (Hseen z Hz) in H; discriminate.
        -- apply Hasym; exact H.
      * destruct (c a a) eqn:Haa; auto. rewrite (Hasym _ _ Haa) in Haa; discriminate.
    + apply IH with (seen := seen ++ [a]); auto.
      intros z Hz; apply in_app_or in Hz; destruct Hz as [Hz|[<-|[]]]; auto.
Qed.

Lemma remove1_perm : forall x l, In x l -> Permutation l (x :: remove1 x l).
Proof.
  intros x l; induction l as [|y l IH]; intros H; [destruct H|].
  simpl. destruct (Nat.eqb x y) eqn:E.
  - apply Nat.eqb_eq in E; subst; reflexivity.
  - apply Nat.eqb_neq in E. destruct H as [H|H]; [congruence|].
    rewrite perm_swap. constructor. apply IH; exact H.
Qed.

Lemma pop_none : forall c q, pop c q = None -> q = [].
Proof.
  intros c [|a l] H; [reflexivity | discriminate H].
Qed.

Lemma pop_perm : forall c q x q',
    pop c q = Some (x, q') -> Permutation q (x :: q').
Proof.
  intros c [|a l] x q' H; simpl in H; [discriminate|].
  injection H as <- <-. apply remove1_perm. apply best_in.
Qed.

Lemma pop_top : forall c q x q',
    strict_weak c -> pop c q = Some (x, q') ->
    forall y, In y q -> c x y = false.
Proof.
  intros c [|a l] x q' Hc H y Hy; simpl in H; [discriminate|].
  injection H as <- _.
  apply best_top with (seen := [a]); auto.
  intros z [<-|[]]. destruct Hc as [Hasym _].
  destruct (c a a) eqn:Haa; auto. rewrite (Hasym _ _ Haa) in Haa; discriminate.
Qed.

End ListQueueFacts.

#[export] Instance list_queue : PriorityQueue := {|
  pq_t := list nat;
  pq_empty := [];
  pq_push := ListQueue.push;
  pq_pop := ListQueue.pop;
  pq_elems := fun q => q;
  pq_empty_elems := eq_refl;
  pq_push_elems := fun c x q => Permutation_sym (Permutation_cons_append q x);
  pq_pop_none := ListQueueFacts.pop_none;
  pq_pop_some := ListQueueFacts.pop_perm;
  pq_pop_top := ListQueueFacts.pop_top
|}.

(** ** Statement vectors under [start_cycle] updates *)

Lemma stmt_at_upd_same : forall f i l,
    (i < length l)%nat -> stmt_at (upd i f l) i = f (stmt_at l i).
Proof.
  intros; unfold stmt_at; apply nth_upd_same; assumption.
Qed.

Lemma stmt_at_upd_other : forall f i j l,
    i <> j -> stmt_at (upd i f l) j = stmt_at l j.
Proof.
  intros; unfold stmt_at; apply nth_upd_other; assumption.
Qed.

Lemma static_upd_start : forall g i l,
    map static (upd i (fun s => with_start (g s) s) l) = map static l.
Proof.
  intros; apply map_upd_invariant; reflexivity.
Qed.

Lemma static_upd_const : forall v i l,
    map static (upd i (with_start v) l) = map static l.
Proof.
  intros; apply map_upd_invariant; reflexivity.
Qed.

Lemma static_nth : forall l l' i,
    map static l = map static l' -> static (stmt_at l i) = static (stmt_at l' i).
Proof.
  intros l l' i H; unfold stmt_at.
  rewrite <- (map_nth static l), <- (map_nth static l'), H; reflexivity.
Qed.

Lemma static_op : forall l l' i,
    map static l = map static l' -> op (stmt_at l i) = op (stmt_at l' i).
Proof.
  intros l l' i H; apply (f_equal snd (static_nth l l' i H)).
Qed.

Lemma static_idx : forall l l' i,
    map static l = map static l' -> idx (stmt_at l i) = idx (stmt_at l' i).
Proof.
  intros l l' i H; apply (f_equal fst (static_nth l l' i H)).
Qed.

Lemma static_length : forall l l',
    map static l = map static l' -> length l = length l'.
Proof.
  intros l l' H; rewrite <- (length_map static l), H; apply length_map.
Qed.

Lemma static_reset : forall l, map static (reset_starts l) = map static l.
Proof.
  intros l; unfold reset_starts; rewrite map_map; reflexivity.
Qed.

Lemma start_reset : forall l i, start_cycle (stmt_at (reset_starts l) i) = 0.
Proof.
  intros l i; unfold stmt_at, reset_starts.
  destruct (Nat.lt_ge_cases i (length l)) as [H|H].
  - rewrite (nth_indep _ dStmt (with_start 0 dStmt)) by (rewrite length_map; exact H).
    rewrite map_nth; reflexivity.
  - rewrite nth_overflow by (rewrite length_map; exact H); reflexivity.
Qed.

(** ** Counting and splitting *)

Lemma filter_length_le : forall (A : Type) (P Q : A -> bool) l,
    (forall x, In x l -> P x = true -> Q x = true) ->
    (length (filter P l) <= length (filter Q l))%nat.
Proof.
  intros A P Q l; induction l as [|x l IH]; intros H; simpl; auto.
  assert (IH' := IH (fun y Hy => H y (or_intror Hy))).
  destruct (P x) eqn:HP.
  - rewrite (H x (or_introl eq_refl) HP); simpl; lia.
  - destruct (Q x); simpl; lia.
Qed.

Lemma filter_upd_le : forall (A : Type) (P : A -> bool) f d i l,
    (length (filter P (upd i f l))
     <= length (filter P l) + (if P (f (nth i l d)) then 1 else 0))%nat.
Proof.
  intros A P f d i l; revert i; induction l as [|x l IH]; intros [|i]; simpl;
    try lia.
  - destruct (P (f x)), (P x); simpl; lia.
  - specialize (IH i). destruct (P x); simpl; lia.
Qed.

Lemma filter_none : forall (A : Type) (P : A -> bool) l,
    (forall x, In x l -> P x = false) -> filter P l = [].
Proof.
  intros A P l; induction l as [|x l IH]; intros H; simpl; auto.
  rewrite (H x (or_introl eq_refl)). apply IH; intros; apply H; right; assumption.
Qed.

Lemma filter_split : forall (A : Type) (f : A -> bool) l,
    Permutation (filter f l ++ filter (fun x => negb (f x)) l) l.
Proof.
  intros A f l; induction l as [|x l IH]; simpl; auto.
  destruct (f x); simpl.
  - constructor; exact IH.
  - rewrite <- Permutation_middle; constructor; exact IH.
Qed.

Lemma set_add_fresh : forall (a : nat) x, ~ In a x -> set_add Nat.eq_dec a x = x ++ [a].
Proof.
  intros a x; induction x as [|b x IH]; intros H; simpl; auto.
  destruct (Nat.eq_dec a b) as [->|Hne].
  - exfalso; apply H; left; reflexivity.
  - f_equal; apply IH; intros Hin; apply H; right; exact Hin.
Qed.

Lemma commit_fresh : forall s c,
    NoDup (c ++ s) ->
    fold_left (fun c i => set_add Nat.eq_dec i c) s c = c ++ s.
Proof.
  intros s; induction s as [|a s IH]; intros c H; simpl.
  - rewrite app_nil_r; reflexivity.
  - assert (Hperm : Permutation (c ++ a :: s) (a :: c ++ s))
      by (symmetry; apply Permutation_middle).
    assert (Ha : ~ In a c).
    { rewrite Hperm in H. inversion H as [|? ? Hn _]; subst.
      intros Hin; apply Hn; apply in_or_app; left; exact Hin. }
    rewrite set_add_fresh by exact Ha.
    rewrite IH; rewrite <- app_assoc; simpl; auto.
Qed.

Section QueueFacts.

Context {PQ : PriorityQueue}.

Lemma pq_push_all : forall c l q,
    Permutation (pq_elems (fold_left (fun q i => pq_push c i q) l q))
                (l ++ pq_elems q).
Proof.
  intros c l; induction l as [|a l IH]; intros q; simpl; auto.
  rewrite IH, pq_push_elems. symmetry; apply Permutation_middle.
Qed.

Lemma pq_pop_empty : forall c q, pq_elems q = [] -> pq_pop c q = None.
Proof.
  intros c q H. destruct (pq_pop c q) as [[x q']|] eqn:E; auto.
  apply pq_pop_some in E. rewrite H in E.
  apply Permutation_nil in E; discriminate.
Qed.

Lemma pq_pop_single : forall c q x,
    pq_elems q = [x] ->
    exists q', pq_pop c q = Some (x, q') /\ pq_elems q' = [].
Proof.
  intros c q x H. destruct (pq_pop c q) as [[y q']|] eqn:E.
  - assert (P := pq_pop_some _ _ _ _ E). rewrite H in P.
    apply Permutation_length_1_inv in P. injection P as -> HP.
    exists q'; auto.
  - apply pq_pop_none in E. rewrite H in E; discriminate.
Qed.

Lemma pq_push_single : forall c x q,
    pq_elems q = [] -> pq_elems (pq_push c x q) = [x].
Proof.
  intros c x q H. assert (P := pq_push_elems c x q). rewrite H in P.
  symmetry in P. apply Permutation_length_1_inv in P; exact P.
Qed.

End QueueFacts.

(** ** What a well-formed input provides *)

Lemma in_range_spec : forall n v,
    in_range n v = true ->
    length v = n /\ forall i j, In j (row v i) -> (i < n)%nat /\ (j < n)%nat.
Proof.
  intros n v H; unfold in_range in H.
  apply andb_true_iff in H; destruct H as [Hlen Hall].
  apply Nat.eqb_eq in Hlen. split; [exact Hlen|].
  intros i j Hj. unfold row in Hj.
  destruct (Nat.lt_ge_cases i (length v)) as [Hi|Hi].
  - split; [lia|].
    rewrite forallb_forall in Hall.
    specialize (Hall (nth i v []) (nth_In v [] Hi)).
    rewrite forallb_forall in Hall. apply Nat.ltb_lt; apply Hall; exact Hj.
  - rewrite nth_overflow in Hj by exact Hi. destruct Hj.
Qed.

Lemma transposed_spec : forall a b,
    transposed a b = true ->
    forall i j, (i < length a)%nat -> In j (row a i) -> In i (row b j).
Proof.
  intros a b H i j Hi Hj; unfold transposed in H.
  rewrite forallb_forall in H.
  assert (Hs : In i (seq 0 (length a))) by (apply in_seq; lia).
  specialize (H i Hs). rewrite forallb_forall in H. specialize (H j Hj).
  apply existsb_exists in H; destruct H as [x [Hx Hix]].
  apply Nat.eqb_eq in Hix; subst; exact Hx.
Qed.

Lemma indexed_spec : forall stmts,
    indexed stmts = true ->
    forall i, (i < length stmts)%nat -> idx (stmt_at stmts i) = i.
Proof.
  intros stmts H i Hi; unfold indexed in H; rewrite forallb_forall in H.
  apply Nat.eqb_eq; apply H; apply in_seq; lia.
Qed.

Lemma wf_dfg_spec : forall stmts deps uses,
    wf_dfg stmts deps uses = true ->
    (forall i, (i < length stmts)%nat -> idx (stmt_at stmts i) = i)
    /\ (forall i j, In j (row deps i) ->
                    (i < length stmts)%nat /\ (j < length stmts)%nat /\ In i (row uses j))
    /\ (forall i k, In k (row uses i) ->
                    (i < length stmts)%nat /\ (k < length stmts)%nat /\ In i (row deps k)).
Proof.
  intros stmts deps uses H; unfold wf_dfg in H.
  repeat (apply andb_true_iff in H; destruct H as [H ?]).
  match goal with H1 : in_range _ deps = true |- _ =>
    destruct (in_range_spec _ _ H1) as [Hld Hd] end.
  match goal with H1 : in_range _ uses = true |- _ =>
    destruct (in_range_spec _ _ H1) as [Hlu Hu] end.
  split; [apply indexed_spec; exact H|]. split.
  - intros i j Hj. destruct (Hd i j Hj) as [Hi Hj']. repeat split; auto.
    apply (transposed_spec deps uses); auto; lia.
  - intros i k Hk. destruct (Hu i k Hk) as [Hi Hk']. repeat split; auto.
    apply (transposed_spec uses deps); auto; lia.
Qed.

(** ** The invariant of the list scheduler *)

Section ListInvariant.

Context {PQ : PriorityQueue}.
Variable time_period : Q.
Variables dependencies usage_links : vec2d.
Variable stmts0 : list Stmt.
Local Abbreviation n := (length stmts0).
Let priority := map start_cycle stmts0.

Local Abbreviation startOf st i := (start_cycle (stmt_at (statements st) i)).
Local Abbreviation spanOf st i := (Z.max (latency (op (stmt_at (statements st) i))) 1).

Lemma inv_length : forall st sch, Inv dependencies usage_links stmts0 st sch -> length (statements st) = n.
Proof.
  intros st sch H; apply static_length; apply (inv_static _ _ _ _ _ H).
Qed.

Lemma inv_nodup : forall st sch, Inv dependencies usage_links stmts0 st sch -> NoDup (whole st sch).
Proof.
  intros st sch H. apply Permutation_NoDup with (l := seq 0 n).
  - symmetry; apply (inv_part _ _ _ _ _ H).
  - apply seq_NoDup.
Qed.

Lemma inv_in_lt : forall st sch i, Inv dependencies usage_links stmts0 st sch -> In i (whole st sch) -> (i < n)%nat.
Proof.
  intros st sch i H Hi.
  apply (Permutation_in _ (inv_part _ _ _ _ _ H)) in Hi. apply in_seq in Hi; lia.
Qed.

Lemma inv_lt_in : forall st sch i, Inv dependencies usage_links stmts0 st sch -> (i < n)%nat -> In i (whole st sch).
Proof.
  intros st sch i H Hi.
  apply (Permutation_in _ (Permutation_sym (inv_part _ _ _ _ _ H))). apply in_seq; lia.
Qed.

(** No statement starts after the current cycle. *)
Lemma inv_start_le : forall st sch i, Inv dependencies usage_links stmts0 st sch -> 0 <= startOf st i <= currentCycle st.
Proof.
  intros st sch i H. assert (Hc := inv_cur _ _ _ _ _ H).
  destruct (Nat.lt_ge_cases i n) as [Hi|Hi].
  - apply (inv_lt_in _ _ _ H) in Hi. unfold whole in Hi.
    rewrite app_assoc in Hi. apply in_app_or in Hi; destruct Hi as [Hi|Hi].
    + rewrite (inv_unsched _ _ _ _ _ H i Hi); lia.
    + apply in_app_or in Hi; destruct Hi as [Hi|Hi].
      * assert (Hd := inv_done _ _ _ _ _ H i Hi); lia.
      * rewrite (inv_now _ _ _ _ _ H i Hi); lia.
  - unfold stmt_at; rewrite nth_overflow by (rewrite (inv_length _ _ H); exact Hi).
    simpl; lia.
Qed.

(** *** The state in which the loop is entered *)

Lemma Inv_init : Inv dependencies usage_links stmts0 (list_init dependencies stmts0) [].
Proof.
  unfold list_init; constructor; simpl.
  - apply static_reset.
  - unfold whole; simpl. rewrite app_nil_r, pq_push_all, pq_empty_elems, app_nil_r.
    apply filter_split.
  - lia.
  - intros i _; apply start_reset.
  - intros i [].
  - intros i [].
  - intros k j Hk Hj.
    apply (Permutation_in _ (pq_push_all _ _ _)) in Hk.
    rewrite pq_empty_elems, app_nil_r in Hk. apply filter_In in Hk.
    destruct Hk as [_ Hk]. destruct (row dependencies k); [destruct Hj|discriminate].
  - intros i j [].
  - intros _ c k v [].
  - intros k c Hk. rewrite filter_none; [simpl; exact Hk|].
    intros x Hx; unfold active_op.
    apply In_nth with (d := dStmt) in Hx; destruct Hx as [i [_ <-]].
    change (nth i (reset_starts stmts0) dStmt) with (stmt_at (reset_starts stmts0) i).
    rewrite start_reset; reflexivity.
Qed.

(** *** Putting a popped statement back *)

Lemma Inv_requeue : forall st sch q,
    Inv dependencies usage_links stmts0 st sch ->
    Permutation (pq_elems q) (pq_elems (readyQueue st)) ->
    Inv dependencies usage_links stmts0 (with_queue q st) sch.
Proof.
  intros st sch q H P; constructor; simpl.
  - apply (inv_static _ _ _ _ _ H).
  - unfold whole; simpl. rewrite P. apply (inv_part _ _ _ _ _ H).
  - apply (inv_cur _ _ _ _ _ H).
  - intros i Hi; apply (inv_unsched _ _ _ _ _ H). rewrite <- P; exact Hi.
  - apply (inv_done _ _ _ _ _ H).
  - apply (inv_now _ _ _ _ _ H).
  - intros k j Hk; apply (inv_ready _ _ _ _ _ H). rewrite <- P; exact Hk.
  - apply (inv_prec _ _ _ _ _ H).
  - apply (inv_ledger _ _ _ _ _ H).
  - apply (inv_res _ _ _ _ _ H).
Qed.

(** *** Placing a popped statement in the current cycle *)

Lemma Inv_place : forall st sch i q led,
    Inv dependencies usage_links stmts0 st sch ->
    Permutation (pq_elems (readyQueue st)) (i :: pq_elems q) ->
    (wf_dfg stmts0 dependencies usage_links = true ->
     forall c k v,
        In (c, k, v) led ->
        In (c, k, v) (delayByCycle st)
        \/ (In i (row dependencies k) /\ c < currentCycle st + spanOf st i)) ->
    (0 <= limit (op (stmt_at (statements st) i)) ->
     calculateResourceUsage (statements st) (currentCycle st)
                            (op (stmt_at (statements st) i))
     < limit (op (stmt_at (statements st) i))) ->
    Inv dependencies usage_links stmts0 (mkL (upd i (with_start (currentCycle st)) (statements st))
             (completedStatements st) (notReady st) q led (currentCycle st))
        (sch ++ [i]).
Proof.
  intros st sch i q led H P Hled Hadm.
  set (cur := currentCycle st) in *.
  set (stmts := statements st) in *.
  set (rest := pq_elems q ++ notReady st ++ completedStatements st ++ sch).
  assert (Hn : length stmts = n) by (apply (inv_length _ _ H)).
  assert (Hin : In i (pq_elems (readyQueue st))) by (rewrite P; left; reflexivity).
  assert (Hperm : Permutation (i :: rest) (seq 0 n)).
  { rewrite <- (inv_part _ _ _ _ _ H). unfold whole. rewrite P. reflexivity. }
  assert (Hnd : NoDup (i :: rest)).
  { apply Permutation_NoDup with (l := seq 0 n);
      [symmetry; exact Hperm | apply seq_NoDup]. }
  apply NoDup_cons_iff in Hnd; destruct Hnd as [Hfresh Hnd].
  assert (Hi : (i < n)%nat).
  { apply (inv_in_lt _ _ _ H). unfold whole. apply in_or_app; left; exact Hin. }
  assert (Hother : forall j, In j rest ->
                             stmt_at (upd i (with_start cur) stmts) j = stmt_at stmts j).
  { intros j Hj. apply stmt_at_upd_other. intros ->. apply Hfresh; exact Hj. }
  assert (Hself : stmt_at (upd i (with_start cur) stmts) i
                  = with_start cur (stmt_at stmts i))
    by (apply stmt_at_upd_same; lia).
  assert (Hstatic : map static (upd i (with_start cur) stmts) = map static stmts)
    by (apply static_upd_const).
  assert (Hop : forall j, op (stmt_at (upd i (with_start cur) stmts) j)
                          = op (stmt_at stmts j))
    by (intros j; apply static_op; exact Hstatic).
  assert (HqR : forall j, In j (pq_elems q) -> In j (pq_elems (readyQueue st)))
    by (intros j Hj; rewrite P; right; exact Hj).
  assert (Hrest_q : forall j, In j (pq_elems q) -> In j rest)
    by (intros j Hj; unfold rest; rewrite !in_app_iff; tauto).
  assert (Hrest_n : forall j, In j (notReady st) -> In j rest)
    by (intros j Hj; unfold rest; rewrite !in_app_iff; tauto).
  assert (Hrest_c : forall j, In j (completedStatements st) -> In j rest)
    by (intros j Hj; unfold rest; rewrite !in_app_iff; tauto).
  assert (Hrest_s : forall j, In j sch -> In j rest)
    by (intros j Hj; unfold rest; rewrite !in_app_iff; tauto).
  constructor; cbn [statements completedStatements notReady readyQueue
                    delayByCycle currentCycle].
  - rewrite Hstatic; apply (inv_static _ _ _ _ _ H).
  - unfold whole;
      cbn [statements completedStatements notReady readyQueue delayByCycle currentCycle].
    rewrite <- Hperm, (Permutation_cons_append rest i). unfold rest.
    rewrite <- !app_assoc. reflexivity.
  - apply (inv_cur _ _ _ _ _ H).
  - intros j Hj. apply in_app_or in Hj. destruct Hj as [Hj|Hj].
    + rewrite Hother by auto. apply (inv_unsched _ _ _ _ _ H).
      apply in_or_app; left; auto.
    + rewrite Hother by auto. apply (inv_unsched _ _ _ _ _ H).
      apply in_or_app; right; auto.
  - intros j Hj. rewrite Hother by auto. apply (inv_done _ _ _ _ _ H); exact Hj.
  - intros j Hj. apply in_app_or in Hj. destruct Hj as [Hj|[<-|[]]].
    + rewrite Hother by auto. apply (inv_now _ _ _ _ _ H); exact Hj.
    + rewrite Hself; reflexivity.
  - intros k j Hk Hj.
    destruct (inv_ready _ _ _ _ _ H k j (HqR k Hk) Hj) as [Hc Hle].
    split; [exact Hc|]. rewrite Hop, Hother by auto. exact Hle.
  - intros i' j Hi' Hj. rewrite app_assoc in Hi'.
    apply in_app_or in Hi'. destruct Hi' as [Hi'|[<-|[]]].
    + destruct (inv_prec _ _ _ _ _ H i' j Hi' Hj) as [Hc Hle].
      split; [exact Hc|]. rewrite Hop, !Hother; auto.
      apply in_app_or in Hi'; destruct Hi'; auto.
    + destruct (inv_ready _ _ _ _ _ H i j Hin Hj) as [Hc Hle].
      split; [exact Hc|]. rewrite Hop, Hself, Hother by auto. exact Hle.
  - intros Hwf c k v Hin'. destruct (Hled Hwf c k v Hin') as [Hold|[Hdep Hc]].
    + destruct (inv_ledger _ _ _ _ _ H Hwf c k v Hold) as [j [Hj [Hjin Hlt]]].
      exists j. split; [exact Hj|]. split.
      * rewrite app_assoc; apply in_or_app; left; exact Hjin.
      * rewrite Hop, Hother; [exact Hlt|].
        apply in_app_or in Hjin; destruct Hjin; auto.
    + exists i. split; [exact Hdep|]. split.
      * rewrite app_assoc; apply in_or_app; right; left; reflexivity.
      * rewrite Hop, Hself. exact Hc.
  - intros k c Hk.
    assert (Hold := inv_res _ _ _ _ _ H k c Hk). fold stmts in Hold.
    assert (Hupd := filter_upd_le Stmt (active_op k c) (with_start cur) dStmt i stmts).
    fold (stmt_at stmts i) in Hupd.
    destruct (active_op k c (with_start cur (stmt_at stmts i))) eqn:Hact; [|lia].
    unfold active_op, busy in Hact. cbn [with_start start_cycle op] in Hact.
    repeat (apply andb_true_iff in Hact; destruct Hact as [Hact ?]).
    destruct (Op_eq_dec (op (stmt_at stmts i)) k) as [Heq|]; [|discriminate].
    rewrite Heq in Hadm. specialize (Hadm Hk).
    unfold calculateResourceUsage in Hadm.
    destruct (limit k <? 0) eqn:Hneg; [apply Z.ltb_lt in Hneg; lia|].
    assert (Hmono : (length (filter (active_op k c) stmts)
                     <= length (filter (is_active cur k) stmts))%nat).
    { apply filter_length_le. intros x Hx Hax.
      apply In_nth with (d := dStmt) in Hx. destruct Hx as [j [_ <-]].
      assert (Hle := inv_start_le st sch j H).
      fold stmts in Hle. fold cur in Hle. unfold stmt_at in Hle.
      unfold active_op, busy in Hax. unfold is_active.
      repeat (apply andb_true_iff in Hax; destruct Hax as [Hax ?]).
      destruct (Op_eq_dec (op (nth j stmts dStmt)) k) as [Hk'|]; [|discriminate].
      rewrite Hk', String.eqb_refl, Hax. simpl.
      apply andb_true_iff; split; [apply Z.leb_le; lia|].
      apply Z.ltb_lt.
      repeat match goal with
             | Hb : (_ <=? _) = true |- _ => apply Z.leb_le in Hb
             | Hb : (_ <? _) = true |- _ => apply Z.ltb_lt in Hb
             end.
      rewrite Hk' in *. lia. }
    lia.
Qed.

Lemma fold_ledger_in : forall (g : ledger -> nat -> ledger)
                              (P : nat -> Z * nat * Q -> Prop),
    (forall l s e, In e (g l s) -> In e l \/ P s e) ->
    forall ss l e,
      In e (fold_left g ss l) -> In e l \/ exists s, In s ss /\ P s e.
Proof.
  intros g P Hg ss; induction ss as [|s ss IH]; intros l e He; simpl in He; auto.
  destruct (IH _ _ He) as [Hl|[s' [Hs' HP]]].
  - destruct (Hg _ _ _ Hl) as [Hl'|HP]; auto.
    right; exists s; split; [left; reflexivity|exact HP].
  - right; exists s'; split; [right; exact Hs'|exact HP].
Qed.

Lemma placed_idx : forall st sch i s,
    wf_dfg stmts0 dependencies usage_links = true ->
    Inv dependencies usage_links stmts0 st sch -> (s < n)%nat ->
    idx (stmt_at (upd i (with_start (currentCycle st)) (statements st)) s) = s.
Proof.
  intros st sch i s Hwf H Hs.
  rewrite (static_idx _ (statements st) s
             (static_upd_const (currentCycle st) i (statements st))).
  rewrite (static_idx _ stmts0 s (inv_static _ _ _ _ _ H)).
  apply (proj1 (wf_dfg_spec _ _ _ Hwf)); exact Hs.
Qed.

Lemma Inv_place_combinational : forall st sch i q,
    Inv dependencies usage_links stmts0 st sch ->
    Permutation (pq_elems (readyQueue st)) (i :: pq_elems q) ->
    limit (op (stmt_at (statements st) i)) < 0 ->
    Inv dependencies usage_links stmts0 (place_combinational usage_links st i q) (sch ++ [i]).
Proof.
  intros st sch i q H P Hlim. unfold place_combinational.
  apply Inv_place; auto; [|intros; lia].
  intros Hwf c k v Hin.
  apply (fold_ledger_in _
           (fun s e => fst (fst e) = currentCycle st
                       /\ snd (fst e)
                          = idx (stmt_at (upd i (with_start (currentCycle st))
                                              (statements st)) s))) in Hin.
  - destruct Hin as [Hin|[s [Hs [Hc Hk]]]]; [left; exact Hin|right].
    simpl in Hc, Hk. destruct (proj2 (proj2 (wf_dfg_spec _ _ _ Hwf)) i s Hs)
      as [_ [Hlt Hdep]].
    rewrite (placed_idx st sch i s Hwf H Hlt) in Hk. subst; split; [exact Hdep|lia].
  - intros l s e He. unfold ledger_set in He. destruct He as [<-|He]; auto.
Qed.

Lemma Inv_place_physical : forall st sch i q,
    Inv dependencies usage_links stmts0 st sch ->
    Permutation (pq_elems (readyQueue st)) (i :: pq_elems q) ->
    calculateResourceUsage (statements st) (currentCycle st)
                           (op (stmt_at (statements st) i))
    < limit (op (stmt_at (statements st) i)) ->
    Inv dependencies usage_links stmts0 (place_physical usage_links st i q) (sch ++ [i]).
Proof.
  intros st sch i q H P Hadm. unfold place_physical.
  apply Inv_place; auto.
  intros Hwf c k v Hin.
  apply (fold_ledger_in _
           (fun s e => fst (fst e)
                       = currentCycle st
                         + latency (op (stmt_at (upd i (with_start (currentCycle st))
                                                     (statements st)) i)) - 1
                       /\ snd (fst e)
                          = idx (stmt_at (upd i (with_start (currentCycle st))
                                              (statements st)) s))) in Hin.
  - destruct Hin as [Hin|[s [Hs [Hc Hk]]]]; [left; exact Hin|right].
    simpl in Hc, Hk. destruct (proj2 (proj2 (wf_dfg_spec _ _ _ Hwf)) i s Hs)
      as [_ [Hlt Hdep]].
    rewrite (placed_idx st sch i s Hwf H Hlt) in Hk.
    rewrite (static_op _ (statements st) i
               (static_upd_const (currentCycle st) i (statements st))) in Hc.
    subst; split; [exact Hdep|lia].
  - intros l s e He.
    destruct (limit (op (stmt_at (upd i (with_start (currentCycle st))
                                      (statements st)) s)) <? 0); auto.
    unfold ledger_set in He. destruct He as [<-|He]; auto.
Qed.

(** A popped statement was in the queue. *)
Lemma drain_iter_Inv : forall st sch b st' sch',
    Inv dependencies usage_links stmts0 st sch ->
    drain_iter time_period usage_links priority st sch = Some (b, st', sch') ->
    Inv dependencies usage_links stmts0 st' sch'.
Proof.
  intros st sch b st' sch' H E. unfold drain_iter in E.
  destruct (pq_pop (comparator priority (statements st)) (readyQueue st))
    as [[i q]|] eqn:Epop; [|discriminate].
  assert (P := pq_pop_some _ _ _ _ Epop).
  assert (Pback : Permutation
                    (pq_elems (pq_push (comparator priority (statements st)) i q))
                    (pq_elems (readyQueue st)))
    by (rewrite pq_push_elems; symmetry; exact P).
  destruct (limit (op (stmt_at (statements st) i)) <? 0) eqn:Hlim.
  - apply Z.ltb_lt in Hlim.
    destruct (Qle_bool _ time_period); injection E as <- <- <-.
    + apply Inv_place_combinational; assumption.
    + apply Inv_requeue; assumption.
  - destruct (calculateResourceUsage _ _ _ <? _) eqn:Hadm; injection E as <- <- <-.
    + apply Inv_place_physical; auto. apply Z.ltb_lt; exact Hadm.
    + apply Inv_requeue; assumption.
Qed.

(** *** The end of a cycle *)

Lemma isReady_spec : forall stmts completed cur i,
    isReady dependencies stmts completed cur i = true ->
    forall j, In j (row dependencies i) ->
      In j completed
      /\ start_cycle (stmt_at stmts j) + Z.max (latency (op (stmt_at stmts j))) 1
         <= cur + 1.
Proof.
  intros stmts completed cur i H j Hj. unfold isReady in H.
  rewrite forallb_forall in H. specialize (H j Hj).
  apply negb_true_iff in H. apply orb_false_iff in H. destruct H as [Hm Hc].
  apply negb_false_iff in Hm. apply set_mem_correct1 in Hm.
  apply Z.ltb_ge in Hc. split; [exact Hm|exact Hc].
Qed.

Lemma isReady_intro : forall stmts completed cur i,
    (forall j, In j (row dependencies i) ->
      In j completed
      /\ start_cycle (stmt_at stmts j) + Z.max (latency (op (stmt_at stmts j))) 1
         <= cur + 1) ->
    isReady dependencies stmts completed cur i = true.
Proof.
  intros stmts completed cur i H. unfold isReady. apply forallb_forall.
  intros j Hj. destruct (H j Hj) as [Hm Hc].
  apply negb_true_iff. apply orb_false_iff. split.
  - apply negb_false_iff. apply set_mem_correct2; exact Hm.
  - apply Z.ltb_ge; exact Hc.
Qed.

Lemma inv_commit : forall st sch,
    Inv dependencies usage_links stmts0 st sch ->
    fold_left (fun c i => set_add Nat.eq_dec i c) sch (completedStatements st)
    = completedStatements st ++ sch.
Proof.
  intros st sch H. apply commit_fresh.
  assert (Hnd := inv_nodup _ _ H). unfold whole in Hnd.
  apply NoDup_app_remove_l in Hnd. apply NoDup_app_remove_l in Hnd. exact Hnd.
Qed.

Lemma Inv_end_of_cycle : forall st sch,
    Inv dependencies usage_links stmts0 st sch -> Inv dependencies usage_links stmts0 (end_of_cycle dependencies priority st sch) [].
Proof.
  intros st sch H. unfold end_of_cycle. rewrite (inv_commit _ _ H).
  set (ready := isReady dependencies (statements st)
                        (completedStatements st ++ sch) (currentCycle st)).
  assert (Hc := inv_cur _ _ _ _ _ H).
  constructor; cbn [statements completedStatements notReady readyQueue
                    delayByCycle currentCycle].
  - apply (inv_static _ _ _ _ _ H).
  - unfold whole;
      cbn [statements completedStatements notReady readyQueue delayByCycle currentCycle].
    rewrite pq_push_all, app_nil_r, <- (inv_part _ _ _ _ _ H). unfold whole.
    apply Permutation_trans
      with (pq_elems (readyQueue st)
            ++ (filter ready (notReady st)
                ++ filter (fun i => negb (ready i)) (notReady st))
            ++ completedStatements st ++ sch).
    + rewrite (Permutation_app_comm (filter ready (notReady st))
                                    (pq_elems (readyQueue st))).
      rewrite <- !app_assoc. reflexivity.
    + apply Permutation_app_head. apply Permutation_app_tail. apply filter_split.
  - lia.
  - intros j Hj. apply (inv_unsched _ _ _ _ _ H).
    apply in_app_or in Hj. destruct Hj as [Hj|Hj].
    + apply (Permutation_in _ (pq_push_all _ _ _)) in Hj.
      apply in_app_or in Hj. destruct Hj as [Hj|Hj].
      * apply filter_In in Hj. apply in_or_app; right; tauto.
      * apply in_or_app; left; exact Hj.
    + apply filter_In in Hj. apply in_or_app; right; tauto.
  - intros j Hj. apply in_app_or in Hj. destruct Hj as [Hj|Hj].
    + assert (Hd := inv_done _ _ _ _ _ H j Hj). lia.
    + rewrite (inv_now _ _ _ _ _ H j Hj). lia.
  - intros j [].
  - intros k j Hk Hj.
    apply (Permutation_in _ (pq_push_all _ _ _)) in Hk.
    apply in_app_or in Hk. destruct Hk as [Hk|Hk].
    + apply filter_In in Hk. destruct Hk as [_ Hk].
      apply (isReady_spec _ _ _ _ Hk j Hj).
    + destruct (inv_ready _ _ _ _ _ H k j Hk Hj) as [Hin Hle].
      split; [apply in_or_app; left; exact Hin|lia].
  - intros i j Hi Hj. rewrite app_nil_r in Hi.
    destruct (inv_prec _ _ _ _ _ H i j Hi Hj) as [Hin Hle].
    split; [apply in_or_app; left; exact Hin|exact Hle].
  - intros Hwf c k v Hin. rewrite app_nil_r.
    apply (inv_ledger _ _ _ _ _ H Hwf c k v Hin).
  - apply (inv_res _ _ _ _ _ H).
Qed.

(** *** The loops keep the invariant *)

Lemma drain_Inv : forall fuel st sch st' sch',
    Inv dependencies usage_links stmts0 st sch ->
    drain time_period usage_links priority fuel st sch = Some (st', sch') ->
    Inv dependencies usage_links stmts0 st' sch'.
Proof.
  induction fuel as [|fuel IH]; intros st sch st' sch' H E; simpl in E;
    [discriminate|].
  destruct (drain_iter time_period usage_links priority st sch)
    as [[[b st1] sch1]|] eqn:Eit.
  - assert (H1 := drain_iter_Inv _ _ _ _ _ H Eit).
    destruct b.
    + apply (IH _ _ _ _ H1 E).
    + injection E as <- <-; exact H1.
  - injection E as <- <-; exact H.
Qed.

Lemma list_loop_Inv : forall fuel st st',
    Inv dependencies usage_links stmts0 st [] ->
    list_loop time_period dependencies usage_links priority fuel st = Some st' ->
    Inv dependencies usage_links stmts0 st' [] /\ (n <= length (completedStatements st'))%nat.
Proof.
  induction fuel as [|fuel IH]; intros st st' H E; simpl in E; [discriminate|].
  destruct (length (completedStatements st) <? length (statements st))%nat eqn:Hlt.
  - destruct (drain time_period usage_links priority fuel st [])
      as [[st1 sch1]|] eqn:Ed; [|discriminate].
    apply (IH _ _ (Inv_end_of_cycle _ _ (drain_Inv _ _ _ _ _ H Ed)) E).
  - injection E as <-. split; [exact H|].
    apply Nat.ltb_ge in Hlt. rewrite (inv_length _ _ H) in Hlt. exact Hlt.
Qed.

Lemma reachable_Inv : forall st sch,
    reachable time_period dependencies usage_links stmts0 st sch -> Inv dependencies usage_links stmts0 st sch.
Proof.
  intros st sch R; induction R as [|st sch st' sch' R IH E
                                   |st sch st' sch' R IH E Hlt].
  - apply Inv_init.
  - apply (drain_iter_Inv _ _ _ _ _ IH E).
  - apply Inv_end_of_cycle. destruct E as [E|[_ [-> ->]]].
    + apply (drain_iter_Inv _ _ _ _ _ IH E).
    + exact IH.
Qed.

(** *** The ledger is never read where it was written *)

Hypothesis Hwf : wf_dfg stmts0 dependencies usage_links = true.

Lemma ledger_read_zero : forall st sch i,
    Inv dependencies usage_links stmts0 st sch -> In i (pq_elems (readyQueue st)) ->
    ledger_get (delayByCycle st) (currentCycle st) i = 0%Q.
Proof.
  intros st sch i H Hi. unfold ledger_get.
  destruct (find (ledger_key (currentCycle st) i) (delayByCycle st))
    as [[[c k] v]|] eqn:F; [|reflexivity].
  apply find_some in F. destruct F as [Hin Hkey].
  unfold ledger_key in Hkey; simpl in Hkey.
  apply andb_true_iff in Hkey. destruct Hkey as [Hc Hk].
  apply Z.eqb_eq in Hc. apply Nat.eqb_eq in Hk. subst c k.
  destruct (inv_ledger _ _ _ _ _ H Hwf _ _ _ Hin) as [j [Hj [_ Hlt]]].
  destruct (inv_ready _ _ _ _ _ H i j Hi Hj) as [_ Hle]. lia.
Qed.

Lemma Qle_bool_plus_0 : forall d t, Qle_bool (d + 0) t = Qle_bool d t.
Proof.
  intros d t.
  destruct (Qle_bool d t) eqn:E.
  - apply Qle_bool_iff. rewrite Qplus_0_r. apply Qle_bool_iff; exact E.
  - destruct (Qle_bool (d + 0) t) eqn:E'; auto.
    apply Qle_bool_iff in E'. rewrite Qplus_0_r in E'.
    apply Qle_bool_iff in E'. congruence.
Qed.

Lemma drain_iter_plain_eq : forall st sch,
    Inv dependencies usage_links stmts0 st sch ->
    drain_iter_plain time_period priority (erase_ledger st) sch
    = match drain_iter time_period usage_links priority st sch with
      | Some (b, st', sch') => Some (b, erase_ledger st', sch')
      | None => None
      end.
Proof.
  intros st sch H. unfold drain_iter_plain, drain_iter.
  cbn [erase_ledger statements completedStatements notReady readyQueue
       delayByCycle currentCycle].
  destruct (pq_pop (comparator priority (statements st)) (readyQueue st))
    as [[i q]|] eqn:Epop; [|reflexivity].
  assert (Hi : In i (pq_elems (readyQueue st)))
    by (rewrite (pq_pop_some _ _ _ _ Epop); left; reflexivity).
  rewrite (ledger_read_zero st sch i H Hi), Qle_bool_plus_0.
  destruct (limit (op (stmt_at (statements st) i)) <? 0).
  - destruct (Qle_bool (delay (op (stmt_at (statements st) i))) time_period);
      reflexivity.
  - destruct (calculateResourceUsage _ _ _ <? _); reflexivity.
Qed.

Lemma drain_plain_eq : forall fuel st sch,
    Inv dependencies usage_links stmts0 st sch ->
    drain_plain time_period priority fuel (erase_ledger st) sch
    = match drain time_period usage_links priority fuel st sch with
      | Some (st', sch') => Some (erase_ledger st', sch')
      | None => None
      end.
Proof.
  induction fuel as [|fuel IH]; intros st sch H; simpl; [reflexivity|].
  rewrite (drain_iter_plain_eq st sch H).
  destruct (drain_iter time_period usage_links priority st sch)
    as [[[b st1] sch1]|] eqn:Eit; [|reflexivity].
  destruct b; [|reflexivity].
  apply IH. apply (drain_iter_Inv _ _ _ _ _ H Eit).
Qed.

Lemma list_loop_plain_eq : forall fuel st,
    Inv dependencies usage_links stmts0 st [] ->
    list_loop_plain time_period dependencies priority fuel (erase_ledger st)
    = match list_loop time_period dependencies usage_links priority fuel st with
      | Some st' => Some (erase_ledger st')
      | None => None
      end.
Proof.
  induction fuel as [|fuel IH]; intros st H; simpl; [reflexivity|].
  destruct (length (completedStatements st) <? length (statements st))%nat;
    [|reflexivity].
  rewrite (drain_plain_eq fuel st [] H).
  destruct (drain time_period usage_links priority fuel st [])
    as [[st1 sch1]|] eqn:Ed; [|reflexivity].
  change (end_of_cycle dependencies priority (erase_ledger st1) sch1)
    with (erase_ledger (end_of_cycle dependencies priority st1 sch1)).
  apply IH. apply Inv_end_of_cycle. apply (drain_Inv _ _ _ _ _ H Ed).
Qed.

Lemma scheduleByList_plain_eq : forall fuel,
    scheduleByList fuel time_period dependencies usage_links stmts0
    = scheduleByList_plain fuel time_period dependencies stmts0.
Proof.
  intros fuel. unfold scheduleByList, scheduleByList_plain.
  change (list_init dependencies stmts0)
    with (erase_ledger (list_init dependencies stmts0)) at 2.
  fold priority. rewrite (list_loop_plain_eq fuel _ Inv_init).
  destruct (list_loop time_period dependencies usage_links priority fuel
                      (list_init dependencies stmts0)); reflexivity.
Qed.

(** *** The state in which the loop is left *)

Lemma final_completed : forall st,
    Inv dependencies usage_links stmts0 st [] -> (n <= length (completedStatements st))%nat ->
    forall i, (i < n)%nat -> In i (completedStatements st).
Proof.
  intros st H Hlen i Hi.
  assert (Hc := Permutation_length (inv_part _ _ _ _ _ H)).
  unfold whole in Hc. rewrite !length_app, length_seq in Hc. simpl in Hc.
  assert (Hin := inv_lt_in _ _ _ H Hi). unfold whole in Hin.
  destruct (pq_elems (readyQueue st)) as [|a l]; [|simpl in Hc; lia].
  destruct (notReady st) as [|a l]; [|simpl in Hc; lia].
  simpl in Hin. rewrite app_nil_r in Hin. exact Hin.
Qed.

Lemma scheduleByList_final : forall fuel stmts' L,
    scheduleByList fuel time_period dependencies usage_links stmts0 = Some (stmts', L) ->
    exists st, statements st = stmts' /\ Inv dependencies usage_links stmts0 st []
               /\ (forall i, (i < n)%nat -> In i (completedStatements st))
               /\ L = schedule_latency stmts'.
Proof.
  intros fuel stmts' L E. unfold scheduleByList in E. fold priority in E.
  destruct (list_loop time_period dependencies usage_links priority fuel
                      (list_init dependencies stmts0)) as [st|] eqn:El;
    [|discriminate].
  injection E as <- <-.
  destruct (list_loop_Inv _ _ _ Inv_init El) as [H Hlen].
  exists st. split; [reflexivity|]. split; [exact H|].
  split; [apply final_completed; assumption|reflexivity].
Qed.

(** *** Frames: what an iteration of the inner loop leaves alone *)

Lemma drain_iter_frame : forall st sch b st' sch',
    drain_iter time_period usage_links priority st sch = Some (b, st', sch') ->
    completedStatements st' = completedStatements st
    /\ notReady st' = notReady st
    /\ currentCycle st' = currentCycle st
    /\ ((sch' = sch /\ statements st' = statements st
         /\ Permutation (pq_elems (readyQueue st')) (pq_elems (readyQueue st)))
        \/ (exists i, sch' = sch ++ [i]
                      /\ Permutation (pq_elems (readyQueue st))
                                     (i :: pq_elems (readyQueue st')))).
Proof.
  intros st sch b st' sch' E. unfold drain_iter in E.
  destruct (pq_pop (comparator priority (statements st)) (readyQueue st))
    as [[i q]|] eqn:Epop; [|discriminate].
  assert (P := pq_pop_some _ _ _ _ Epop).
  assert (Pback : Permutation
                    (pq_elems (pq_push (comparator priority (statements st)) i q))
                    (pq_elems (readyQueue st)))
    by (rewrite pq_push_elems; symmetry; exact P).
  destruct (limit (op (stmt_at (statements st) i)) <? 0).
  - destruct (Qle_bool _ time_period); injection E as <- <- <-;
      cbn [place_combinational with_queue statements completedStatements notReady
           readyQueue delayByCycle currentCycle]; repeat split; auto.
    right; exists i; auto.
  - destruct (calculateResourceUsage _ _ _ <? _); injection E as <- <- <-;
      cbn [place_physical with_queue statements completedStatements notReady
           readyQueue delayByCycle currentCycle]; repeat split; auto.
    right; exists i; auto.
Qed.

Lemma drain_frame : forall fuel st sch st' sch',
    drain time_period usage_links priority fuel st sch = Some (st', sch') ->
    completedStatements st' = completedStatements st
    /\ notReady st' = notReady st
    /\ currentCycle st' = currentCycle st
    /\ exists ext, sch' = sch ++ ext
                   /\ (ext = [] ->
                       statements st' = statements st
                       /\ Permutation (pq_elems (readyQueue st'))
                                      (pq_elems (readyQueue st))).
Proof.
  induction fuel as [|fuel IH]; intros st sch st' sch' E; simpl in E;
    [discriminate|].
  destruct (drain_iter time_period usage_links priority st sch)
    as [[[b st1] sch1]|] eqn:Eit.
  - destruct (drain_iter_frame _ _ _ _ _ Eit) as [Hc [Hn [Hcur Hcase]]].
    assert (Hstep : completedStatements st' = completedStatements st1
                    /\ notReady st' = notReady st1
                    /\ currentCycle st' = currentCycle st1
                    /\ exists ext, sch' = sch1 ++ ext
                                   /\ (ext = [] ->
                                       statements st' = statements st1
                                       /\ Permutation (pq_elems (readyQueue st'))
                                                      (pq_elems (readyQueue st1)))).
    { destruct b.
      - apply (IH _ _ _ _ E).
      - injection E as <- <-. repeat split; auto.
        exists []. rewrite app_nil_r. auto. }
    destruct Hstep as [Hc' [Hn' [Hcur' [ext [Hext Hsame]]]]].
    rewrite Hc', Hn', Hcur'. repeat split; auto.
    destruct Hcase as [[-> [Hs HP]]|[i [-> HP]]].
    + exists ext. split; [exact Hext|]. intros He.
      destruct (Hsame He) as [Hs' HP']. rewrite Hs', HP'. auto.
    + exists (i :: ext). split.
      * rewrite Hext, <- app_assoc. reflexivity.
      * discriminate.
  - injection E as <- <-. repeat split; auto.
    exists []. rewrite app_nil_r. auto.
Qed.

Lemma drain_after_placing : forall fuel st sch st' sch' st1 i,
    drain time_period usage_links priority fuel st sch = Some (st', sch') ->
    drain_iter time_period usage_links priority st sch = Some (true, st1, sch ++ [i]) ->
    exists ext, sch' = sch ++ i :: ext.
Proof.
  intros [|fuel] st sch st' sch' st1 i E Eit; simpl in E; [discriminate|].
  rewrite Eit in E.
  destruct (drain_frame _ _ _ _ _ E) as [_ [_ [_ [ext [Hext _]]]]].
  exists ext. rewrite Hext, <- app_assoc. reflexivity.
Qed.

(** *** More fuel does not change a result *)

Lemma drain_mono : forall fuel st sch r,
    drain time_period usage_links priority fuel st sch = Some r ->
    forall fuel', (fuel <= fuel')%nat ->
                  drain time_period usage_links priority fuel' st sch = Some r.
Proof.
  induction fuel as [|fuel IH]; intros st sch r E fuel' Hle; simpl in E;
    [discriminate|].
  destruct fuel' as [|fuel']; [lia|]. simpl.
  destruct (drain_iter time_period usage_links priority st sch)
    as [[[b st1] sch1]|]; [|exact E].
  destruct b; [|exact E]. apply (IH _ _ _ E). lia.
Qed.

Lemma list_loop_mono : forall fuel st r,
    list_loop time_period dependencies usage_links priority fuel st = Some r ->
    forall fuel', (fuel <= fuel')%nat ->
                  list_loop time_period dependencies usage_links priority fuel' st
                  = Some r.
Proof.
  induction fuel as [|fuel IH]; intros st r E fuel' Hle; simpl in E;
    [discriminate|].
  destruct fuel' as [|fuel']; [lia|]. simpl.
  destruct (length (completedStatements st) <? length (statements st))%nat;
    [|exact E].
  destruct (drain time_period usage_links priority fuel st [])
    as [[st1 sch1]|] eqn:Ed; [|discriminate].
  rewrite (drain_mono _ _ _ _ Ed fuel') by lia.
  apply (IH _ _ E). lia.
Qed.

(** *** Termination

    With a topological numbering and a configuration in which every
    statement can be placed, both loops come to an end. *)

Hypothesis Htopo : topological dependencies = true.
Hypothesis Hsched : schedulable time_period stmts0 = true.

Lemma horizon_ge : forall stmts s, In s stmts -> retire s <= horizon stmts.
Proof.
  intros stmts s; induction stmts as [|x l IH]; intros H; [destruct H|].
  simpl. destruct H as [->|H]; [lia|]. specialize (IH H). lia.
Qed.

Lemma topological_spec : forall i j, In j (row dependencies i) -> (j < i)%nat.
Proof.
  intros i j Hj. unfold topological in Htopo. rewrite forallb_forall in Htopo.
  assert (Hi : (i < length dependencies)%nat).
  { destruct (Nat.lt_ge_cases i (length dependencies)) as [Hi|Hi]; auto.
    unfold row in Hj. rewrite nth_overflow in Hj by exact Hi. destruct Hj. }
  assert (Hs : In i (seq 0 (length dependencies))) by (apply in_seq; lia).
  specialize (Htopo i Hs). rewrite forallb_forall in Htopo.
  apply Nat.ltb_lt. apply Htopo; exact Hj.
Qed.

Lemma placeable_at : forall st sch i,
    Inv dependencies usage_links stmts0 st sch -> (i < n)%nat -> placeable time_period (stmt_at (statements st) i) = true.
Proof.
  intros st sch i H Hi. unfold placeable.
  rewrite (static_op _ stmts0 i (inv_static _ _ _ _ _ H)).
  unfold schedulable in Hsched. rewrite forallb_forall in Hsched.
  apply (Hsched (stmt_at stmts0 i)). apply nth_In; exact Hi.
Qed.

Lemma list_min_exists : forall l : list nat,
    l <> [] -> exists m, In m l /\ forall x, In x l -> (m <= x)%nat.
Proof.
  induction l as [|a l IH]; intros Hne; [congruence|].
  destruct l as [|b l].
  - exists a; split; [left; reflexivity|]. intros x [<-|[]]; lia.
  - destruct IH as [m [Hm Hmin]]; [discriminate|].
    destruct (Nat.le_gt_cases a m) as [Ham|Ham].
    + exists a; split; [left; reflexivity|].
      intros x [<-|Hx]; [lia|]. specialize (Hmin x Hx); lia.
    + exists m; split; [right; exact Hm|].
      intros x [<-|Hx]; [lia|]. apply Hmin; exact Hx.
Qed.

(** A combinational statement that is popped is placed. *)
Lemma combinational_fits : forall st sch i,
    Inv dependencies usage_links stmts0 st sch -> In i (pq_elems (readyQueue st)) ->
    (limit (op (stmt_at (statements st) i)) <? 0) = true ->
    Qle_bool (delay (op (stmt_at (statements st) i))
              + ledger_get (delayByCycle st) (currentCycle st) i) time_period = true.
Proof.
  intros st sch i H Hi Hlim.
  rewrite (ledger_read_zero st sch i H Hi), Qle_bool_plus_0.
  assert (Hlt : (i < n)%nat).
  { apply (inv_in_lt _ _ _ H). unfold whole. apply in_or_app; left; exact Hi. }
  assert (Hp := placeable_at st sch i H Hlt). unfold placeable in Hp.
  rewrite Hlim in Hp. exact Hp.
Qed.

(** An iteration after which the inner loop goes on has placed a statement. *)
Lemma drain_iter_progress : forall st sch st' sch',
    Inv dependencies usage_links stmts0 st sch ->
    drain_iter time_period usage_links priority st sch = Some (true, st', sch') ->
    exists i, sch' = sch ++ [i]
              /\ Permutation (pq_elems (readyQueue st)) (i :: pq_elems (readyQueue st')).
Proof.
  intros st sch st' sch' H E. unfold drain_iter in E.
  destruct (pq_pop (comparator priority (statements st)) (readyQueue st))
    as [[i q]|] eqn:Epop; [|discriminate].
  assert (P := pq_pop_some _ _ _ _ Epop).
  assert (Hi : In i (pq_elems (readyQueue st))) by (rewrite P; left; reflexivity).
  destruct (limit (op (stmt_at (statements st) i)) <? 0) eqn:Hlim.
  - rewrite (combinational_fits st sch i H Hi Hlim) in E.
    injection E as <- <-. exists i; split; [reflexivity|exact P].
  - destruct (calculateResourceUsage _ _ _ <? _); [|discriminate].
    injection E as <- <-. exists i; split; [reflexivity|exact P].
Qed.

Lemma drain_total : forall fuel st sch,
    Inv dependencies usage_links stmts0 st sch -> (length (pq_elems (readyQueue st)) < fuel)%nat ->
    exists st' sch', drain time_period usage_links priority fuel st sch
                     = Some (st', sch').
Proof.
  induction fuel as [|fuel IH]; intros st sch H Hlen; [lia|]. simpl.
  destruct (drain_iter time_period usage_links priority st sch)
    as [[[b st1] sch1]|] eqn:Eit; [|eauto].
  destruct b; [|eauto].
  destruct (drain_iter_progress _ _ _ _ H Eit) as [i [_ P]].
  apply Permutation_length in P. simpl in P.
  apply IH; [apply (drain_iter_Inv _ _ _ _ _ H Eit)|lia].
Qed.

(** Once everything scheduled so far has retired, the first statement that
    is popped is placed. *)
Lemma drain_iter_first : forall st sch,
    Inv dependencies usage_links stmts0 st sch -> pq_elems (readyQueue st) <> [] ->
    horizon (statements st) <= currentCycle st ->
    exists st' i, drain_iter time_period usage_links priority st sch
                  = Some (true, st', sch ++ [i]).
Proof.
  intros st sch H Hne Hhor. unfold drain_iter.
  destruct (pq_pop (comparator priority (statements st)) (readyQueue st))
    as [[i q]|] eqn:Epop;
    [|exfalso; apply Hne; apply (pq_pop_none _ _ Epop)].
  assert (P := pq_pop_some _ _ _ _ Epop).
  assert (Hi : In i (pq_elems (readyQueue st))) by (rewrite P; left; reflexivity).
  destruct (limit (op (stmt_at (statements st) i)) <? 0) eqn:Hlim.
  - rewrite (combinational_fits st sch i H Hi Hlim). eauto.
  - assert (Hlt : (i < n)%nat).
    { apply (inv_in_lt _ _ _ H). unfold whole. apply in_or_app; left; exact Hi. }
    assert (Hp := placeable_at st sch i H Hlt). unfold placeable in Hp.
    rewrite Hlim in Hp. apply Z.leb_le in Hp.
    unfold calculateResourceUsage. rewrite Hlim.
    rewrite filter_none.
    + simpl. destruct (0 <? limit (op (stmt_at (statements st) i))) eqn:Hz; eauto.
      apply Z.ltb_ge in Hz. lia.
    + intros x Hx. assert (Hr := horizon_ge _ _ Hx). unfold retire in Hr.
      unfold is_active.
      destruct (start_cycle x =? 0) eqn:Hs; [reflexivity|]. simpl.
      assert (Hb : (currentCycle st <? start_cycle x + latency (op x)) = false)
        by (apply Z.ltb_ge; lia).
      rewrite Hb, andb_false_r. reflexivity.
Qed.

(** At the end of an idle cycle past the horizon, with an empty queue, the
    smallest statement that is not ready becomes ready. *)
Lemma promotes_minimum : forall st,
    Inv dependencies usage_links stmts0 st [] ->
    pq_elems (readyQueue st) = [] ->
    (length (completedStatements st) < n)%nat ->
    horizon (statements st) <= currentCycle st ->
    pq_elems (readyQueue (end_of_cycle dependencies priority st [])) <> [].
Proof.
  intros st H Hempty Hlt Hhor.
  assert (Hc := Permutation_length (inv_part _ _ _ _ _ H)).
  unfold whole in Hc. rewrite Hempty, !length_app, length_seq in Hc. simpl in Hc.
  destruct (list_min_exists (notReady st)) as [m [Hm Hmin]].
  { intros Hnil. rewrite Hnil in Hc. simpl in Hc. lia. }
  assert (Hready : isReady dependencies (statements st) (completedStatements st)
                           (currentCycle st) m = true).
  { apply isReady_intro. intros j Hj.
    assert (Hjm := topological_spec m j Hj).
    assert (Hmn : (m < n)%nat).
    { apply (inv_in_lt _ _ _ H). unfold whole. rewrite !in_app_iff. tauto. }
    assert (Hjin : In j (whole st [])) by (apply (inv_lt_in _ _ _ H); lia).
    unfold whole in Hjin. rewrite Hempty, app_nil_r in Hjin. simpl in Hjin.
    apply in_app_or in Hjin. destruct Hjin as [Hjin|Hjin].
    { specialize (Hmin j Hjin). lia. }
    split; [exact Hjin|].
    assert (Hd := inv_done _ _ _ _ _ H j Hjin).
    assert (Hr : retire (stmt_at (statements st) j) <= horizon (statements st)).
    { apply horizon_ge. apply nth_In. rewrite (inv_length _ _ H). lia. }
    unfold retire in Hr.
    destruct (start_cycle (stmt_at (statements st) j) =? 0) eqn:Hs;
      [apply Z.eqb_eq in Hs; lia|]. lia. }
  unfold end_of_cycle.
  cbn [fold_left statements completedStatements notReady readyQueue
       delayByCycle currentCycle].
  intros Hnil.
  assert (Hin : In m (filter (isReady dependencies (statements st)
                                      (completedStatements st) (currentCycle st))
                             (notReady st) ++ pq_elems (readyQueue st))).
  { apply in_or_app; left. apply filter_In; split; assumption. }
  assert (Hp := pq_push_all (comparator priority (statements st))
                            (filter (isReady dependencies (statements st)
                                             (completedStatements st) (currentCycle st))
                                    (notReady st))
                            (readyQueue st)).
  rewrite Hnil in Hp. apply Permutation_nil in Hp. rewrite Hp in Hin. destruct Hin.
Qed.

Lemma list_loop_total : forall u mu st,
    Inv dependencies usage_links stmts0 st [] ->
    (n - length (completedStatements st) <= u)%nat ->
    (idle_measure st <= mu)%nat ->
    exists fuel st',
      list_loop time_period dependencies usage_links priority fuel st = Some st'.
Proof.
  induction u as [u IHu] using lt_wf_ind.
  induction mu as [mu IHmu] using lt_wf_ind.
  intros st H Hu Hmu.
  destruct (length (completedStatements st) <? length (statements st))%nat eqn:Hlt.
  2:{ exists 1%nat, st. simpl. rewrite Hlt. reflexivity. }
  assert (Hlt' := Hlt). apply Nat.ltb_lt in Hlt'. rewrite (inv_length _ _ H) in Hlt'.
  destruct (drain_total (S (length (pq_elems (readyQueue st)))) st [] H)
    as [st1 [sch1 Ed]]; [lia|].
  assert (H1 := drain_Inv _ _ _ _ _ H Ed).
  assert (H2 := Inv_end_of_cycle _ _ H1).
  destruct (drain_frame _ _ _ _ _ Ed) as [Hc [Hn [Hcur [ext [Hext Hsame]]]]].
  simpl in Hext. subst ext.
  assert (Hc2 : completedStatements (end_of_cycle dependencies priority st1 sch1)
                = completedStatements st ++ sch1).
  { unfold end_of_cycle.
    cbn [statements completedStatements notReady readyQueue delayByCycle currentCycle].
    rewrite (inv_commit _ _ H1), Hc. reflexivity. }
  assert (Hrest : exists fuel2 st',
             list_loop time_period dependencies usage_links priority fuel2
                       (end_of_cycle dependencies priority st1 sch1) = Some st').
  { destruct sch1 as [|a sch1].
    - destruct (Hsame eq_refl) as [Hs HP].
      apply (IHmu (idle_measure (end_of_cycle dependencies priority st1 []))).
      + unfold idle_measure at 1.
        cbn [end_of_cycle fold_left statements completedStatements notReady
             readyQueue delayByCycle currentCycle].
        rewrite Hs, Hcur.
        destruct (Z_lt_le_dec (currentCycle st) (horizon (statements st)))
          as [Hbefore|Hafter].
        * assert (Z.to_nat (horizon (statements st) - (currentCycle st + 1))
                  = (Z.to_nat (horizon (statements st) - currentCycle st) - 1)%nat)
            by lia.
          assert (1 <= Z.to_nat (horizon (statements st) - currentCycle st))%nat
            by lia.
          unfold idle_measure in Hmu.
          match goal with |- context [pq_elems ?q] => destruct (pq_elems q) end; lia.
        * assert (Hempty : pq_elems (readyQueue st) = []).
          { assert (Hdec : pq_elems (readyQueue st) = []
                           \/ pq_elems (readyQueue st) <> [])
              by (destruct (pq_elems (readyQueue st));
                  [left; reflexivity|right; discriminate]).
            destruct Hdec as [Hq|Hq]; [exact Hq|exfalso].
            destruct (drain_iter_first st [] H Hq Hafter) as [st' [i Eit]].
            destruct (drain_after_placing _ _ _ _ _ _ _ Ed Eit) as [ext Hext].
            simpl in Hext. discriminate. }
          assert (Hempty1 : pq_elems (readyQueue st1) = []).
          { rewrite Hempty in HP. apply Permutation_nil. symmetry; exact HP. }
          assert (Hne := promotes_minimum st1 H1 Hempty1).
          rewrite Hc, Hs, Hcur in Hne. specialize (Hne Hlt' Hafter).
          unfold end_of_cycle in Hne.
          cbn [fold_left statements completedStatements notReady readyQueue
               delayByCycle currentCycle] in Hne.
          rewrite Hs, Hcur in Hne.
          unfold idle_measure in Hmu. rewrite Hempty in Hmu.
          match goal with |- context [pq_elems ?q] => destruct (pq_elems q) end;
            [congruence|].
          assert (Z.to_nat (horizon (statements st) - (currentCycle st + 1)) = 0%nat)
            by lia.
          lia.
      + exact H2.
      + rewrite Hc2, app_nil_r. exact Hu.
      + lia.
    - apply (IHu (n - length (completedStatements
                                (end_of_cycle dependencies priority st1 (a :: sch1))))%nat)
        with (mu := idle_measure (end_of_cycle dependencies priority st1 (a :: sch1))).
      + rewrite Hc2, length_app. simpl. lia.
      + exact H2.
      + lia.
      + lia. }
  destruct Hrest as [fuel2 [st' El]].
  exists (S (Nat.max fuel2 (S (length (pq_elems (readyQueue st)))))), st'.
  simpl. rewrite Hlt.
  rewrite (drain_mono _ _ _ _ Ed) by lia.
  apply (list_loop_mono _ _ _ El). lia.
Qed.

Lemma scheduleByList_total :
  exists fuel r,
    scheduleByList fuel time_period dependencies usage_links stmts0 = Some r.
Proof.
  destruct (list_loop_total
              (n - length (completedStatements (list_init dependencies stmts0)))
              (idle_measure (list_init dependencies stmts0))
              (list_init dependencies stmts0) Inv_init) as [fuel [st E]]; auto.
  exists fuel. unfold scheduleByList. fold priority. rewrite E. eauto.
Qed.

End ListInvariant.

(** * The list scheduler: results *)

(** C2.  On a well-formed input, every read of the delay ledger that the
    list scheduler makes for a statement it has popped yields 0: an entry
    for a statement that is in the ready queue was written for a cycle
    before the current one.  So a combinational statement that is popped is
    placed in the current cycle if and only if its own delay fits the clock
    period, and the scheduler computes what the scheduler without a ledger
    computes. *)
Theorem ledger_inert :
  forall (PQ : PriorityQueue) (time_period : Q) (dependencies usage_links : vec2d)
         (stmts0 : list Stmt),
    wf_dfg stmts0 dependencies usage_links = true ->
    (forall st scheduled i q,
        reachable time_period dependencies usage_links stmts0 st scheduled ->
        pq_pop (comparator (map start_cycle stmts0) (statements st)) (readyQueue st)
        = Some (i, q) ->
        ledger_get (delayByCycle st) (currentCycle st) i = 0%Q)
    /\ (forall st scheduled c k v,
           reachable time_period dependencies usage_links stmts0 st scheduled ->
           In (c, k, v) (delayByCycle st) ->
           In k (pq_elems (readyQueue st)) ->
           c < currentCycle st)
    /\ (forall st scheduled i q,
           reachable time_period dependencies usage_links stmts0 st scheduled ->
           pq_pop (comparator (map start_cycle stmts0) (statements st)) (readyQueue st)
           = Some (i, q) ->
           limit (op (stmt_at (statements st) i)) < 0 ->
           (Qle_bool (delay (op (stmt_at (statements st) i))) time_period = true
            <-> drain_iter time_period usage_links (map start_cycle stmts0) st scheduled
                = Some (true, place_combinational usage_links st i q, scheduled ++ [i])))
    /\ (forall fuel,
           scheduleByList fuel time_period dependencies usage_links stmts0
           = scheduleByList_plain fuel time_period dependencies stmts0).
Proof.
  intros PQ T deps uses stmts0 Hwf.
  assert (Hzero : forall st sch i q,
             reachable T deps uses stmts0 st sch ->
             pq_pop (comparator (map start_cycle stmts0) (statements st)) (readyQueue st)
             = Some (i, q) ->
             ledger_get (delayByCycle st) (currentCycle st) i = 0%Q).
  { intros st sch i q R Epop.
    apply (ledger_read_zero deps uses stmts0 Hwf st sch i).
    + apply (reachable_Inv T deps uses stmts0); exact R.
    + rewrite (pq_pop_some _ _ _ _ Epop). left; reflexivity. }
  split; [exact Hzero|]. split; [|split].
  - intros st sch c k v R Hin Hk.
    assert (H := reachable_Inv T deps uses stmts0 st sch R).
    destruct (inv_ledger _ _ _ _ _ H Hwf c k v Hin) as [j [Hj [_ Hlt]]].
    destruct (inv_ready _ _ _ _ _ H k j Hk Hj) as [_ Hle]. lia.
  - intros st sch i q R Epop Hlim. unfold drain_iter.
    rewrite Epop, (Hzero st sch i q R Epop), Qle_bool_plus_0.
    apply Z.ltb_lt in Hlim. rewrite Hlim.
    destruct (Qle_bool (delay (op (stmt_at (statements st) i))) T).
    + split; reflexivity.
    + split; [discriminate|]. intros E. exfalso.
      assert (Hl : length sch = length (sch ++ [i])) by congruence.
      rewrite length_app in Hl. simpl in Hl. lia.
  - intros fuel. apply scheduleByList_plain_eq; exact Hwf.
Qed.

Lemma ledger_inert_witness :
  wf_dfg chain3 chain3_deps chain3_uses = true
  /\ forall fuel,
      scheduleByList (PQ := list_queue) fuel (1 # 2) chain3_deps chain3_uses chain3
      = scheduleByList_plain (PQ := list_queue) fuel (1 # 2) chain3_deps chain3.
Proof.
  split; [reflexivity|].
  apply (ledger_inert list_queue (1 # 2) chain3_deps chain3_uses chain3).
  reflexivity.
Defined.

(** C5.  Resource invariant of the final schedule: when the list scheduler
    returns, for every op kind [k] with [limit k >= 0] and every cycle [c],
    the number of statements of kind [k] whose busy interval
    [[start_cycle, start_cycle + latency)] contains [c] is at most
    [limit k]. *)
Theorem list_resource_bound :
  forall (PQ : PriorityQueue) (fuel : nat) (time_period : Q)
         (dependencies usage_links : vec2d) (stmts0 stmts' : list Stmt) (L : Z),
    scheduleByList fuel time_period dependencies usage_links stmts0 = Some (stmts', L) ->
    forall (k : Op) (c : Z), 0 <= limit k -> busy_count stmts' k c <= limit k.
Proof.
  intros PQ fuel T deps uses stmts0 stmts' L E k c Hk.
  destruct (scheduleByList_final T deps uses stmts0 fuel stmts' L E)
    as [st [Hs [H [Hall _]]]].
  assert (Hres := inv_res _ _ _ _ _ H k c Hk). rewrite Hs in Hres.
  unfold busy_count.
  rewrite (filter_ext_in (busy k c) (active_op k c)); [exact Hres|].
  intros x Hx. unfold active_op.
  apply In_nth with (d := dStmt) in Hx. destruct Hx as [i [Hi <-]].
  rewrite <- Hs in Hi |- *. rewrite (inv_length _ _ _ _ _ H) in Hi.
  assert (Hd := inv_done _ _ _ _ _ H i (Hall i Hi)). unfold stmt_at in Hd.
  destruct (start_cycle (nth i (statements st) dStmt) =? 0) eqn:Hz;
    [apply Z.eqb_eq in Hz; lia|reflexivity].
Qed.

Lemma list_resource_bound_witness :
  scheduleByList (PQ := list_queue) 10 1 no_edges4 no_edges4 mul4
  = Some ([mkStmt 0 mul_op 1; mkStmt 1 mul_op 1; mkStmt 2 mul_op 2; mkStmt 3 mul_op 2], 2)
  /\ busy_count [mkStmt 0 mul_op 1; mkStmt 1 mul_op 1; mkStmt 2 mul_op 2; mkStmt 3 mul_op 2]
                mul_op 1 <= limit mul_op.
Proof.
  split; [reflexivity|].
  apply (list_resource_bound list_queue 10 1 no_edges4 no_edges4 mul4
           [mkStmt 0 mul_op 1; mkStmt 1 mul_op 1; mkStmt 2 mul_op 2; mkStmt 3 mul_op 2] 2).
  - reflexivity.
  - simpl; lia.
Defined.

(** A successor starts no earlier than [max(latency, 1)] cycles after each
    of its predecessors: the readiness test of lines 243-244 admits it to
    the queue only for the cycle after the one in which that holds. *)
Lemma list_precedence_strict :
  forall (PQ : PriorityQueue) (fuel : nat) (time_period : Q)
         (dependencies usage_links : vec2d) (stmts0 stmts' : list Stmt) (L : Z),
    scheduleByList fuel time_period dependencies usage_links stmts0 = Some (stmts', L) ->
    forall i j,
      (i < length stmts0)%nat ->
      In j (row dependencies i) ->
      start_cycle (stmt_at stmts' j) + Z.max (latency (op (stmt_at stmts' j))) 1
      <= start_cycle (stmt_at stmts' i).
Proof.
  intros PQ fuel T deps uses stmts0 stmts' L E i j Hi Hj.
  destruct (scheduleByList_final T deps uses stmts0 fuel stmts' L E)
    as [st [Hs [H [Hall _]]]].
  rewrite <- Hs.
  apply (proj2 (inv_prec _ _ _ _ _ H i j
                  ltac:(rewrite app_nil_r; apply Hall; exact Hi) Hj)).
Qed.

(** C6.  Precedence invariant of the final schedule: when the list
    scheduler returns, for every statement [i] and every dependency edge
    [j -> i],
    [start_cycle[i] >= start_cycle[j] + max(latency[j], 1) - [latency[j] = 0]]. *)
Theorem list_precedence :
  forall (PQ : PriorityQueue) (fuel : nat) (time_period : Q)
         (dependencies usage_links : vec2d) (stmts0 stmts' : list Stmt) (L : Z),
    scheduleByList fuel time_period dependencies usage_links stmts0 = Some (stmts', L) ->
    forall i j,
      (i < length stmts0)%nat ->
      In j (row dependencies i) ->
      start_cycle (stmt_at stmts' i)
      >= start_cycle (stmt_at stmts' j) + Z.max (latency (op (stmt_at stmts' j))) 1
         - (if latency (op (stmt_at stmts' j)) =? 0 then 1 else 0).
Proof.
  intros PQ fuel T deps uses stmts0 stmts' L E i j Hi Hj.
  assert (H := list_precedence_strict PQ fuel T deps uses stmts0 stmts' L E i j Hi Hj).
  destruct (latency (op (stmt_at stmts' j)) =? 0); lia.
Qed.

Lemma list_precedence_witness :
  scheduleByList (PQ := list_queue) 10 1 chain3_deps chain3_uses chain3
  = Some (chain3_result, 3)
  /\ start_cycle (stmt_at chain3_result 2)
     >= start_cycle (stmt_at chain3_result 1)
        + Z.max (latency (op (stmt_at chain3_result 1))) 1
        - (if latency (op (stmt_at chain3_result 1)) =? 0 then 1 else 0).
Proof.
  split; [reflexivity|].
  apply (list_precedence list_queue 10 1 chain3_deps chain3_uses chain3
                         chain3_result 3).
  - reflexivity.
  - simpl; lia.
  - simpl; auto.
Defined.

(** ** Termination and its failure *)

(** The inner loop pops that statement, finds that it does not fit, pushes
    it back and pops it again: whatever the queue implementation, no amount
    of fuel lets the loop end. *)
Lemma drain_spins :
  forall (PQ : PriorityQueue) (priority : list Z) (fuel : nat) (st : LState),
    pq_elems (readyQueue st) = [0%nat] ->
    statements st = slow1 ->
    delayByCycle st = [] ->
    drain 1 [[]] priority fuel st [] = None.
Proof.
  intros PQ priority fuel; induction fuel as [|fuel IH]; intros st Hq Hs Hl;
    [reflexivity|].
  simpl. unfold drain_iter.
  destruct (pq_pop_single (comparator priority (statements st)) _ _ Hq)
    as [q [Hpop Hq']].
  rewrite Hpop, Hs, Hl. simpl.
  apply IH; simpl; auto.
  apply pq_push_single; exact Hq'.
Qed.

(** C4, as stated, fails: on a canonical one-statement graph the list
    scheduler never returns. *)
Lemma list_scheduler_spins :
  wf_dfg slow1 [[]] [[]] = true
  /\ topological [[]] = true
  /\ forall (PQ : PriorityQueue) (fuel : nat),
      scheduleByList fuel 1 [[]] [[]] slow1 = None.
Proof.
  split; [reflexivity|]. split; [reflexivity|].
  intros PQ fuel. unfold scheduleByList.
  destruct fuel as [|fuel]; [reflexivity|]. simpl.
  rewrite drain_spins; auto.
  simpl. apply pq_push_single. apply pq_empty_elems.
Qed.

(** C4, amended.  For a well-formed graph in topological order in which
    every combinational statement's own delay fits the clock period and
    every resource-limited op has at least one unit, the list scheduler
    returns. *)
Theorem list_scheduler_terminates :
  forall (PQ : PriorityQueue) (time_period : Q) (dependencies usage_links : vec2d)
         (stmts0 : list Stmt),
    wf_dfg stmts0 dependencies usage_links = true ->
    topological dependencies = true ->
    schedulable time_period stmts0 = true ->
    exists fuel r,
      scheduleByList fuel time_period dependencies usage_links stmts0 = Some r.
Proof.
  intros PQ T deps uses stmts0 Hwf Htopo Hsched.
  apply scheduleByList_total; assumption.
Qed.

Lemma list_scheduler_terminates_witness :
  wf_dfg chain3 chain3_deps chain3_uses = true
  /\ topological chain3_deps = true
  /\ schedulable (1 # 2) chain3 = true
  /\ exists fuel r,
      scheduleByList (PQ := list_queue) fuel (1 # 2) chain3_deps chain3_uses chain3
      = Some r.
Proof.
  split; [reflexivity|]. split; [reflexivity|]. split; [reflexivity|].
  apply (list_scheduler_terminates list_queue (1 # 2) chain3_deps chain3_uses chain3);
    reflexivity.
Defined.

(** ** Scenario 3: the combinational chain

    With one statement in the queue, a cycle of the outer loop pops it,
    places it, finds the queue empty and ends the cycle; this holds for
    every implementation of the queue. *)

Lemma cycle_single :
  forall (PQ : PriorityQueue) (T : Q) (deps uses : vec2d) (prio : list Z)
         (fuel : nat) (st : LState) (i : nat),
    pq_elems (readyQueue st) = [i] ->
    (length (completedStatements st) <? length (statements st))%nat = true ->
    (limit (op (stmt_at (statements st) i)) <? 0) = true ->
    Qle_bool (delay (op (stmt_at (statements st) i))
              + ledger_get (delayByCycle st) (currentCycle st) i) T = true ->
    exists q,
      pq_elems q = []
      /\ list_loop T deps uses prio (S (S (S fuel))) st
         = list_loop T deps uses prio (S (S fuel))
                     (end_of_cycle deps prio (place_combinational uses st i q) [i]).
Proof.
  intros PQ T deps uses prio fuel st i Hq Hlen Hlim Hfit.
  destruct (pq_pop_single (comparator prio (statements st)) _ _ Hq) as [q [Hpop Hq']].
  exists q. split; [exact Hq'|].
  cbn [list_loop]. rewrite Hlen.
  cbn [drain]. unfold drain_iter at 1. rewrite Hpop, Hlim, Hfit.
  unfold drain_iter at 1.
  cbn [place_combinational readyQueue statements].
  rewrite (pq_pop_empty _ _ Hq'). reflexivity.
Qed.

Lemma cycle_single_physical :
  forall (PQ : PriorityQueue) (T : Q) (deps uses : vec2d) (prio : list Z)
         (fuel : nat) (st : LState) (i : nat),
    pq_elems (readyQueue st) = [i] ->
    (length (completedStatements st) <? length (statements st))%nat = true ->
    (limit (op (stmt_at (statements st) i)) <? 0) = false ->
    (calculateResourceUsage (statements st) (currentCycle st)
                            (op (stmt_at (statements st) i))
     <? limit (op (stmt_at (statements st) i))) = true ->
    exists q,
      pq_elems q = []
      /\ list_loop T deps uses prio (S (S (S fuel))) st
         = list_loop T deps uses prio (S (S fuel))
                     (end_of_cycle deps prio (place_physical uses st i q) [i]).
Proof.
  intros PQ T deps uses prio fuel st i Hq Hlen Hlim Hfree.
  destruct (pq_pop_single (comparator prio (statements st)) _ _ Hq) as [q [Hpop Hq']].
  exists q. split; [exact Hq'|].
  cbn [list_loop]. rewrite Hlen.
  cbn [drain]. unfold drain_iter at 1. rewrite Hpop, Hlim, Hfree.
  unfold drain_iter at 1.
  cbn [place_physical readyQueue statements].
  rewrite (pq_pop_empty _ _ Hq'). reflexivity.
Qed.

Ltac queue_single :=
  cbn [readyQueue end_of_cycle list_init];
  match goal with
  | |- pq_elems (fold_left _ ?l _) = _ =>
      let l' := eval vm_compute in l in change l with l'
  end;
  cbn [fold_left]; apply pq_push_single;
  first [assumption | apply pq_empty_elems].

Ltac run_cycle lem f i q Hq :=
  match goal with
  | |- context [@list_loop ?PQ ?T ?deps ?uses ?prio _ ?st] =>
      let E := fresh "E" in
      destruct (lem PQ T deps uses prio f st i) as [q [Hq E]];
      [queue_single | vm_compute; reflexivity | vm_compute; reflexivity
       | vm_compute; reflexivity | rewrite E; clear E]
  end.

Ltac leave_loop :=
  cbn [list_loop];
  match goal with
  | |- context [(?a <? ?b)%nat] =>
      let v := eval vm_compute in (a <? b)%nat in change (a <? b)%nat with v
  end;
  cbv iota;
  match goal with
  | |- context [statements ?st] =>
      let v := eval vm_compute in (statements st) in change (statements st) with v
  end.

(** Evaluates the three passes that come before the list scheduler. *)
Ltac run_passes :=
  unfold schedule;
  match goal with
  | |- context [reorderToTopological ?f ?g ?d ?u] =>
      let v := eval vm_compute in (reorderToTopological f g d u) in
      change (reorderToTopological f g d u) with v
  end;
  cbv iota beta;
  match goal with
  | |- context [scheduleASAP ?g ?d] =>
      let v := eval vm_compute in (scheduleASAP g d) in
      change (scheduleASAP g d) with v
  end;
  cbv iota beta;
  match goal with
  | |- context [scheduleALAP ?g ?u ?l] =>
      let v := eval vm_compute in (scheduleALAP g u l) in
      change (scheduleALAP g u l) with v
  end;
  cbv iota beta;
  unfold scheduleByList.

Lemma chain_run_1 : forall PQ : PriorityQueue,
    schedule 10 1 chain3_deps chain3_uses chain3 = Done (chain3_result, 3).
Proof.
  intros PQ. run_passes.
  run_cycle cycle_single 7%nat 0%nat q1 Hq1.
  run_cycle cycle_single 6%nat 1%nat q2 Hq2.
  run_cycle cycle_single 5%nat 2%nat q3 Hq3.
  leave_loop. reflexivity.
Qed.

Lemma chain_run_half : forall PQ : PriorityQueue,
    schedule 10 (1 # 2) chain3_deps chain3_uses chain3 = Done (chain3_result, 3).
Proof.
  intros PQ. run_passes.
  run_cycle cycle_single 7%nat 0%nat q1 Hq1.
  run_cycle cycle_single 6%nat 1%nat q2 Hq2.
  run_cycle cycle_single 5%nat 2%nat q3 Hq3.
  leave_loop. reflexivity.
Qed.

(** C1, as stated, fails: neither clock period puts two statements of the
    chain in one cycle, and the latency is neither 1 nor 2. *)
Lemma chain_not_chained :
  (forall PQ : PriorityQueue,
      exists stmts L,
        schedule 10 1 chain3_deps chain3_uses chain3 = Done (stmts, L)
        /\ map start_cycle stmts <> [1; 1; 1] /\ L <> 1)
  /\ (forall PQ : PriorityQueue,
         exists stmts L,
           schedule 10 (1 # 2) chain3_deps chain3_uses chain3 = Done (stmts, L)
           /\ map start_cycle stmts <> [1; 1; 2] /\ L <> 2).
Proof.
  split; intros PQ; exists chain3_result, 3.
  - rewrite chain_run_1. repeat split; discriminate.
  - rewrite chain_run_half. repeat split; discriminate.
Qed.

(** C1, amended.  For the chain [A -> B -> C] of combinational statements
    with delay 0.3, the schedule places [A], [B] and [C] in cycles 1, 2 and
    3 and the final latency is 3, with clock period 1.0 as with 0.5. *)
Theorem chain_one_per_cycle :
  forall PQ : PriorityQueue,
    schedule 10 1 chain3_deps chain3_uses chain3
    = Done ([mkStmt 0 add_op 1; mkStmt 1 add_op 2; mkStmt 2 add_op 3], 3)
    /\ schedule 10 (1 # 2) chain3_deps chain3_uses chain3
       = Done ([mkStmt 0 add_op 1; mkStmt 1 add_op 2; mkStmt 2 add_op 3], 3).
Proof.
  intros PQ. split; [apply chain_run_1|apply chain_run_half].
Qed.

(** ** Configurations the specification calls invalid *)

(** C9, as stated, fails: with clock period 0, and with a delay above the
    clock period, [schedule] returns a schedule. *)
Lemma no_invalid_config :
  (forall PQ : PriorityQueue,
      schedule 10 0 [[]] [[]] [mkStmt 0 wire_op 0] = Done ([mkStmt 0 wire_op 1], 1))
  /\ (forall PQ : PriorityQueue,
         schedule 10 1 [[]] [[]] [mkStmt 0 big_op 0] = Done ([mkStmt 0 big_op 1], 1)).
Proof.
  split; intros PQ; run_passes.
  - run_cycle cycle_single 7%nat 0%nat q1 Hq1.
    leave_loop. reflexivity.
  - run_cycle cycle_single_physical 7%nat 0%nat q1 Hq1.
    leave_loop. reflexivity.
Qed.

Lemma validate_idx : forall g1 g2 d,
    map idx g1 = map idx g2 ->
    validateTopologicalOrder g1 d = validateTopologicalOrder g2 d.
Proof.
  induction g1 as [|a g1 IH]; intros [|b g2] d H; simpl in H; try discriminate;
    [reflexivity|].
  injection H as Hi Ht. unfold validateTopologicalOrder; simpl.
  rewrite Hi. f_equal. apply IH; exact Ht.
Qed.

Lemma reorder_throws_idx : forall fuel g1 g2 d u msg,
    map idx g1 = map idx g2 ->
    reorderToTopological fuel g1 d u = Throw msg ->
    msg = cycle_msg
    /\ validateTopologicalOrder g1 d = false
    /\ reorderToTopological fuel g2 d u = Throw msg.
Proof.
  intros fuel g1 g2 d u msg H. unfold reorderToTopological.
  rewrite <- (validate_idx g1 g2 d H).
  assert (Hlen : length g2 = length g1)
    by (rewrite <- (length_map idx g2), <- H; apply length_map).
  rewrite Hlen.
  destruct (validateTopologicalOrder g1 d); [discriminate|].
  destruct (kahn _ _ _ _ _) as [order|]; [|discriminate].
  destruct (length order <? length g1)%nat; [|discriminate].
  intros E; injection E as <-. auto.
Qed.

Lemma schedule_throws : forall (PQ : PriorityQueue) fuel T d u g msg,
    schedule fuel T d u g = Throw msg <-> reorderToTopological fuel g d u = Throw msg.
Proof.
  intros PQ fuel T d u g msg. unfold schedule.
  destruct (reorderToTopological fuel g d u) as [[[s d1] u1]|m|].
  - destruct (scheduleASAP s d1) as [s1 l1].
    destruct (scheduleALAP s1 u1 l1) as [s2 l2].
    destruct (scheduleByList fuel T d1 u1 s2); split; discriminate.
  - split; intros E; injection E as ->; reflexivity.
  - split; discriminate.
Qed.

(** C9, amended.  [schedule] checks neither the clock period nor any delay:
    the one error it lets through to its caller is the [runtime_error] of
    the canonicalizer, thrown for a graph that fails the order check and
    that Kahn's algorithm does not exhaust; the same error is thrown
    whatever the clock period and whatever the ops of the statements. *)
Theorem schedule_throws_only_cycle :
  forall (PQ : PriorityQueue) (fuel : nat) (cycleTime cycleTime' : Q)
         (deps0 uses0 : vec2d) (graph graph' : list Stmt) (msg : string),
    map idx graph = map idx graph' ->
    schedule fuel cycleTime deps0 uses0 graph = Throw msg ->
    msg = cycle_msg
    /\ validateTopologicalOrder graph deps0 = false
    /\ schedule fuel cycleTime' deps0 uses0 graph' = Throw msg.
Proof.
  intros PQ fuel T T' d u g g' msg H E.
  apply schedule_throws in E.
  destruct (reorder_throws_idx fuel g g' d u msg H E) as [Hm [Hv E']].
  split; [exact Hm|]. split; [exact Hv|].
  apply schedule_throws; exact E'.
Qed.

Lemma schedule_throws_only_cycle_witness :
  map idx cyclic2 = map idx cyclic2_slow
  /\ schedule (PQ := list_queue) 10 1 cyclic2_edges cyclic2_edges cyclic2
     = Throw cycle_msg
  /\ schedule (PQ := list_queue) 10 0 cyclic2_edges cyclic2_edges cyclic2_slow
     = Throw cycle_msg.
Proof.
  split; [reflexivity|]. split; [reflexivity|].
  apply (schedule_throws_only_cycle list_queue 10 1 0 cyclic2_edges cyclic2_edges
                                    cyclic2 cyclic2_slow cycle_msg);
    reflexivity.
Defined.

(** ** Determinism *)





(** The passes write [start_cycle] only. *)
Lemma asap_loop_static : forall d l ss m,
    map static (fst (fold_left (asap_step d) l (ss, m))) = map static ss.
Proof.
  intros d l; induction l as [|i l IH]; intros ss m; [reflexivity|].
  cbn [fold_left]. destruct (asap_step d (ss, m) i) as [ss' m'] eqn:E.
  rewrite (IH ss' m'). unfold asap_step in E. injection E as <- _.
  destruct (row d (idx (stmt_at ss i))) as [|p ps]; [apply static_upd_const|].
  generalize (p :: ps) ss. intros ds; induction ds as [|a ds IHd]; intros cur;
    [reflexivity|].
  simpl. rewrite IHd. unfold asap_pred. apply static_upd_start.
Qed.

Lemma asap_static_kept : forall stmts d,
    map static (fst (scheduleASAP stmts d)) = map static stmts.
Proof.
  intros stmts d. unfold scheduleASAP. rewrite asap_loop_static. apply static_reset.
Qed.

Lemma alap_loop_static : forall u a l ss m,
    map static (fst (fold_left (alap_step u a) l (ss, m))) = map static ss.
Proof.
  intros u a l; induction l as [|i l IH]; intros ss m; [reflexivity|].
  cbn [fold_left]. destruct (alap_step u a (ss, m) i) as [ss' m'] eqn:E.
  rewrite (IH ss' m'). unfold alap_step in E.
  destruct (row u (idx (stmt_at ss i))); injection E as <- _;
    apply static_upd_const.
Qed.

Lemma alap_static_kept : forall stmts u l,
    map static (fst (scheduleALAP stmts u l)) = map static stmts.
Proof.
  intros stmts u l. unfold scheduleALAP.
  assert (Hs := alap_loop_static u l (rev (seq 0 (length stmts))) (reset_starts stmts) l).
  destruct (fold_left (alap_step u l) (rev (seq 0 (length stmts)))
                      (reset_starts stmts, l)) as [ss e].
  cbn [fst] in *. unfold alap_shift. rewrite map_map.
  change (map (fun s => static (with_start (start_cycle s - (e - 1)) s)) ss)
    with (map static ss).
  rewrite Hs. apply static_reset.
Qed.






(** ** The canonicalizer on a graph that is out of order *)

(** Whenever the sort runs, the neighbour lists of the result are rows of
    the input, moved to their new position with their entries unchanged:
    [reorderedStatements[dep]->idx] is [dep]. *)
Lemma reorder_rows_untranslated : forall fuel g d u g' d' u',
    validateTopologicalOrder g d = false ->
    in_range (length g) d = true ->
    in_range (length g) u = true ->
    reorderToTopological fuel g d u = Done (g', d', u') ->
    exists sortedOrder,
      forall i, (i < length g)%nat ->
                stmt_at g' i = with_idx i (stmt_at g (nth i sortedOrder 0%nat))
                /\ row d' i = row d (nth i sortedOrder 0%nat)
                /\ row u' i = row u (nth i sortedOrder 0%nat).
Proof.
  intros fuel g d u g' d' u' Hv Hd Hu E. unfold reorderToTopological in E.
  rewrite Hv in E.
  destruct (kahn _ _ _ _ _) as [order|]; [|discriminate].
  destruct (length order <? length g)%nat; [discriminate|].
  cbv zeta in E. injection E as <- <- <-.
  exists order. intros i Hi.
  assert (Hnth : forall (B : Type) (f : nat -> B) (dflt : B) k,
             (k < length g)%nat ->
             nth k (map f (seq 0 (length g))) dflt = f k).
  { intros B f dflt k Hk.
    rewrite (nth_indep _ dflt (f 0%nat)) by (rewrite length_map, length_seq; exact Hk).
    rewrite (map_nth f (seq 0 (length g)) 0%nat), seq_nth by exact Hk. reflexivity. }
  assert (Hrow : forall v, in_range (length g) v = true ->
             map (fun old =>
                    idx (stmt_at (map (fun i0 => with_idx i0
                                         (stmt_at g (nth i0 order 0%nat)))
                                      (seq 0 (length g))) old))
                 (row v (nth i order 0%nat))
             = row v (nth i order 0%nat)).
  { intros v Hr. destruct (in_range_spec _ _ Hr) as [_ Hin].
    rewrite <- (map_id (row v (nth i order 0%nat))) at 2.
    apply map_ext_in. intros old Hold. destruct (Hin _ _ Hold) as [_ Hlt].
    unfold stmt_at at 1. rewrite Hnth by exact Hlt. reflexivity. }
  split; [|split].
  - unfold stmt_at at 1. apply Hnth; exact Hi.
  - unfold row at 1. rewrite Hnth by exact Hi. apply Hrow; exact Hd.
  - unfold row at 1. rewrite Hnth by exact Hi. apply Hrow; exact Hu.
Qed.

(** C7 fails on the code.  The statements are put in the order 0, 2, 1, but
    the rows of the adjacency vectors keep the old indices of their
    entries: the statement that moved to index 2 is left depending on
    index 2, and the result is not in topological order. *)
Theorem reorder_keeps_old_indices :
  wf_dfg unordered3 unordered3_deps unordered3_uses = true
  /\ reorderToTopological 10 unordered3 unordered3_deps unordered3_uses
     = Done ([mkStmt 0 op_a 0; mkStmt 1 op_c 0; mkStmt 2 op_b 0],
             [[]; []; [2%nat]], [[]; [1%nat]; []])
  /\ topological [[]; []; [2%nat]] = false.
Proof.
  repeat split; reflexivity.
Qed.

(** ** The ALAP pass on a multi-cycle sink *)

(** C3 fails on the code.  A single statement of latency 3: the ASAP
    latency is 3, the ALAP start of the sink is 3 - 2 = 1, but the minimum
    that is tracked stays at its initial value 3, so the shift by 2 moves
    the only statement to cycle -1. *)
Theorem alap_sink_below_one :
  scheduleASAP [mkStmt 0 div_op 0] [[]] = ([mkStmt 0 div_op 1], 3)
  /\ scheduleALAP [mkStmt 0 div_op 1] [[]] 3 = ([mkStmt 0 div_op (-1)], 1).
Proof.
  split; reflexivity.
Qed.

(** * The ASAP pass *)

Lemma fold_max_ge_init : forall l a, a <= fold_left Z.max l a.
Proof.
  induction l as [|x l IH]; intros a; simpl; [lia|].
  specialize (IH (Z.max a x)). lia.
Qed.

Lemma fold_max_ge_in : forall l a x, In x l -> x <= fold_left Z.max l a.
Proof.
  induction l as [|y l IH]; intros a x H; [destruct H|]. simpl.
  destruct H as [->|H]; [|apply IH; exact H].
  assert (Hi := fold_max_ge_init l (Z.max a x)). lia.
Qed.

Lemma Zmax_list_ge : forall l x, In x l -> x <= Zmax_list l.
Proof.
  intros [|y l] x H; [destruct H|]. simpl.
  destruct H as [->|H]; [apply fold_max_ge_init|apply fold_max_ge_in; exact H].
Qed.

Lemma fold_max_from_0 : forall l,
    (forall x, In x l -> 0 <= x) -> fold_left Z.max l 0 = Zmax_list l.
Proof.
  intros [|x l] H; [reflexivity|]. simpl.
  rewrite Z.max_r by (apply H; left; reflexivity). reflexivity.
Qed.

Lemma fold_max_map : forall (A : Type) (f : A -> Z) l a,
    fold_left (fun acc p => Z.max acc (f p)) l a = fold_left Z.max (map f l) a.
Proof.
  intros A f l; induction l as [|x l IH]; intros a; simpl; auto.
Qed.

Lemma fold_left_ext_in : forall (A B : Type) (f g : A -> B -> A) l a,
    (forall x acc, In x l -> f acc x = g acc x) ->
    fold_left f l a = fold_left g l a.
Proof.
  intros A B f g l; induction l as [|x l IH]; intros a H; simpl; auto.
  rewrite (H x a (or_introl eq_refl)). apply IH.
  intros y acc Hy; apply H; right; exact Hy.
Qed.

Lemma map_seq_nth : forall (A B : Type) (f : A -> B) (l : list A) d,
    map (fun i => f (nth i l d)) (seq 0 (length l)) = map f l.
Proof.
  intros A B f l d. apply nth_ext with (d := f d) (d' := f d).
  - rewrite !length_map, length_seq. reflexivity.
  - intros k Hk. rewrite length_map, length_seq in Hk.
    rewrite (map_nth f l d).
    rewrite (nth_indep _ (f d) (f (nth 0 l d)))
      by (rewrite length_map, length_seq; exact Hk).
    rewrite (map_nth (fun i => f (nth i l d)) (seq 0 (length l)) 0%nat).
    rewrite seq_nth by exact Hk. reflexivity.
Qed.

Lemma completion_ge_start : forall s, start_cycle s <= completion s.
Proof.
  intros s; unfold completion; lia.
Qed.

Section AsapCorrect.

Variable stmts : list Stmt.
Variable dependencies : vec2d.
Hypothesis Hidx : indexed stmts = true.
Hypothesis Htopo : topological dependencies = true.

Local Abbreviation n := (length stmts).

Local Abbreviation startIn ss i := (start_cycle (stmt_at ss i)).

(** The loop over the predecessors of statement [k] changes position [k]
    only, and leaves there the maximum over the predecessors read so far. *)
Lemma asap_preds_spec : forall k ds cur,
    (k < length cur)%nat ->
    (forall p, In p ds -> p <> k) ->
    map static (fold_left (asap_pred k) ds cur) = map static cur
    /\ (forall j, j <> k -> stmt_at (fold_left (asap_pred k) ds cur) j = stmt_at cur j)
    /\ startIn (fold_left (asap_pred k) ds cur) k
       = fold_left (fun acc p => Z.max acc (completion (stmt_at cur p) + 1))
                   ds (startIn cur k).
Proof.
  intros k ds; induction ds as [|a ds IH]; intros cur Hk Hne; simpl.
  - repeat split; auto.
  - assert (Hlen : (k < length (asap_pred k cur a))%nat)
      by (unfold asap_pred; rewrite upd_length; exact Hk).
    destruct (IH (asap_pred k cur a) Hlen
                 (fun p Hp => Hne p (or_intror Hp))) as [Hs [Hf Hv]].
    assert (Hother : forall j, j <> k ->
                               stmt_at (asap_pred k cur a) j = stmt_at cur j).
    { intros j Hj. unfold asap_pred. apply stmt_at_upd_other. congruence. }
    split; [|split].
    + rewrite Hs. unfold asap_pred. apply static_upd_start.
    + intros j Hj. rewrite Hf by exact Hj. apply Hother; exact Hj.
    + rewrite Hv. unfold asap_pred at 2. rewrite stmt_at_upd_same by exact Hk.
      cbn [with_start start_cycle].
      apply fold_left_ext_in. intros p acc Hp.
      rewrite Hother by (apply Hne; right; exact Hp). reflexivity.
Qed.

Lemma deps_below : forall i j, In j (row dependencies i) -> (j < i)%nat.
Proof.
  intros i j Hj. unfold topological in Htopo. rewrite forallb_forall in Htopo.
  assert (Hi : (i < length dependencies)%nat).
  { destruct (Nat.lt_ge_cases i (length dependencies)) as [Hi|Hi]; auto.
    unfold row in Hj. rewrite nth_overflow in Hj by exact Hi. destruct Hj. }
  assert (Hs : In i (seq 0 (length dependencies))) by (apply in_seq; lia).
  specialize (Htopo i Hs). rewrite forallb_forall in Htopo.
  apply Nat.ltb_lt. apply Htopo; exact Hj.
Qed.

Lemma asap_step_inv : forall k ss m,
    (k < n)%nat -> AsapInv dependencies stmts k ss m ->
    AsapInv dependencies stmts (S k) (fst (asap_step dependencies (ss, m) k))
            (snd (asap_step dependencies (ss, m) k)).
Proof.
  intros k ss m Hk H.
  assert (Hlen : length ss = n) by (apply static_length; apply (asap_static _ _ _ _ _ H)).
  assert (Hik : idx (stmt_at ss k) = k).
  { rewrite (static_idx ss stmts k (asap_static _ _ _ _ _ H)).
    apply indexed_spec; [exact Hidx|exact Hk]. }
  unfold asap_step. rewrite Hik.
  set (ss' := match row dependencies k with
              | [] => upd k (with_start 1) ss
              | _ :: _ => fold_left (asap_pred k) (row dependencies k) ss
              end).
  cbn [fst snd].
  assert (Hss' : map static ss' = map static ss
                 /\ (forall j, j <> k -> stmt_at ss' j = stmt_at ss j)
                 /\ (row dependencies k = [] -> startIn ss' k = 1)
                 /\ (row dependencies k <> [] ->
                     startIn ss' k
                     = Zmax_list (map (fun j => completion (stmt_at ss j) + 1)
                                      (row dependencies k)))).
  { unfold ss'. destruct (row dependencies k) as [|d ds] eqn:Hrow.
    - split; [apply static_upd_const|]. split.
      + intros j Hj. apply stmt_at_upd_other. congruence.
      + split; [|congruence]. intros _.
        rewrite stmt_at_upd_same by lia. reflexivity.
    - assert (Hne : forall p, In p (d :: ds) -> p <> k).
      { intros p Hp. rewrite <- Hrow in Hp. apply deps_below in Hp. lia. }
      destruct (asap_preds_spec k (d :: ds) ss ltac:(lia) Hne) as [Hs [Hf Hv]].
      split; [exact Hs|]. split; [exact Hf|]. split; [discriminate|]. intros _.
      rewrite Hv, (asap_todo _ _ _ _ _ H k (Nat.le_refl k)), fold_max_map.
      apply fold_max_from_0. intros x Hx. apply in_map_iff in Hx.
      destruct Hx as [p [<- Hp]].
      assert (Hpk : (p < k)%nat) by (apply deps_below; rewrite Hrow; exact Hp).
      assert (Hp1 := asap_pos _ _ _ _ _ H p Hpk).
      assert (Hc := completion_ge_start (stmt_at ss p)). lia. }
  destruct Hss' as [Hs [Hf [Hsrc Hmax]]].
  assert (Hdeps : forall i, (i <= k)%nat ->
                   map (fun j => completion (stmt_at ss' j) + 1) (row dependencies i)
                   = map (fun j => completion (stmt_at ss j) + 1) (row dependencies i)).
  { intros i Hi. apply map_ext_in. intros j Hj. apply deps_below in Hj.
    rewrite Hf by lia. reflexivity. }
  assert (Hk1 : 1 <= startIn ss' k).
  { destruct (row dependencies k) as [|d ds] eqn:Hrow.
    - rewrite Hsrc by reflexivity. lia.
    - rewrite Hmax by discriminate.
      assert (Hd : (d < k)%nat) by (apply deps_below; rewrite Hrow; left; reflexivity).
      assert (Hd1 := asap_pos _ _ _ _ _ H d Hd).
      assert (Hc := completion_ge_start (stmt_at ss d)).
      assert (Hge := Zmax_list_ge
                       (map (fun j => completion (stmt_at ss j) + 1) (d :: ds))
                       (completion (stmt_at ss d) + 1) (or_introl eq_refl)).
      lia. }
  constructor.
  - rewrite Hs. apply (asap_static _ _ _ _ _ H).
  - intros i Hi. rewrite Hf by lia. apply (asap_todo _ _ _ _ _ H). lia.
  - intros i Hi. destruct (Nat.eq_dec i k) as [->|Hne]; [exact Hk1|].
    rewrite Hf by exact Hne. apply (asap_pos _ _ _ _ _ H). lia.
  - intros i Hi Hrow. destruct (Nat.eq_dec i k) as [->|Hne]; [apply Hsrc; exact Hrow|].
    rewrite Hf by exact Hne. apply (asap_src _ _ _ _ _ H); [lia|exact Hrow].
  - intros i Hi Hrow. rewrite Hdeps by lia.
    destruct (Nat.eq_dec i k) as [->|Hne]; [apply Hmax; exact Hrow|].
    rewrite Hf by exact Hne. apply (asap_max _ _ _ _ _ H); [lia|exact Hrow].
  - rewrite seq_S, map_app, fold_left_app. simpl.
    rewrite (asap_lat _ _ _ _ _ H). f_equal. f_equal.
    apply map_ext_in. intros i Hi. apply in_seq in Hi.
    rewrite Hf by lia. reflexivity.
Qed.

Lemma asap_loop_inv : forall k,
    (k <= n)%nat ->
    AsapInv dependencies stmts k (fst (fold_left (asap_step dependencies) (seq 0 k) (reset_starts stmts, 0)))
            (snd (fold_left (asap_step dependencies) (seq 0 k) (reset_starts stmts, 0))).
Proof.
  induction k as [|k IH]; intros Hk.
  - simpl. constructor; try (intros; lia); try reflexivity.
    + apply static_reset.
    + intros i _. apply start_reset.
  - rewrite seq_S, fold_left_app. simpl.
    specialize (IH ltac:(lia)).
    destruct (fold_left (asap_step dependencies) (seq 0 k) (reset_starts stmts, 0))
      as [ss m].
    apply asap_step_inv; [lia|exact IH].
Qed.

End AsapCorrect.

(** C8.  On statements in topological index order, [scheduleASAP] leaves
    [start_cycle[i] = 1] where [deps[i]] is empty and otherwise
    [start_cycle[i] = max over j in deps[i] of
     (start_cycle[j] + max(latency[j] - 1, 0) + 1)]; it returns
    [max over i of (start_cycle[i] + max(latency[i] - 1, 0))]; and no
    statement shares a cycle with one of its predecessors. *)
Theorem asap_correct :
  forall (stmts : list Stmt) (dependencies : vec2d) (stmts' : list Stmt) (L : Z),
    indexed stmts = true ->
    length dependencies = length stmts ->
    topological dependencies = true ->
    scheduleASAP stmts dependencies = (stmts', L) ->
    map static stmts' = map static stmts
    /\ (forall i, (i < length stmts)%nat -> row dependencies i = [] ->
                  start_cycle (stmt_at stmts' i) = 1)
    /\ (forall i, (i < length stmts)%nat -> row dependencies i <> [] ->
                  start_cycle (stmt_at stmts' i)
                  = Zmax_list
                      (map (fun j => start_cycle (stmt_at stmts' j)
                                     + Z.max (latency (op (stmt_at stmts' j)) - 1) 0 + 1)
                           (row dependencies i)))
    /\ L = Zmax_list
             (map (fun s => start_cycle s + Z.max (latency (op s) - 1) 0) stmts')
    /\ (forall i j, (i < length stmts)%nat -> In j (row dependencies i) ->
                    start_cycle (stmt_at stmts' j) < start_cycle (stmt_at stmts' i)).
Proof.
  intros stmts deps stmts' L Hidx _ Htopo E.
  assert (H := asap_loop_inv stmts deps Hidx Htopo (length stmts) (Nat.le_refl _)).
  unfold scheduleASAP in E. rewrite E in H. cbn [fst snd] in H.
  assert (Hlen : length stmts' = length stmts)
    by (apply static_length; apply (asap_static _ _ _ _ _ H)).
  assert (Hmax := asap_max _ _ _ _ _ H).
  split; [apply (asap_static _ _ _ _ _ H)|].
  split; [apply (asap_src _ _ _ _ _ H)|].
  split; [exact Hmax|]. split.
  - rewrite (asap_lat _ _ _ _ _ H).
    rewrite <- Hlen. unfold stmt_at. rewrite (map_seq_nth Stmt Z completion stmts' dStmt).
    apply fold_max_from_0. intros x Hx. apply in_map_iff in Hx.
    destruct Hx as [s [<- Hs]].
    apply In_nth with (d := dStmt) in Hs. destruct Hs as [i [Hi <-]].
    assert (Hp := asap_pos _ _ _ _ _ H i ltac:(lia)).
    assert (Hc := completion_ge_start (nth i stmts' dStmt)).
    unfold stmt_at in Hp. lia.
  - intros i j Hi Hj.
    assert (Hne : row deps i <> []) by (intros Hnil; rewrite Hnil in Hj; destruct Hj).
    rewrite (Hmax i Hi Hne).
    assert (Hge := Zmax_list_ge
                     (map (fun j => completion (stmt_at stmts' j) + 1) (row deps i))
                     (completion (stmt_at stmts' j) + 1)
                     (in_map _ _ _ Hj)).
    assert (Hc := completion_ge_start (stmt_at stmts' j)).
    unfold completion in *. lia.
Qed.

Lemma asap_correct_witness :
  indexed fan_in = true
  /\ length fan_in_deps = length fan_in
  /\ topological fan_in_deps = true
  /\ scheduleASAP fan_in fan_in_deps
     = ([mkStmt 0 two_cycle_op 1; mkStmt 1 two_cycle_op 1; mkStmt 2 two_cycle_op 3], 4)
  /\ 4 = Zmax_list
           (map (fun s => start_cycle s + Z.max (latency (op s) - 1) 0)
                [mkStmt 0 two_cycle_op 1; mkStmt 1 two_cycle_op 1; mkStmt 2 two_cycle_op 3]).
Proof.
  split; [reflexivity|]. split; [reflexivity|]. split; [reflexivity|].
  split; [reflexivity|].
  apply (asap_correct fan_in fan_in_deps
           [mkStmt 0 two_cycle_op 1; mkStmt 1 two_cycle_op 1; mkStmt 2 two_cycle_op 3] 4);
    reflexivity.
Defined.

(** * The order of the ready queue *)

Lemma Qlt_b_spec : forall a b, Qlt_b a b = true <-> (a < b)%Q.
Proof.
  intros a b. unfold Qlt_b. rewrite negb_true_iff. split.
  - intros H. apply Qnot_le_lt. intros Hle.
    apply Qle_bool_iff in Hle. congruence.
  - intros H. destruct (Qle_bool b a) eqn:E; auto.
    apply Qle_bool_iff in E. exfalso. apply (Qlt_not_le _ _ H E).
Qed.

Lemma Qlt_b_false : forall a b, Qlt_b a b = false <-> (b <= a)%Q.
Proof.
  intros a b. unfold Qlt_b. rewrite negb_false_iff. apply Qle_bool_iff.
Qed.

Ltac decide_tests :=
  repeat match goal with
         | |- context [(?a =? ?b)%Z] =>
             first [rewrite (proj2 (Z.eqb_eq a b)) by lia
                   |rewrite (proj2 (Z.eqb_neq a b)) by lia]
         | |- context [(?a <? ?b)%Z] =>
             first [rewrite (proj2 (Z.ltb_lt a b)) by lia
                   |rewrite (proj2 (Z.ltb_ge a b)) by lia]
         end.

(** The comparator of lines 183-187 is a strict weak order, so the queue's
    promise about [top] applies to it. *)
Lemma comparator_strict_weak : forall priority stmts,
    strict_weak (comparator priority stmts).
Proof.
  intros priority stmts. split.
  - intros x y H. unfold comparator in *.
    destruct (nth x priority 0 =? nth y priority 0) eqn:E.
    + apply Z.eqb_eq in E. decide_tests.
      apply Qlt_b_false. apply Qlt_le_weak. apply Qlt_b_spec; exact H.
    + apply Z.eqb_neq in E. apply Z.ltb_lt in H. decide_tests. reflexivity.
  - intros x y z H. unfold comparator in *.
    destruct (nth x priority 0 =? nth y priority 0) eqn:E.
    + apply Z.eqb_eq in E. apply Qlt_b_spec in H.
      destruct (Z.lt_trichotomy (nth z priority 0) (nth x priority 0)) as [Hz|[Hz|Hz]].
      * left. decide_tests. reflexivity.
      * decide_tests.
        destruct (Qlt_le_dec (delay (op (stmt_at stmts z))) (delay (op (stmt_at stmts x))))
          as [Hd|Hd].
        -- left. apply Qlt_b_spec; exact Hd.
        -- right. apply Qlt_b_spec. apply (Qlt_le_trans _ _ _ H Hd).
      * right. decide_tests. reflexivity.
    + apply Z.eqb_neq in E. apply Z.ltb_lt in H.
      destruct (Z.lt_trichotomy (nth z priority 0) (nth x priority 0)) as [Hz|[Hz|Hz]].
      * left. decide_tests. reflexivity.
      * right. decide_tests. reflexivity.
      * right. decide_tests. reflexivity.
Qed.

(** The statement that is popped has the smallest ALAP key of the queue,
    and no statement with that key has a smaller delay. *)
Lemma pop_most_urgent :
  forall (PQ : PriorityQueue) (priority : list Z) (stmts : list Stmt)
         (q q' : pq_t) (x : nat),
    pq_pop (comparator priority stmts) q = Some (x, q') ->
    forall y, In y (pq_elems q) ->
      nth x priority 0 <= nth y priority 0
      /\ (nth x priority 0 = nth y priority 0 ->
          (delay (op (stmt_at stmts x)) <= delay (op (stmt_at stmts y)))%Q).
Proof.
  intros PQ priority stmts q q' x Epop y Hy.
  assert (H := pq_pop_top _ _ _ _ (comparator_strict_weak priority stmts) Epop y Hy).
  unfold comparator in H.
  destruct (nth x priority 0 =? nth y priority 0) eqn:E.
  - apply Z.eqb_eq in E. split; [lia|]. intros _. apply Qlt_b_false; exact H.
  - apply Z.eqb_neq in E. apply Z.ltb_ge in H. split; [lia|]. intros Heq; lia.
Qed.

(** X1.  The comparator of the ready queue meets the requirements that
    [std::priority_queue] puts on its [Compare] argument: it is
    irreflexive and transitive, and being unordered by it is transitive. *)
Theorem comparator_strict_weak_order :
  forall (priority : list Z) (stmts : list Stmt),
    (forall x, comparator priority stmts x x = false)
    /\ (forall x y z,
           comparator priority stmts x y = true ->
           comparator priority stmts y z = true ->
           comparator priority stmts x z = true)
    /\ (forall x y z,
           comparator priority stmts x y = false ->
           comparator priority stmts y x = false ->
           comparator priority stmts y z = false ->
           comparator priority stmts z y = false ->
           comparator priority stmts x z = false
           /\ comparator priority stmts z x = false).
Proof.
  intros priority stmts.
  destruct (comparator_strict_weak priority stmts) as [Hasym Hneg].
  split; [|split].
  - intros x. destruct (comparator priority stmts x x) eqn:E; auto.
    rewrite (Hasym _ _ E) in E. discriminate.
  - intros x y z Hxy Hyz. destruct (Hneg _ _ z Hxy) as [H|H]; auto.
    rewrite (Hasym _ _ Hyz) in H. discriminate.
  - intros x y z Hxy Hyx Hyz Hzy. split.
    + destruct (comparator priority stmts x z) eqn:E; auto.
      destruct (Hneg _ _ y E) as [H|H]; congruence.
    + destruct (comparator priority stmts z x) eqn:E; auto.
      destruct (Hneg _ _ y E) as [H|H]; congruence.
Qed.

(** X2.  Whatever the queue implementation, the statement that the drain
    loop pops has the smallest ALAP key of the ready queue, and among the
    ready statements with that key it has the smallest delay. *)
Theorem ready_queue_pops_most_urgent :
  forall (PQ : PriorityQueue) (priority : list Z) (stmts : list Stmt)
         (q q' : pq_t) (x : nat),
    pq_pop (comparator priority stmts) q = Some (x, q') ->
    forall y, In y (pq_elems q) ->
      nth x priority 0 <= nth y priority 0
      /\ (nth x priority 0 = nth y priority 0 ->
          (delay (op (stmt_at stmts x)) <= delay (op (stmt_at stmts y)))%Q).
Proof.
  intros PQ priority stmts q q' x Epop y Hy.
  destruct (pop_most_urgent PQ priority stmts q q' x Epop y Hy) as [Hp Hd].
  split; [exact Hp|exact Hd].
Qed.

Lemma ready_queue_pops_most_urgent_witness :
  pq_pop (PriorityQueue := list_queue) (comparator [1; 1] cyclic2_slow) [1%nat; 0%nat]
  = Some (0%nat, [1%nat])
  /\ (nth 0 [1; 1] 0 <= nth 1 [1; 1] 0
      /\ (nth 0 [1; 1] 0 = nth 1 [1; 1] 0 ->
          (delay (op (stmt_at cyclic2_slow 0)) <= delay (op (stmt_at cyclic2_slow 1)))%Q)).
Proof.
  split; [reflexivity|].
  apply (ready_queue_pops_most_urgent list_queue [1; 1] cyclic2_slow
                                      [1%nat; 0%nat] [1%nat] 0%nat).
  - reflexivity.
  - simpl; auto.
Defined.

(** * More on the list scheduler *)

(** X3.  In the schedule that the list scheduler returns, no statement
    shares a cycle with one of its producers: it starts at least
    [max(latency, 1)] cycles after each of them. *)
Theorem list_successor_in_later_cycle :
  forall (PQ : PriorityQueue) (fuel : nat) (time_period : Q)
         (dependencies usage_links : vec2d) (stmts0 stmts' : list Stmt) (L : Z),
    scheduleByList fuel time_period dependencies usage_links stmts0 = Some (stmts', L) ->
    forall i j,
      depends_on dependencies (length stmts0) i j ->
      start_cycle (stmt_at stmts' j) < start_cycle (stmt_at stmts' i)
      /\ start_cycle (stmt_at stmts' j) + Z.max (latency (op (stmt_at stmts' j))) 1
         <= start_cycle (stmt_at stmts' i).
Proof.
  intros PQ fuel T deps uses stmts0 stmts' L E i j [Hi Hj].
  assert (H := list_precedence_strict PQ fuel T deps uses stmts0 stmts' L E i j Hi Hj).
  split; [lia|exact H].
Qed.

Lemma list_successor_in_later_cycle_witness :
  scheduleByList (PQ := list_queue) 10 1 chain3_deps chain3_uses chain3
  = Some (chain3_result, 3)
  /\ depends_on chain3_deps (length chain3) 1 0
  /\ (start_cycle (stmt_at chain3_result 0) < start_cycle (stmt_at chain3_result 1)
      /\ start_cycle (stmt_at chain3_result 0)
         + Z.max (latency (op (stmt_at chain3_result 0))) 1
         <= start_cycle (stmt_at chain3_result 1)).
Proof.
  split; [reflexivity|].
  assert (Hd : depends_on chain3_deps (length chain3) 1 0)
    by (split; [simpl; lia|simpl; auto]).
  split; [exact Hd|].
  apply (list_successor_in_later_cycle list_queue 10 1 chain3_deps chain3_uses chain3
                                       chain3_result 3 eq_refl 1%nat 0%nat Hd).
Defined.

Lemma path_starts_earlier :
  forall (PQ : PriorityQueue) (fuel : nat) (T : Q) (deps uses : vec2d)
         (stmts0 stmts' : list Stmt) (L : Z),
    scheduleByList fuel T deps uses stmts0 = Some (stmts', L) ->
    forall i j,
      clos_trans nat (depends_on deps (length stmts0)) i j ->
      start_cycle (stmt_at stmts' j) < start_cycle (stmt_at stmts' i).
Proof.
  intros PQ fuel T deps uses stmts0 stmts' L E i j Hp.
  induction Hp as [i j [Hi Hj]|i k j _ IH1 _ IH2].
  - assert (H := list_precedence_strict PQ fuel T deps uses stmts0 stmts' L E i j Hi Hj).
    lia.
  - lia.
Qed.

(** X4.  The list scheduler has no guard against cyclic dependencies: when
    some statement reaches itself along the dependency vectors, the loop
    never ends, whatever the clock period and the queue. *)
Theorem list_cycle_never_returns :
  forall (PQ : PriorityQueue) (time_period : Q) (dependencies usage_links : vec2d)
         (stmts0 : list Stmt) (i : nat),
    clos_trans nat (depends_on dependencies (length stmts0)) i i ->
    forall fuel,
      scheduleByList fuel time_period dependencies usage_links stmts0 = None.
Proof.
  intros PQ T deps uses stmts0 i Hc fuel.
  destruct (scheduleByList fuel T deps uses stmts0) as [[stmts' L]|] eqn:E;
    [exfalso|reflexivity].
  assert (H := path_starts_earlier PQ fuel T deps uses stmts0 stmts' L E i i Hc).
  lia.
Qed.

Lemma list_cycle_never_returns_witness :
  clos_trans nat (depends_on self_loop_edges (length self_loop)) 0%nat 0%nat
  /\ validateTopologicalOrder self_loop self_loop_edges = true
  /\ forall fuel,
      scheduleByList (PQ := list_queue) fuel 1 self_loop_edges self_loop_edges self_loop
      = None.
Proof.
  assert (Hc : clos_trans nat (depends_on self_loop_edges (length self_loop)) 0%nat 0%nat)
    by (apply t_step; split; [simpl; lia|simpl; auto]).
  split; [exact Hc|]. split; [reflexivity|].
  apply (list_cycle_never_returns list_queue 1 self_loop_edges self_loop_edges
                                  self_loop 0%nat Hc).
Defined.

Lemma fold_max_le : forall l a b,
    a <= b -> (forall x, In x l -> x <= b) -> fold_left Z.max l a <= b.
Proof.
  induction l as [|x l IH]; intros a b Ha H; simpl; [exact Ha|].
  apply IH.
  - assert (Hx := H x (or_introl eq_refl)). lia.
  - intros y Hy. apply H. right; exact Hy.
Qed.

Lemma Zmax_list_le : forall l b,
    l <> [] -> (forall x, In x l -> x <= b) -> Zmax_list l <= b.
Proof.
  intros [|x l] b Hne H; [congruence|]. simpl.
  apply fold_max_le; [apply H; left; reflexivity|].
  intros y Hy. apply H. right; exact Hy.
Qed.

Lemma schedule_latency_ge : forall stmts i,
    (i < length stmts)%nat -> completion (stmt_at stmts i) <= schedule_latency stmts.
Proof.
  intros stmts i Hi. unfold schedule_latency. rewrite fold_max_map.
  apply fold_max_ge_in. apply in_map. apply nth_In. exact Hi.
Qed.

(** X5.  When the list scheduler returns, it has placed every statement:
    each start cycle is at least 1 and at most the returned latency, which
    is the largest [start_cycle + max(latency - 1, 0)] of the schedule. *)
Theorem list_every_statement_placed :
  forall (PQ : PriorityQueue) (fuel : nat) (time_period : Q)
         (dependencies usage_links : vec2d) (stmts0 stmts' : list Stmt) (L : Z),
    scheduleByList fuel time_period dependencies usage_links stmts0 = Some (stmts', L) ->
    length stmts' = length stmts0
    /\ (forall i, (i < length stmts0)%nat ->
                  op (stmt_at stmts' i) = op (stmt_at stmts0 i)
                  /\ 1 <= start_cycle (stmt_at stmts' i) <= L)
    /\ L = Zmax_list (map completion stmts').
Proof.
  intros PQ fuel T deps uses stmts0 stmts' L E.
  destruct (scheduleByList_final T deps uses stmts0 fuel stmts' L E)
    as [st [Hs [H [Hall HL]]]].
  assert (Hst := inv_static _ _ _ _ _ H). rewrite Hs in Hst.
  assert (Hlen : length stmts' = length stmts0) by (apply static_length; exact Hst).
  assert (Hpos : forall i, (i < length stmts0)%nat -> 1 <= start_cycle (stmt_at stmts' i)).
  { intros i Hi. assert (Hd := inv_done _ _ _ _ _ H i (Hall i Hi)).
    rewrite Hs in Hd. lia. }
  split; [exact Hlen|]. split.
  - intros i Hi. split; [apply static_op; exact Hst|]. split; [apply Hpos; exact Hi|].
    assert (Hc := completion_ge_start (stmt_at stmts' i)).
    assert (Hg := schedule_latency_ge stmts' i ltac:(lia)). lia.
  - rewrite HL. unfold schedule_latency. rewrite fold_max_map.
    apply fold_max_from_0. intros x Hx. apply in_map_iff in Hx.
    destruct Hx as [s [<- Hin]].
    apply In_nth with (d := dStmt) in Hin. destruct Hin as [i [Hi <-]].
    assert (Hp := Hpos i ltac:(lia)).
    assert (Hc := completion_ge_start (nth i stmts' dStmt)).
    unfold stmt_at in Hp. lia.
Qed.

Lemma list_every_statement_placed_witness :
  scheduleByList (PQ := list_queue) 10 1 no_edges4 no_edges4 mul4
  = Some ([mkStmt 0 mul_op 1; mkStmt 1 mul_op 1; mkStmt 2 mul_op 2; mkStmt 3 mul_op 2], 2)
  /\ 2 = Zmax_list
           (map completion
                [mkStmt 0 mul_op 1; mkStmt 1 mul_op 1; mkStmt 2 mul_op 2; mkStmt 3 mul_op 2]).
Proof.
  split; [reflexivity|].
  apply (list_every_statement_placed list_queue 10 1 no_edges4 no_edges4 mul4
           [mkStmt 0 mul_op 1; mkStmt 1 mul_op 1; mkStmt 2 mul_op 2; mkStmt 3 mul_op 2] 2).
  reflexivity.
Defined.

(** X6.  The list schedule never beats the ASAP schedule: on statements in
    topological index order, every statement starts in the list schedule
    no earlier than in the ASAP schedule of the same graph, and the latency
    of the list schedule is at least the ASAP latency. *)
Theorem list_not_before_asap :
  forall (PQ : PriorityQueue) (fuel : nat) (time_period : Q)
         (dependencies usage_links : vec2d)
         (stmts stmts_asap stmts_list : list Stmt) (L_asap L_final : Z),
    indexed stmts = true ->
    topological dependencies = true ->
    scheduleASAP stmts dependencies = (stmts_asap, L_asap) ->
    scheduleByList fuel time_period dependencies usage_links stmts = Some (stmts_list, L_final) ->
    (forall i, (i < length stmts)%nat ->
               start_cycle (stmt_at stmts_asap i) <= start_cycle (stmt_at stmts_list i))
    /\ L_asap <= L_final.
Proof.
  intros PQ fuel T deps uses stmts sa sl La Ll Hidx Htopo Ea El.
  assert (HA := asap_loop_inv stmts deps Hidx Htopo (length stmts) (Nat.le_refl _)).
  unfold scheduleASAP in Ea. rewrite Ea in HA. cbn [fst snd] in HA.
  destruct (scheduleByList_final T deps uses stmts fuel sl Ll El)
    as [st [Hs [H [Hall HL]]]].
  assert (Hsl := inv_static _ _ _ _ _ H). rewrite Hs in Hsl.
  assert (Hsa := asap_static _ _ _ _ _ HA).
  assert (Hop : forall i, op (stmt_at sa i) = op (stmt_at sl i)).
  { intros i. rewrite (static_op sa stmts i Hsa). symmetry. apply static_op; exact Hsl. }
  assert (Hstart : forall i, (i < length stmts)%nat ->
                     start_cycle (stmt_at sa i) <= start_cycle (stmt_at sl i)).
  { intros i. induction i as [i IH] using lt_wf_ind. intros Hi.
    destruct (row deps i) as [|d ds] eqn:Hrow.
    - rewrite (asap_src _ _ _ _ _ HA i Hi Hrow).
      assert (Hd := inv_done _ _ _ _ _ H i (Hall i Hi)). rewrite Hs in Hd. lia.
    - rewrite (asap_max _ _ _ _ _ HA i Hi) by (rewrite Hrow; discriminate).
      apply Zmax_list_le; [rewrite Hrow; discriminate|].
      intros x Hx. apply in_map_iff in Hx. destruct Hx as [j [<- Hj]].
      assert (Hji : (j < i)%nat) by (apply (deps_below deps Htopo); exact Hj).
      assert (Hp := proj2 (inv_prec _ _ _ _ _ H i j
                             ltac:(rewrite app_nil_r; apply Hall; exact Hi) Hj)).
      rewrite Hs in Hp.
      assert (Hj' := IH j Hji ltac:(lia)).
      unfold completion. rewrite (Hop j). lia. }
  split; [exact Hstart|].
  rewrite (asap_lat _ _ _ _ _ HA). apply fold_max_le.
  - rewrite HL. unfold schedule_latency. rewrite fold_max_map. apply fold_max_ge_init.
  - intros x Hx. apply in_map_iff in Hx. destruct Hx as [i [<- Hi]].
    apply in_seq in Hi.
    assert (Hlen : length sl = length stmts) by (apply static_length; exact Hsl).
    assert (Hg := schedule_latency_ge sl i ltac:(lia)). rewrite <- HL in Hg.
    assert (Hi' := Hstart i ltac:(lia)).
    unfold completion in *. rewrite (Hop i). lia.
Qed.

Lemma list_not_before_asap_witness :
  indexed mul4 = true
  /\ topological no_edges4 = true
  /\ scheduleASAP mul4 no_edges4
     = ([mkStmt 0 mul_op 1; mkStmt 1 mul_op 1; mkStmt 2 mul_op 1; mkStmt 3 mul_op 1], 1)
  /\ scheduleByList (PQ := list_queue) 10 1 no_edges4 no_edges4 mul4
     = Some ([mkStmt 0 mul_op 1; mkStmt 1 mul_op 1; mkStmt 2 mul_op 2; mkStmt 3 mul_op 2], 2)
  /\ 1 <= 2.
Proof.
  split; [reflexivity|]. split; [reflexivity|]. split; [reflexivity|].
  split; [reflexivity|].
  apply (list_not_before_asap list_queue 10 1 no_edges4 no_edges4 mul4
           [mkStmt 0 mul_op 1; mkStmt 1 mul_op 1; mkStmt 2 mul_op 1; mkStmt 3 mul_op 1]
           [mkStmt 0 mul_op 1; mkStmt 1 mul_op 1; mkStmt 2 mul_op 2; mkStmt 3 mul_op 2]
           1 2); reflexivity.
Defined.

(** * The canonicalizer: Kahn's loop *)

Lemma reorder_by_sortedOrder : forall fuel g d u,
    validateTopologicalOrder g d = false ->
    reorderToTopological fuel g d u
    = match sortedOrder fuel g d u with
      | None => OutOfFuel
      | Some order =>
          if (length order <? length g)%nat then Throw cycle_msg
          else
            let reorderedStatements :=
              map (fun i => with_idx i (stmt_at g (nth i order 0%nat)))
                  (seq 0 (length g)) in
            let translate (v : vec2d) :=
              map (fun i =>
                     map (fun old => idx (stmt_at reorderedStatements old))
                         (row v (nth i order 0%nat)))
                  (seq 0 (length g)) in
            Done (reorderedStatements, translate d, translate u)
      end.
Proof.
  intros fuel g d u Hv. unfold reorderToTopological, sortedOrder. rewrite Hv.
  reflexivity.
Qed.

Lemma nth_map_seq : forall (B : Type) (f : nat -> B) (dflt : B) n k,
    (k < n)%nat -> nth k (map f (seq 0 n)) dflt = f k.
Proof.
  intros B f dflt n k Hk.
  rewrite (nth_indep _ dflt (f 0%nat)) by (rewrite length_map, length_seq; exact Hk).
  rewrite (map_nth f (seq 0 n) 0%nat), seq_nth by exact Hk. reflexivity.
Qed.

Lemma kahn_init_inv : forall n d,
    KahnInv n (map (fun i => Z.of_nat (length (row d i))) (seq 0 n))
            (filter (fun i => nth i (map (fun i => Z.of_nat (length (row d i))) (seq 0 n)) 0 =? 0)
                    (seq 0 n))
            [].
Proof.
  intros n d. constructor.
  - rewrite length_map, length_seq. reflexivity.
  - simpl. apply NoDup_filter. apply seq_NoDup.
  - intros v. simpl. rewrite filter_In, in_seq. split.
    + intros [Hv E]. apply Z.eqb_eq in E. split; [lia|]. rewrite E. lia.
    + intros [Hv Hle]. split; [lia|]. apply Z.eqb_eq.
      rewrite nth_map_seq in Hle |- * by exact Hv. lia.
Qed.

Lemma kahn_visit_inv : forall n inc q s x,
    KahnInv n inc q s ->
    KahnInv n (fst (kahn_visit (inc, q) x)) (snd (kahn_visit (inc, q) x)) s.
Proof.
  intros n inc q s x H. unfold kahn_visit.
  assert (Hlen := kahn_len _ _ _ _ H).
  assert (Hother : forall v, v <> x ->
             nth v (upd x (fun _ => nth x inc 0 - 1) inc) 0 = nth v inc 0).
  { intros v Hv. apply nth_upd_other. congruence. }
  destruct (nth x inc 0 - 1 =? 0) eqn:E; cbn [fst snd].
  - apply Z.eqb_eq in E.
    assert (Hx : (x < n)%nat).
    { destruct (Nat.lt_ge_cases x n) as [Hx|Hx]; [exact Hx|].
      rewrite nth_overflow in E by lia. lia. }
    assert (Hnot : ~ In x (s ++ q)).
    { intros Hin. apply (kahn_seen _ _ _ _ H) in Hin. lia. }
    constructor.
    + rewrite upd_length. exact Hlen.
    + rewrite app_assoc.
      apply (Permutation_NoDup (Permutation_cons_append (s ++ q) x)).
      constructor; [exact Hnot|apply (kahn_nodup _ _ _ _ H)].
    + intros v. rewrite app_assoc, in_app_iff. simpl.
      destruct (Nat.eq_dec v x) as [->|Hne].
      * rewrite nth_upd_same by lia. split; [intros _; split; [exact Hx|lia]|auto].
      * rewrite Hother by exact Hne. rewrite (kahn_seen _ _ _ _ H v).
        split; [intros [Hv|[Hv|[]]]; [exact Hv|congruence]|auto].
  - apply Z.eqb_neq in E. constructor.
    + rewrite upd_length. exact Hlen.
    + apply (kahn_nodup _ _ _ _ H).
    + intros v. rewrite (kahn_seen _ _ _ _ H v).
      destruct (Nat.eq_dec v x) as [->|Hne]; [|rewrite Hother by exact Hne; tauto].
      destruct (Nat.lt_ge_cases x n) as [Hx|Hx]; [|lia].
      rewrite nth_upd_same by lia. lia.
Qed.

Lemma kahn_visits_inv : forall n l inc q s,
    KahnInv n inc q s ->
    KahnInv n (fst (fold_left kahn_visit l (inc, q)))
            (snd (fold_left kahn_visit l (inc, q))) s.
Proof.
  intros n l; induction l as [|x l IH]; intros inc q s H; [exact H|].
  cbn [fold_left].
  assert (Hx := kahn_visit_inv n inc q s x H).
  destruct (kahn_visit (inc, q) x) as [inc' q']. apply IH. exact Hx.
Qed.

Lemma kahn_take_inv : forall n inc c q s,
    KahnInv n inc (c :: q) s -> KahnInv n inc q (s ++ [c]).
Proof.
  intros n inc c q s H. constructor.
  - apply (kahn_len _ _ _ _ H).
  - rewrite <- app_assoc. apply (kahn_nodup _ _ _ _ H).
  - intros v. rewrite <- app_assoc. apply (kahn_seen _ _ _ _ H).
Qed.

Lemma kahn_inv_bound : forall n inc q s,
    KahnInv n inc q s -> (length s + length q <= n)%nat.
Proof.
  intros n inc q s H. rewrite <- length_app.
  rewrite <- (length_seq n 0).
  apply NoDup_incl_length; [apply (kahn_nodup _ _ _ _ H)|].
  intros v Hv. apply (kahn_seen _ _ _ _ H) in Hv. apply in_seq. lia.
Qed.

(** The loop ends within [count] iterations, and its invariant holds for
    what it returns. *)
Lemma kahn_total : forall n u fuel inc q s,
    KahnInv n inc q s ->
    (n - length s < fuel)%nat ->
    exists order inc', kahn fuel u inc q s = Some order /\ KahnInv n inc' [] order.
Proof.
  intros n u fuel; induction fuel as [|fuel IH]; intros inc q s H Hf; [lia|].
  destruct q as [|c q]; [exists s, inc; split; [reflexivity|exact H]|].
  cbn [kahn].
  assert (Hb := kahn_inv_bound _ _ _ _ H). cbn [length] in Hb.
  assert (H1 := kahn_visits_inv n (row u c) inc q (s ++ [c]) (kahn_take_inv _ _ _ _ _ H)).
  destruct (fold_left kahn_visit (row u c) (inc, q)) as [inc' q'].
  cbn [fst snd] in H1. apply IH; [exact H1|].
  rewrite length_app. simpl. lia.
Qed.

Lemma kahn_result_inv : forall n u fuel inc q s order,
    KahnInv n inc q s ->
    kahn fuel u inc q s = Some order ->
    exists inc', KahnInv n inc' [] order.
Proof.
  intros n u fuel; induction fuel as [|fuel IH]; intros inc q s order H E;
    [discriminate|].
  destruct q as [|c q]; [injection E as <-; exists inc; exact H|].
  cbn [kahn] in E.
  assert (H1 := kahn_visits_inv n (row u c) inc q (s ++ [c]) (kahn_take_inv _ _ _ _ _ H)).
  destruct (fold_left kahn_visit (row u c) (inc, q)) as [inc' q'].
  cbn [fst snd] in H1. apply (IH inc' q' (s ++ [c]) order H1 E).
Qed.

Lemma full_order_permutation : forall n order,
    NoDup order -> (forall v, In v order -> (v < n)%nat) -> (n <= length order)%nat ->
    Permutation order (seq 0 n).
Proof.
  intros n order Hnd Hlt Hlen.
  apply NoDup_Permutation_bis.
  - exact Hnd.
  - rewrite length_seq. exact Hlen.
  - intros v Hv. apply in_seq. specialize (Hlt v Hv). lia.
Qed.

(** X7.  Kahn's loop takes every node at most once, so it ends after at
    most [count] iterations: [reorderToTopological] either returns or
    throws the cycle error. *)
Theorem reorder_terminates :
  forall (fuel : nat) (stmts : list Stmt) (dependencies usage_links : vec2d),
    (length stmts < fuel)%nat ->
    (exists r, reorderToTopological fuel stmts dependencies usage_links = Done r)
    \/ reorderToTopological fuel stmts dependencies usage_links = Throw cycle_msg.
Proof.
  intros fuel g d u Hf.
  destruct (validateTopologicalOrder g d) eqn:Hv.
  - left. unfold reorderToTopological. rewrite Hv. eexists; reflexivity.
  - rewrite (reorder_by_sortedOrder fuel g d u Hv). unfold sortedOrder.
    destruct (kahn_total (length g) u fuel _ _ [] (kahn_init_inv (length g) d))
      as [order [inc' [E _]]]; [simpl; lia|].
    rewrite E. destruct (length order <? length g)%nat; [right; reflexivity|].
    left. eexists; reflexivity.
Qed.

Lemma reorder_terminates_witness :
  (length cyclic2 < 3)%nat
  /\ ((exists r, reorderToTopological 3 cyclic2 cyclic2_edges cyclic2_edges = Done r)
      \/ reorderToTopological 3 cyclic2 cyclic2_edges cyclic2_edges = Throw cycle_msg).
Proof.
  split; [simpl; lia|].
  apply (reorder_terminates 3 cyclic2 cyclic2_edges cyclic2_edges). simpl; lia.
Defined.

(** X8.  When the sort runs and succeeds, the statement vector it leaves
    is a rearrangement of the one it found: position [i] holds the
    statement that was at [sortedOrder[i]], renumbered to [i], and
    [sortedOrder] is a permutation of [0 .. count-1]. *)
Theorem reorder_renumbers :
  forall (fuel : nat) (stmts : list Stmt) (dependencies usage_links : vec2d)
         (stmts' : list Stmt) (dependencies' usage_links' : vec2d),
    validateTopologicalOrder stmts dependencies = false ->
    reorderToTopological fuel stmts dependencies usage_links
    = Done (stmts', dependencies', usage_links') ->
    exists order,
      sortedOrder fuel stmts dependencies usage_links = Some order
      /\ Permutation order (seq 0 (length stmts))
      /\ stmts' = map (fun i => with_idx i (stmt_at stmts (nth i order 0%nat)))
                      (seq 0 (length stmts))
      /\ indexed stmts' = true
      /\ Permutation (map (fun s => (op s, start_cycle s)) stmts')
                     (map (fun s => (op s, start_cycle s)) stmts)
      /\ length dependencies' = length stmts
      /\ length usage_links' = length stmts.
Proof.
  intros fuel g d u g' d' u' Hv E.
  rewrite (reorder_by_sortedOrder fuel g d u Hv) in E.
  destruct (sortedOrder fuel g d u) as [order|] eqn:Eo; [|discriminate].
  destruct (length order <? length g)%nat eqn:Hlen; [discriminate|].
  apply Nat.ltb_ge in Hlen. cbv zeta in E. injection E as <- <- <-.
  unfold sortedOrder in Eo.
  destruct (kahn_result_inv (length g) u fuel _ _ [] order
                            (kahn_init_inv (length g) d) Eo) as [inc' H].
  assert (Hnd : NoDup order).
  { assert (Hn := kahn_nodup _ _ _ _ H). rewrite app_nil_r in Hn. exact Hn. }
  assert (Hlt : forall v, In v order -> (v < length g)%nat).
  { intros v Hin. apply (kahn_seen _ _ _ _ H v). rewrite app_nil_r. exact Hin. }
  assert (Hperm := full_order_permutation (length g) order Hnd Hlt Hlen).
  assert (Hlo : length order = length g).
  { rewrite (Permutation_length Hperm). apply length_seq. }
  exists order. split; [reflexivity|]. split; [exact Hperm|]. split; [reflexivity|].
  split; [|split; [|split]].
  - unfold indexed. apply forallb_forall. intros i Hi.
    rewrite length_map, length_seq in Hi. apply in_seq in Hi.
    unfold stmt_at at 1. rewrite nth_map_seq by lia. simpl. apply Nat.eqb_refl.
  - rewrite map_map. cbn [with_idx op start_cycle].
    rewrite <- Hlo. unfold stmt_at.
    rewrite (map_seq_nth nat (Op * Z)
               (fun k => (op (nth k g dStmt), start_cycle (nth k g dStmt))) order 0%nat).
    apply (Permutation_trans
             (Permutation_map (fun k => (op (nth k g dStmt), start_cycle (nth k g dStmt)))
                              Hperm)).
    rewrite (map_seq_nth Stmt (Op * Z) (fun s => (op s, start_cycle s)) g dStmt).
    apply Permutation_refl.
  - rewrite length_map, length_seq. reflexivity.
  - rewrite length_map, length_seq. reflexivity.
Qed.

Lemma reorder_renumbers_witness :
  validateTopologicalOrder unordered3 unordered3_deps = false
  /\ reorderToTopological 10 unordered3 unordered3_deps unordered3_uses
     = Done ([mkStmt 0 op_a 0; mkStmt 1 op_c 0; mkStmt 2 op_b 0],
             [[]; []; [2%nat]], [[]; [1%nat]; []])
  /\ exists order,
      sortedOrder 10 unordered3 unordered3_deps unordered3_uses = Some order
      /\ Permutation order (seq 0 (length unordered3))
      /\ [mkStmt 0 op_a 0; mkStmt 1 op_c 0; mkStmt 2 op_b 0]
         = map (fun i => with_idx i (stmt_at unordered3 (nth i order 0%nat)))
               (seq 0 (length unordered3))
      /\ indexed [mkStmt 0 op_a 0; mkStmt 1 op_c 0; mkStmt 2 op_b 0] = true
      /\ Permutation (map (fun s => (op s, start_cycle s))
                          [mkStmt 0 op_a 0; mkStmt 1 op_c 0; mkStmt 2 op_b 0])
                     (map (fun s => (op s, start_cycle s)) unordered3)
      /\ length [[]; []; [2%nat]] = length unordered3
      /\ length [[]; [1%nat]; []] = length unordered3.
Proof.
  split; [reflexivity|]. split; [reflexivity|].
  apply (reorder_renumbers 10 unordered3 unordered3_deps unordered3_uses
           [mkStmt 0 op_a 0; mkStmt 1 op_c 0; mkStmt 2 op_b 0]
           [[]; []; [2%nat]] [[]; [1%nat]; []]); reflexivity.
Defined.

(** ** The order that Kahn's loop produces *)

Lemma mirrored_spec : forall d u,
    mirrored d u = true ->
    forall i j, (i < length d)%nat -> (j < length d)%nat ->
                count_occ Nat.eq_dec (row d i) j = count_occ Nat.eq_dec (row u j) i.
Proof.
  intros d u H i j Hi Hj. unfold mirrored in H. rewrite forallb_forall in H.
  assert (H1 := H i ltac:(apply in_seq; lia)). rewrite forallb_forall in H1.
  apply Nat.eqb_eq. apply H1. apply in_seq; lia.
Qed.

Lemma existsb_eqb_In : forall j l, existsb (Nat.eqb j) l = true <-> In j l.
Proof.
  intros j l. rewrite existsb_exists. split.
  - intros [x [Hx E]]. apply Nat.eqb_eq in E. subst x. exact Hx.
  - intros H. exists j. split; [exact H|apply Nat.eqb_refl].
Qed.

Lemma pending_take : forall d s c v,
    ~ In c s ->
    pending d s v
    = pending d (s ++ [c]) v + Z.of_nat (count_occ Nat.eq_dec (row d v) c).
Proof.
  intros d s c v Hc. unfold pending. generalize (row d v) as l.
  induction l as [|j l IH]; [reflexivity|].
  cbn [filter count_occ]. rewrite existsb_app. cbn [existsb]. rewrite orb_false_r.
  destruct (Nat.eq_dec j c) as [->|Hne].
  - rewrite Nat.eqb_refl, orb_true_r. cbn [negb].
    destruct (existsb (Nat.eqb c) s) eqn:E; [apply existsb_eqb_In in E; contradiction|].
    cbn [negb length]. lia.
  - assert (Hjc : (j =? c)%nat = false) by (apply Nat.eqb_neq; exact Hne).
    rewrite Hjc, orb_false_r.
    destruct (negb (existsb (Nat.eqb j) s)); cbn [length]; lia.
Qed.

Lemma pending_zero : forall d s v,
    pending d s v <= 0 -> forall j, In j (row d v) -> In j s.
Proof.
  intros d s v H j Hj. unfold pending in H.
  destruct (existsb (Nat.eqb j) s) eqn:E; [apply existsb_eqb_In; exact E|].
  exfalso.
  assert (Hin : In j (filter (fun j => negb (existsb (Nat.eqb j) s)) (row d v)))
    by (apply filter_In; split; [exact Hj|rewrite E; reflexivity]).
  destruct (filter (fun j => negb (existsb (Nat.eqb j) s)) (row d v));
    [destruct Hin|simpl in H; lia].
Qed.

Lemma pending_positive : forall d s v,
    0 < pending d s v -> exists j, In j (row d v) /\ ~ In j s.
Proof.
  intros d s v H. unfold pending in H.
  destruct (filter (fun j => negb (existsb (Nat.eqb j) s)) (row d v)) as [|j l] eqn:E;
    [simpl in H; lia|].
  assert (Hin : In j (filter (fun j => negb (existsb (Nat.eqb j) s)) (row d v)))
    by (rewrite E; left; reflexivity).
  apply filter_In in Hin. destruct Hin as [Hj Hn]. exists j. split; [exact Hj|].
  intros Hs. apply existsb_eqb_In in Hs. rewrite Hs in Hn. discriminate.
Qed.

Lemma kahn_init_ord : forall n d,
    KahnOrd n d (map (fun i => Z.of_nat (length (row d i))) (seq 0 n))
            (filter (fun i => nth i (map (fun i => Z.of_nat (length (row d i))) (seq 0 n)) 0 =? 0)
                    (seq 0 n))
            [] [].
Proof.
  intros n d. constructor.
  - intros v Hv. rewrite nth_map_seq by exact Hv. unfold pending. cbn [existsb negb].
    assert (Hall : forall l : list nat, filter (fun _ => true) l = l)
      by (induction l as [|a l IHl]; simpl; congruence).
    rewrite Hall. simpl. lia.
  - intros v j Hv Hj. apply filter_In in Hv. destruct Hv as [Hv E].
    apply in_seq in Hv. rewrite nth_map_seq in E by lia. apply Z.eqb_eq in E.
    destruct (row d v); [destruct Hj|simpl in E; lia].
  - intros i j Hi. simpl in Hi. lia.
Qed.

Lemma kahn_visit_ord : forall n d inc q s x rest,
    length inc = n -> (x < n)%nat ->
    KahnOrd n d inc q s (x :: rest) ->
    KahnOrd n d (fst (kahn_visit (inc, q) x)) (snd (kahn_visit (inc, q) x)) s rest.
Proof.
  intros n d inc q s x rest Hlen Hx H. unfold kahn_visit.
  assert (Hcx := ord_count _ _ _ _ _ _ H x Hx).
  cbn [count_occ] in Hcx. destruct (Nat.eq_dec x x) as [_|Hne]; [|congruence].
  assert (Hcount : forall v, (v < n)%nat ->
             nth v (upd x (fun _ => nth x inc 0 - 1) inc) 0
             = pending d s v + Z.of_nat (count_occ Nat.eq_dec rest v)).
  { intros v Hv. destruct (Nat.eq_dec v x) as [->|Hne].
    - rewrite nth_upd_same by lia. lia.
    - rewrite nth_upd_other by congruence.
      rewrite (ord_count _ _ _ _ _ _ H v Hv). cbn [count_occ].
      destruct (Nat.eq_dec x v) as [E|_]; [congruence|reflexivity]. }
  destruct (nth x inc 0 - 1 =? 0) eqn:E; cbn [fst snd]; constructor;
    try exact Hcount; try apply (ord_sorted _ _ _ _ _ _ H);
    try apply (ord_queue _ _ _ _ _ _ H).
  intros v j Hv Hj. apply in_app_iff in Hv. destruct Hv as [Hv|[<-|[]]].
  - apply (ord_queue _ _ _ _ _ _ H v j Hv Hj).
  - apply Z.eqb_eq in E. apply (pending_zero d s x); [|exact Hj].
    unfold pending in *. lia.
Qed.

Lemma kahn_visits_ord : forall n d l inc q s rest,
    length inc = n -> (forall x, In x l -> (x < n)%nat) ->
    KahnOrd n d inc q s (l ++ rest) ->
    length (fst (fold_left kahn_visit l (inc, q))) = n
    /\ KahnOrd n d (fst (fold_left kahn_visit l (inc, q)))
               (snd (fold_left kahn_visit l (inc, q))) s rest.
Proof.
  intros n d l; induction l as [|x l IH]; intros inc q s rest Hlen Hl H;
    [split; [exact Hlen|exact H]|].
  cbn [fold_left].
  assert (Hx := kahn_visit_ord n d inc q s x (l ++ rest) Hlen
                               (Hl x (or_introl eq_refl)) H).
  assert (Hlen' : length (fst (kahn_visit (inc, q) x)) = n)
    by (unfold kahn_visit; destruct (nth x inc 0 - 1 =? 0); cbn [fst];
        rewrite upd_length; exact Hlen).
  destruct (kahn_visit (inc, q) x) as [inc' q']. cbn [fst snd] in *.
  apply IH; [exact Hlen'| |exact Hx].
  intros y Hy. apply Hl. right; exact Hy.
Qed.

Lemma producers_first_snoc : forall d s c,
    producers_first d s ->
    (forall j, In j (row d c) -> In j s) ->
    producers_first d (s ++ [c]).
Proof.
  intros d s c Hs Hc i j Hi Hj. rewrite length_app in Hi. simpl in Hi.
  destruct (Nat.lt_ge_cases i (length s)) as [Hlt|Hge].
  - rewrite app_nth1 in Hj by exact Hlt.
    destruct (Hs i j Hlt Hj) as [k [Hk E]].
    exists k. split; [exact Hk|]. rewrite app_nth1 by lia. exact E.
  - assert (i = length s) by lia. subst i.
    rewrite app_nth2, Nat.sub_diag in Hj by lia. simpl in Hj.
    destruct (In_nth s j 0%nat (Hc j Hj)) as [k [Hk E]].
    exists k. split; [exact Hk|]. rewrite app_nth1 by exact Hk. exact E.
Qed.

Lemma kahn_take_ord : forall n d u inc c q s,
    in_range n d = true -> in_range n u = true -> mirrored d u = true ->
    KahnInv n inc (c :: q) s ->
    KahnOrd n d inc (c :: q) s [] ->
    KahnOrd n d inc q (s ++ [c]) (row u c).
Proof.
  intros n d u inc c q s Hd Hu Hm HI HO.
  destruct (in_range_spec _ _ Hd) as [Hld _].
  assert (Hc : (c < n)%nat).
  { apply (kahn_seen _ _ _ _ HI c). apply in_app_iff. right; left; reflexivity. }
  assert (Hnot : ~ In c s).
  { assert (Hn := kahn_nodup _ _ _ _ HI). apply NoDup_remove_2 in Hn.
    intros Hin. apply Hn. apply in_app_iff. left; exact Hin. }
  constructor.
  - intros v Hv. rewrite (ord_count _ _ _ _ _ _ HO v Hv). cbn [count_occ].
    rewrite (pending_take d s c v Hnot).
    rewrite (mirrored_spec d u Hm v c) by lia. lia.
  - intros v j Hv Hj. apply in_app_iff. left.
    apply (ord_queue _ _ _ _ _ _ HO v j (or_intror Hv) Hj).
  - apply producers_first_snoc; [apply (ord_sorted _ _ _ _ _ _ HO)|].
    intros j Hj. apply (ord_queue _ _ _ _ _ _ HO c j (or_introl eq_refl) Hj).
Qed.

Lemma kahn_result_ord : forall n d u,
    in_range n d = true -> in_range n u = true -> mirrored d u = true ->
    forall fuel inc q s order,
      KahnInv n inc q s -> KahnOrd n d inc q s [] ->
      kahn fuel u inc q s = Some order ->
      exists inc', KahnInv n inc' [] order /\ KahnOrd n d inc' [] order [].
Proof.
  intros n d u Hd Hu Hm fuel; induction fuel as [|fuel IH];
    intros inc q s order HI HO E; [discriminate|].
  destruct q as [|c q]; [injection E as <-; exists inc; split; assumption|].
  cbn [kahn] in E.
  assert (HI1 := kahn_visits_inv n (row u c) inc q (s ++ [c])
                                 (kahn_take_inv _ _ _ _ _ HI)).
  assert (HO0 := kahn_take_ord n d u inc c q s Hd Hu Hm HI HO).
  rewrite <- (app_nil_r (row u c)) in HO0.
  destruct (kahn_visits_ord n d (row u c) inc q (s ++ [c]) []
                            (kahn_len _ _ _ _ HI)
                            (fun x Hx => proj2 (proj2 (in_range_spec _ _ Hu) c x Hx))
                            HO0) as [_ HO1].
  destruct (fold_left kahn_visit (row u c) (inc, q)) as [inc' q'].
  cbn [fst snd] in HI1, HO1. apply (IH inc' q' (s ++ [c]) order HI1 HO1 E).
Qed.

Lemma sortedOrder_spec : forall fuel g d u order,
    in_range (length g) d = true -> in_range (length g) u = true ->
    mirrored d u = true ->
    sortedOrder fuel g d u = Some order ->
    NoDup order
    /\ (forall v, In v order -> (v < length g)%nat)
    /\ producers_first d order
    /\ (forall v, (v < length g)%nat -> ~ In v order ->
                  exists j, In j (row d v) /\ ~ In j order).
Proof.
  intros fuel g d u order Hd Hu Hm E. unfold sortedOrder in E.
  destruct (kahn_result_ord (length g) d u Hd Hu Hm fuel _ _ [] order
                            (kahn_init_inv (length g) d)
                            (kahn_init_ord (length g) d) E) as [inc' [HI HO]].
  assert (Hseen : forall v, In v order <-> (v < length g)%nat /\ nth v inc' 0 <= 0).
  { intros v. rewrite <- (kahn_seen _ _ _ _ HI v), app_nil_r. tauto. }
  split; [|split; [|split]].
  - assert (Hn := kahn_nodup _ _ _ _ HI). rewrite app_nil_r in Hn. exact Hn.
  - intros v Hv. apply Hseen; exact Hv.
  - apply (ord_sorted _ _ _ _ _ _ HO).
  - intros v Hv Hnot. apply pending_positive.
    assert (Hc := ord_count _ _ _ _ _ _ HO v Hv). cbn [count_occ] in Hc.
    destruct (Z_le_gt_dec (nth v inc' 0) 0) as [Hle|Hgt]; [|lia].
    exfalso. apply Hnot. apply Hseen. split; assumption.
Qed.

(** X9.  When every edge is listed once in each direction, the order that
    Kahn's loop builds lists every producer of a node before the node: the
    statement that ends up at position [i] has all its producers at
    positions below [i]. *)
Theorem kahn_order_producers_first :
  forall (fuel : nat) (stmts : list Stmt) (dependencies usage_links : vec2d)
         (order : list nat),
    in_range (length stmts) dependencies = true ->
    in_range (length stmts) usage_links = true ->
    mirrored dependencies usage_links = true ->
    sortedOrder fuel stmts dependencies usage_links = Some order ->
    NoDup order
    /\ (forall v, In v order -> (v < length stmts)%nat)
    /\ (forall i j, (i < length order)%nat ->
                    In j (row dependencies (nth i order 0%nat)) ->
                    exists k, (k < i)%nat /\ nth k order 0%nat = j).
Proof.
  intros fuel g d u order Hd Hu Hm E.
  destruct (sortedOrder_spec fuel g d u order Hd Hu Hm E) as [Hn [Hlt [Hp _]]].
  split; [exact Hn|]. split; [exact Hlt|exact Hp].
Qed.

Lemma kahn_order_producers_first_witness :
  in_range (length unordered3) unordered3_deps = true
  /\ in_range (length unordered3) unordered3_uses = true
  /\ mirrored unordered3_deps unordered3_uses = true
  /\ sortedOrder 10 unordered3 unordered3_deps unordered3_uses = Some [0; 2; 1]%nat
  /\ NoDup [0; 2; 1]%nat.
Proof.
  split; [reflexivity|]. split; [reflexivity|]. split; [reflexivity|].
  split; [reflexivity|].
  apply (kahn_order_producers_first 10 unordered3 unordered3_deps unordered3_uses
                                    [0; 2; 1]%nat); reflexivity.
Defined.

(** ** When the canonicalizer throws *)

Lemma some_node_missing : forall n (order : list nat),
    (length order < n)%nat -> exists v, (v < n)%nat /\ ~ In v order.
Proof.
  intros n order Hlen.
  destruct (filter (fun v => negb (existsb (Nat.eqb v) order)) (seq 0 n)) as [|v l] eqn:E.
  - exfalso.
    assert (Hincl : incl (seq 0 n) order).
    { intros v Hv. destruct (existsb (Nat.eqb v) order) eqn:Ev;
        [apply existsb_eqb_In; exact Ev|].
      assert (Hin : In v (filter (fun v => negb (existsb (Nat.eqb v) order)) (seq 0 n)))
        by (apply filter_In; split; [exact Hv|rewrite Ev; reflexivity]).
      rewrite E in Hin. destruct Hin. }
    assert (Hle := NoDup_incl_length (seq_NoDup n 0) Hincl).
    rewrite length_seq in Hle. lia.
  - assert (Hin : In v (filter (fun v => negb (existsb (Nat.eqb v) order)) (seq 0 n)))
      by (rewrite E; left; reflexivity).
    apply filter_In in Hin. destruct Hin as [Hv Hn]. apply in_seq in Hv.
    exists v. split; [lia|]. intros Hin. apply existsb_eqb_In in Hin.
    rewrite Hin in Hn. discriminate.
Qed.

(** In a finite set in which every node has a successor, a walk that never
    repeats a node cannot go on: it closes a cycle. *)
Lemma walk_closes_cycle :
  forall (R : nat -> nat -> Prop) (U : nat -> Prop) (n : nat),
    (forall v, U v -> (v < n)%nat) ->
    (forall v, U v -> exists j, U j /\ R v j) ->
    forall m w h,
      (n - length w <= m)%nat -> NoDup w -> In h w ->
      (forall x, In x w -> U x /\ (x = h \/ clos_trans nat R x h)) ->
      exists i, clos_trans nat R i i.
Proof.
  intros R U n Hlt Hnext m; induction m as [|m IH]; intros w h Hm Hnd Hh Hw;
    destruct (Hnext h (proj1 (Hw h Hh))) as [j [Uj Rj]];
    destruct (in_dec Nat.eq_dec j w) as [Hin|Hnot];
    try (destruct (proj2 (Hw j Hin)) as [->|Hp];
         [exists h; apply t_step; exact Rj
         |exists j; apply (t_trans _ _ _ h); [exact Hp|apply t_step; exact Rj]]).
  - exfalso.
    assert (Hincl : incl (j :: w) (seq 0 n)).
    { intros x [<-|Hx]; apply in_seq; [specialize (Hlt _ Uj)
                                      |specialize (Hlt x (proj1 (Hw x Hx)))]; lia. }
    assert (Hle := NoDup_incl_length (NoDup_cons j Hnot Hnd) Hincl).
    rewrite length_seq in Hle. simpl in Hle. lia.
  - apply (IH (j :: w) j).
    + simpl. lia.
    + constructor; assumption.
    + left; reflexivity.
    + intros x [<-|Hx]; [split; [exact Uj|left; reflexivity]|].
      destruct (Hw x Hx) as [Ux [->|Hp]]; (split; [exact Ux|right]).
      * apply t_step; exact Rj.
      * apply (t_trans _ _ _ h); [exact Hp|apply t_step; exact Rj].
Qed.

Lemma depends_on_lt : forall d n i j,
    clos_trans nat (depends_on d n) i j -> (i < n)%nat.
Proof.
  intros d n i j H. induction H as [i j [Hi _]|i k j _ IH1 _ _]; assumption.
Qed.

Lemma producers_first_path : forall d n order,
    producers_first d order ->
    forall i j, clos_trans nat (depends_on d n) i j ->
    forall p, (p < length order)%nat -> nth p order 0%nat = i ->
              exists k, (k < p)%nat /\ nth k order 0%nat = j.
Proof.
  intros d n order Hp i j H. induction H as [i j [_ Hj]|i m j _ IH1 _ IH2]; intros p Hlt E.
  - apply (Hp p j Hlt). rewrite E. exact Hj.
  - destruct (IH1 p Hlt E) as [k [Hk Ek]].
    destruct (IH2 k ltac:(lia) Ek) as [k' [Hk' Ek']].
    exists k'. split; [lia|exact Ek'].
Qed.

(** X10.  When the sort runs on a graph whose edges are listed once in
    each direction, it throws exactly when some statement reaches itself
    along the dependency vectors. *)
Theorem reorder_throws_iff_cycle :
  forall (fuel : nat) (stmts : list Stmt) (dependencies usage_links : vec2d),
    validateTopologicalOrder stmts dependencies = false ->
    in_range (length stmts) dependencies = true ->
    in_range (length stmts) usage_links = true ->
    mirrored dependencies usage_links = true ->
    (length stmts < fuel)%nat ->
    (reorderToTopological fuel stmts dependencies usage_links = Throw cycle_msg
     <-> exists i, clos_trans nat (depends_on dependencies (length stmts)) i i).
Proof.
  intros fuel g d u Hv Hd Hu Hm Hf.
  rewrite (reorder_by_sortedOrder fuel g d u Hv).
  destruct (kahn_total (length g) u fuel _ _ [] (kahn_init_inv (length g) d))
    as [order [inc' [E _]]]; [simpl; lia|].
  fold (sortedOrder fuel g d u) in E. rewrite E.
  destruct (sortedOrder_spec fuel g d u order Hd Hu Hm E) as [Hnd [Hlt [Hp Hmiss]]].
  destruct (length order <? length g)%nat eqn:Hlen.
  - apply Nat.ltb_lt in Hlen. split; [intros _|reflexivity].
    destruct (some_node_missing (length g) order Hlen) as [v [Hvn Hvo]].
    apply (walk_closes_cycle (depends_on d (length g))
                             (fun x => (x < length g)%nat /\ ~ In x order)
                             (length g)) with (m := length g) (w := [v]) (h := v).
    + intros x [Hx _]. exact Hx.
    + intros x [Hx Hxo]. destruct (Hmiss x Hx Hxo) as [j [Hj Hjo]].
      exists j. split; [split; [|exact Hjo]|split; [exact Hx|exact Hj]].
      apply (proj2 (in_range_spec _ _ Hd) x j Hj).
    + lia.
    + constructor; [intros []|constructor].
    + left; reflexivity.
    + intros x [<-|[]]. split; [split; assumption|left; reflexivity].
  - apply Nat.ltb_ge in Hlen. cbv zeta. split; [discriminate|].
    intros [i Hc]. exfalso.
    assert (Hi := depends_on_lt d (length g) i i Hc).
    assert (Hperm := full_order_permutation (length g) order Hnd Hlt Hlen).
    assert (Hin : In i order)
      by (apply (Permutation_in i (Permutation_sym Hperm)); apply in_seq; lia).
    destruct (In_nth order i 0%nat Hin) as [p [Hpl Ep]].
    destruct (producers_first_path d (length g) order Hp i i Hc p Hpl Ep) as [k [Hk Ek]].
    assert (k = p) by (apply (proj1 (NoDup_nth order 0%nat) Hnd); [lia|lia|congruence]).
    lia.
Qed.

Lemma reorder_throws_iff_cycle_witness :
  validateTopologicalOrder cyclic2 cyclic2_edges = false
  /\ in_range (length cyclic2) cyclic2_edges = true
  /\ mirrored cyclic2_edges cyclic2_edges = true
  /\ (length cyclic2 < 3)%nat
  /\ (reorderToTopological 3 cyclic2 cyclic2_edges cyclic2_edges = Throw cycle_msg
      <-> exists i, clos_trans nat (depends_on cyclic2_edges (length cyclic2)) i i).
Proof.
  split; [reflexivity|]. split; [reflexivity|]. split; [reflexivity|].
  split; [simpl; lia|].
  apply (reorder_throws_iff_cycle 3 cyclic2 cyclic2_edges cyclic2_edges);
    try reflexivity.
  simpl; lia.
Defined.

(** * The ALAP pass *)

Lemma fold_min_le_init : forall (f : nat -> Z) l a,
    fold_left (fun acc j => Z.min acc (f j)) l a <= a.
Proof.
  intros f l; induction l as [|x l IH]; intros a; simpl; [lia|].
  specialize (IH (Z.min a (f x))). lia.
Qed.

Lemma fold_min_le_in : forall (f : nat -> Z) l a j,
    In j l -> fold_left (fun acc j => Z.min acc (f j)) l a <= f j.
Proof.
  intros f l; induction l as [|x l IH]; intros a j H; [destruct H|]. simpl.
  destruct H as [->|H]; [|apply IH; exact H].
  assert (Hi := fold_min_le_init f l (Z.min a (f j))). lia.
Qed.

Lemma fold_min_cases : forall (f : nat -> Z) l a,
    fold_left (fun acc j => Z.min acc (f j)) l a = a
    \/ exists j, In j l /\ fold_left (fun acc j => Z.min acc (f j)) l a = f j.
Proof.
  intros f l; induction l as [|x l IH]; intros a; simpl; [left; reflexivity|].
  destruct (IH (Z.min a (f x))) as [E|[j [Hj E]]].
  - rewrite E. destruct (Z_le_gt_dec a (f x)) as [H|H].
    + left. lia.
    + right. exists x. split; [left; reflexivity|lia].
  - right. exists j. split; [right; exact Hj|exact E].
Qed.

Lemma fold_min_attained : forall (f : nat -> Z) l a,
    l <> [] -> (forall j, In j l -> f j <= a) ->
    exists j, In j l /\ fold_left (fun acc j => Z.min acc (f j)) l a = f j.
Proof.
  intros f l a Hne H. destruct (fold_min_cases f l a) as [E|Hj]; [|exact Hj].
  destruct l as [|x l]; [congruence|].
  exists x. split; [left; reflexivity|].
  assert (H1 := fold_min_le_in f (x :: l) a x (or_introl eq_refl)).
  assert (H2 := H x (or_introl eq_refl)). lia.
Qed.

Section AlapCorrect.

Variable stmts : list Stmt.
Variables dependencies usage_links : vec2d.
Variable asapLatency : Z.
Hypothesis Hwf : wf_dfg stmts dependencies usage_links = true.
Hypothesis Htopo : topological dependencies = true.

Local Abbreviation n := (length stmts).
Local Abbreviation startIn ss i := (start_cycle (stmt_at ss i)).
Local Abbreviation spanIn ss i := (Z.max (latency (op (stmt_at ss i))) 1).

Lemma uses_above : forall i j, In j (row usage_links i) -> (i < j)%nat /\ (j < n)%nat.
Proof.
  intros i j Hj.
  destruct (wf_dfg_spec _ _ _ Hwf) as [_ [_ Hu]].
  destruct (Hu i j Hj) as [_ [Hjn Hd]].
  split; [apply (deps_below dependencies Htopo j i Hd)|exact Hjn].
Qed.

(** Writing the start cycle of statement [k], once its successors have
    theirs. *)
Lemma alap_place : forall k ss e v e',
    (k < n)%nat ->
    AlapInv usage_links stmts asapLatency (S k) ss e ->
    v <= asapLatency ->
    (row usage_links k = [] ->
     v = asapLatency - Z.max (latency (op (stmt_at ss k)) - 1) 0 /\ e' = e) ->
    (forall j, In j (row usage_links k) -> v + spanIn ss k <= startIn ss j) ->
    (row usage_links k <> [] ->
     (exists j, In j (row usage_links k) /\ v + spanIn ss k = startIn ss j)
     /\ e' = Z.min e v) ->
    AlapInv usage_links stmts asapLatency k (upd k (with_start v) ss) e'.
Proof.
  intros k ss e v e' Hk H Hv Hsink Hprec Htight.
  assert (Hlen : length ss = n) by (apply static_length; apply (alap_static _ _ _ _ _ _ H)).
  assert (Hsame : stmt_at (upd k (with_start v) ss) k = with_start v (stmt_at ss k))
    by (apply stmt_at_upd_same; lia).
  assert (Hother : forall i, i <> k -> stmt_at (upd k (with_start v) ss) i = stmt_at ss i)
    by (intros i Hi; apply stmt_at_upd_other; congruence).
  assert (He : e' <= e /\ (row usage_links k <> [] -> e' <= v)).
  { destruct (row usage_links k) as [|x l] eqn:Hrow.
    - destruct (Hsink eq_refl) as [_ ->]. split; [lia|congruence].
    - destruct (Htight ltac:(discriminate)) as [_ ->]. split; [lia|intros _; lia]. }
  destruct He as [He1 He2].
  constructor.
  - rewrite static_upd_const. apply (alap_static _ _ _ _ _ _ H).
  - intros i Hki Hi. destruct (Nat.eq_dec i k) as [->|Hne].
    + rewrite Hsame. exact Hv.
    + rewrite Hother by exact Hne. apply (alap_top _ _ _ _ _ _ H); lia.
  - intros i Hki Hi Hrow. destruct (Nat.eq_dec i k) as [->|Hne].
    + rewrite Hsame. cbn [with_start start_cycle op]. apply (Hsink Hrow).
    + rewrite Hother by exact Hne. apply (alap_sink _ _ _ _ _ _ H); [lia|exact Hi|exact Hrow].
  - intros i j Hki Hi Hj.
    assert (Hjk : j <> k) by (destruct (uses_above i j Hj); lia).
    rewrite (Hother j Hjk).
    destruct (Nat.eq_dec i k) as [->|Hne].
    + rewrite Hsame. cbn [with_start start_cycle op]. apply Hprec; exact Hj.
    + rewrite Hother by exact Hne. apply (alap_prec _ _ _ _ _ _ H); [lia|exact Hi|exact Hj].
  - intros i Hki Hi Hrow. destruct (Nat.eq_dec i k) as [->|Hne].
    + destruct (Htight Hrow) as [[j [Hj E]] _]. exists j. split; [exact Hj|].
      assert (Hjk : j <> k) by (destruct (uses_above k j Hj); lia).
      rewrite Hsame, (Hother j Hjk). cbn [with_start start_cycle op]. exact E.
    + destruct (alap_tight _ _ _ _ _ _ H i ltac:(lia) Hi Hrow) as [j [Hj E]].
      exists j. split; [exact Hj|].
      assert (Hjk : j <> k) by (destruct (uses_above i j Hj); lia).
      rewrite (Hother i Hne), (Hother j Hjk). exact E.
  - intros i Hki Hi Hrow. destruct (Nat.eq_dec i k) as [->|Hne].
    + rewrite Hsame. cbn [with_start start_cycle]. apply He2; exact Hrow.
    + rewrite Hother by exact Hne.
      assert (H1 := alap_early _ _ _ _ _ _ H i ltac:(lia) Hi Hrow). lia.
  - destruct (row usage_links k) as [|x l] eqn:Hrow.
    + destruct (Hsink eq_refl) as [_ ->].
      destruct (alap_reached _ _ _ _ _ _ H) as [E|[i [Hki [Hi [Hr E]]]]];
        [left; exact E|right].
      exists i. split; [lia|]. split; [exact Hi|]. split; [exact Hr|].
      rewrite Hother by lia. exact E.
    + destruct (Htight ltac:(discriminate)) as [_ ->]. right.
      destruct (Z_le_gt_dec e v) as [Hle|Hgt].
      * rewrite Z.min_l by exact Hle.
        destruct (alap_reached _ _ _ _ _ _ H) as [E|[i [Hki [Hi [Hr E]]]]].
        -- exists k. split; [lia|]. split; [exact Hk|]. split; [rewrite Hrow; discriminate|].
           rewrite Hsame. cbn [with_start start_cycle]. lia.
        -- exists i. split; [lia|]. split; [exact Hi|]. split; [exact Hr|].
           rewrite Hother by lia. exact E.
      * rewrite Z.min_r by lia.
        exists k. split; [lia|]. split; [exact Hk|]. split; [rewrite Hrow; discriminate|].
        rewrite Hsame. reflexivity.
Qed.

Lemma alap_step_inv : forall k ss e,
    (k < n)%nat ->
    AlapInv usage_links stmts asapLatency (S k) ss e ->
    AlapInv usage_links stmts asapLatency k
            (fst (alap_step usage_links asapLatency (ss, e) k))
            (snd (alap_step usage_links asapLatency (ss, e) k)).
Proof.
  intros k ss e Hk H.
  assert (Hik : idx (stmt_at ss k) = k).
  { rewrite (static_idx ss stmts k (alap_static _ _ _ _ _ _ H)).
    apply (proj1 (wf_dfg_spec _ _ _ Hwf)). exact Hk. }
  unfold alap_step. rewrite Hik.
  destruct (row usage_links k) as [|x l] eqn:Hrow; cbn [fst snd].
  - apply (alap_place k ss e); try assumption.
    + lia.
    + intros _. split; reflexivity.
    + rewrite Hrow. intros j [].
    + rewrite Hrow. congruence.
  - set (f := fun j => startIn ss j - spanIn ss k).
    change (fold_left (fun acc successorIndex =>
                         Z.min acc (start_cycle (stmt_at ss successorIndex)
                                    - Z.max (latency (op (stmt_at ss k))) 1))
                      (x :: l) asapLatency)
      with (fold_left (fun acc j => Z.min acc (f j)) (x :: l) asapLatency).
    assert (Hbelow : forall j, In j (x :: l) -> f j <= asapLatency).
    { intros j Hj. rewrite <- Hrow in Hj. destruct (uses_above k j Hj) as [Hkj Hjn].
      assert (Ht := alap_top _ _ _ _ _ _ H j ltac:(lia) Hjn). unfold f. lia. }
    apply (alap_place k ss e); try assumption.
    + apply fold_min_le_init.
    + rewrite Hrow. discriminate.
    + rewrite Hrow. intros j Hj.
      assert (Hle := fold_min_le_in f (x :: l) asapLatency j Hj). unfold f in Hle at 2. lia.
    + rewrite Hrow. intros _. split; [|reflexivity].
      destruct (fold_min_attained f (x :: l) asapLatency ltac:(discriminate) Hbelow)
        as [j [Hj E]].
      exists j. split; [exact Hj|]. rewrite E. unfold f. lia.
Qed.

Lemma alap_loop_inv : forall m k,
    (k + m = n)%nat ->
    AlapInv usage_links stmts asapLatency k
            (fst (fold_right (fun i st => alap_step usage_links asapLatency st i)
                             (reset_starts stmts, asapLatency) (seq k m)))
            (snd (fold_right (fun i st => alap_step usage_links asapLatency st i)
                             (reset_starts stmts, asapLatency) (seq k m))).
Proof.
  induction m as [|m IH]; intros k Hk.
  - simpl. constructor; try (intros; lia). apply static_reset.
  - cbn [seq fold_right].
    specialize (IH (S k) ltac:(lia)).
    destruct (fold_right (fun i st => alap_step usage_links asapLatency st i)
                         (reset_starts stmts, asapLatency) (seq (S k) m)) as [ss e].
    apply alap_step_inv; [lia|exact IH].
Qed.

End AlapCorrect.

Lemma stmt_at_shift : forall e ss i,
    (i < length ss)%nat ->
    stmt_at (alap_shift e ss) i
    = with_start (start_cycle (stmt_at ss i) - (e - 1)) (stmt_at ss i).
Proof.
  intros e ss i Hi. unfold stmt_at, alap_shift.
  rewrite (nth_indep _ dStmt
             ((fun s => with_start (start_cycle s - (e - 1)) s) dStmt))
    by (rewrite length_map; exact Hi).
  apply (map_nth (fun s => with_start (start_cycle s - (e - 1)) s)).
Qed.

(** X11.  On a well-formed graph in topological order, the ALAP pass
    leaves a schedule in which every statement with successors starts at
    cycle 1 or later, at least [max(latency, 1)] cycles before each of its
    successors and exactly that many before one of them; every statement
    without successors completes in the last cycle, the latency that is
    returned; when some statement has a successor, some statement starts
    in cycle 1; and no assignment of cycles that keeps the same distances
    and lets no statement complete after the returned latency puts a
    statement later. *)
Theorem alap_correct :
  forall (stmts : list Stmt) (dependencies usage_links : vec2d) (asapLatency : Z)
         (stmts' : list Stmt) (L : Z),
    wf_dfg stmts dependencies usage_links = true ->
    topological dependencies = true ->
    scheduleALAP stmts usage_links asapLatency = (stmts', L) ->
    map static stmts' = map static stmts
    /\ (forall i j, (i < length stmts)%nat -> In j (row usage_links i) ->
                    start_cycle (stmt_at stmts' i)
                    + Z.max (latency (op (stmt_at stmts' i))) 1
                    <= start_cycle (stmt_at stmts' j))
    /\ (forall i, (i < length stmts)%nat -> row usage_links i <> [] ->
                  1 <= start_cycle (stmt_at stmts' i)
                  /\ exists j, In j (row usage_links i)
                               /\ start_cycle (stmt_at stmts' i)
                                  + Z.max (latency (op (stmt_at stmts' i))) 1
                                  = start_cycle (stmt_at stmts' j))
    /\ (forall i, (i < length stmts)%nat -> row usage_links i = [] ->
                  start_cycle (stmt_at stmts' i)
                  + Z.max (latency (op (stmt_at stmts' i)) - 1) 0 = L)
    /\ ((exists i, (i < length stmts)%nat /\ row usage_links i <> []) ->
        exists i, (i < length stmts)%nat /\ start_cycle (stmt_at stmts' i) = 1)
    /\ (forall s : nat -> Z,
           (forall i j, (i < length stmts)%nat -> In j (row usage_links i) ->
                        s i + Z.max (latency (op (stmt_at stmts' i))) 1 <= s j) ->
           (forall i, (i < length stmts)%nat -> row usage_links i = [] ->
                      s i + Z.max (latency (op (stmt_at stmts' i)) - 1) 0 <= L) ->
           forall i, (i < length stmts)%nat -> s i <= start_cycle (stmt_at stmts' i)).
Proof.
  intros stmts deps uses A stmts' L Hwf Htopo E.
  assert (Hfold : fold_left (alap_step uses A) (rev (seq 0 (length stmts)))
                            (reset_starts stmts, A)
                  = fold_right (fun i st => alap_step uses A st i)
                               (reset_starts stmts, A) (seq 0 (length stmts))).
  { rewrite <- (rev_involutive (seq 0 (length stmts))) at 2.
    rewrite fold_left_rev_right. reflexivity. }
  assert (H := alap_loop_inv stmts deps uses A Hwf Htopo (length stmts) 0%nat eq_refl).
  unfold scheduleALAP in E. rewrite Hfold in E.
  destruct (fold_right (fun i st => alap_step uses A st i)
                       (reset_starts stmts, A) (seq 0 (length stmts))) as [ss e].
  cbn [fst snd] in H. injection E as <- <-.
  assert (Hlen : length ss = length stmts)
    by (apply static_length; apply (alap_static _ _ _ _ _ _ H)).
  assert (Hat : forall i, (i < length stmts)%nat ->
                  stmt_at (alap_shift e ss) i
                  = with_start (start_cycle (stmt_at ss i) - (e - 1)) (stmt_at ss i))
    by (intros i Hi; apply stmt_at_shift; lia).
  assert (Hup : forall i j, In j (row uses i) -> (i < j)%nat /\ (j < length stmts)%nat)
    by (apply (uses_above stmts deps uses Hwf Htopo)).
  assert (HeA : e <= A).
  { destruct (alap_reached _ _ _ _ _ _ H) as [->|[i [_ [Hi [_ ->]]]]]; [lia|].
    apply (alap_top _ _ _ _ _ _ H); [lia|exact Hi]. }
  assert (Hcompl : forall i, (i < length stmts)%nat ->
                     completion (stmt_at (alap_shift e ss) i) <= A - (e - 1)).
  { intros i Hi. rewrite (Hat i Hi). unfold completion. cbn [with_start start_cycle op].
    destruct (row uses i) as [|x l] eqn:Hrow.
    - rewrite (alap_sink _ _ _ _ _ _ H i ltac:(lia) Hi Hrow). lia.
    - assert (Hx : In x (row uses i)) by (rewrite Hrow; left; reflexivity).
      assert (Hp := alap_prec _ _ _ _ _ _ H i x ltac:(lia) Hi Hx).
      assert (Ht := alap_top _ _ _ _ _ _ H x ltac:(lia) (proj2 (Hup i x Hx))). lia. }
  assert (Hlen' : length (alap_shift e ss) = length stmts)
    by (unfold alap_shift; rewrite length_map; exact Hlen).
  assert (Hsinks : forall i, (i < length stmts)%nat -> row uses i = [] ->
                     start_cycle (stmt_at (alap_shift e ss) i)
                     + Z.max (latency (op (stmt_at (alap_shift e ss) i)) - 1) 0
                     = schedule_latency (alap_shift e ss)).
  { intros i Hi Hrow.
    assert (Hc : completion (stmt_at (alap_shift e ss) i) = A - (e - 1)).
    { rewrite (Hat i Hi). unfold completion. cbn [with_start start_cycle op].
      rewrite (alap_sink _ _ _ _ _ _ H i ltac:(lia) Hi Hrow). lia. }
    unfold completion in Hc. rewrite Hc.
    apply Z.le_antisymm.
    + rewrite <- Hc. apply (schedule_latency_ge (alap_shift e ss) i). lia.
    + unfold schedule_latency. rewrite fold_max_map. apply fold_max_le; [lia|].
      intros x Hx. apply in_map_iff in Hx. destruct Hx as [s [<- Hs]].
      apply In_nth with (d := dStmt) in Hs. destruct Hs as [k [Hk <-]].
      apply (Hcompl k). lia. }
  assert (Htight : forall i, (i < length stmts)%nat -> row uses i <> [] ->
                     exists j, In j (row uses i)
                               /\ start_cycle (stmt_at (alap_shift e ss) i)
                                  + Z.max (latency (op (stmt_at (alap_shift e ss) i))) 1
                                  = start_cycle (stmt_at (alap_shift e ss) j)).
  { intros i Hi Hrow. rewrite (Hat i Hi). cbn [with_start start_cycle op].
    destruct (alap_tight _ _ _ _ _ _ H i ltac:(lia) Hi Hrow) as [j [Hj Ej]].
    exists j. split; [exact Hj|]. rewrite (Hat j (proj2 (Hup i j Hj))).
    cbn [with_start start_cycle]. lia. }
  split; [|split; [|split; [|split; [|split]]]].
  - unfold alap_shift. rewrite map_map.
    change (map (fun s => static (with_start (start_cycle s - (e - 1)) s)) ss)
      with (map static ss).
    apply (alap_static _ _ _ _ _ _ H).
  - intros i j Hi Hj. rewrite (Hat i Hi), (Hat j (proj2 (Hup i j Hj))).
    cbn [with_start start_cycle op].
    assert (Hp := alap_prec _ _ _ _ _ _ H i j ltac:(lia) Hi Hj). lia.
  - intros i Hi Hrow. split; [|apply Htight; assumption].
    rewrite (Hat i Hi). cbn [with_start start_cycle op].
    assert (He := alap_early _ _ _ _ _ _ H i ltac:(lia) Hi Hrow). lia.
  - exact Hsinks.
  - intros [i [Hi Hrow]].
    destruct (alap_reached _ _ _ _ _ _ H) as [Ee|[k [_ [Hk [_ Ee]]]]].
    + exfalso.
      assert (He := alap_early _ _ _ _ _ _ H i ltac:(lia) Hi Hrow).
      destruct (alap_tight _ _ _ _ _ _ H i ltac:(lia) Hi Hrow) as [j [Hj Ej]].
      assert (Ht := alap_top _ _ _ _ _ _ H j ltac:(lia) (proj2 (Hup i j Hj))). lia.
    + exists k. split; [exact Hk|]. rewrite (Hat k Hk). cbn [with_start start_cycle]. lia.
  - intros s Hprec Hend i Hi.
    remember (length stmts - i)%nat as m eqn:Hm. revert i Hi Hm.
    induction m as [m IH] using lt_wf_ind. intros i Hi Hm.
    destruct (row uses i) as [|x l] eqn:Hrow.
    + assert (H1 := Hend i Hi Hrow). assert (H2 := Hsinks i Hi Hrow). lia.
    + destruct (Htight i Hi ltac:(rewrite Hrow; discriminate)) as [j [Hj Ej]].
      destruct (Hup i j Hj) as [Hij Hjn].
      assert (H1 := Hprec i j Hi Hj).
      assert (H2 := IH (length stmts - j)%nat ltac:(lia) j Hjn eq_refl). lia.
Qed.

Lemma alap_correct_witness :
  wf_dfg chain3 chain3_deps chain3_uses = true
  /\ topological chain3_deps = true
  /\ scheduleALAP chain3 chain3_uses 3
     = ([mkStmt 0 add_op 1; mkStmt 1 add_op 2; mkStmt 2 add_op 3], 3)
  /\ map static [mkStmt 0 add_op 1; mkStmt 1 add_op 2; mkStmt 2 add_op 3]
     = map static chain3.
Proof.
  split; [reflexivity|]. split; [reflexivity|]. split; [reflexivity|].
  apply (alap_correct chain3 chain3_deps chain3_uses 3
           [mkStmt 0 add_op 1; mkStmt 1 add_op 2; mkStmt 2 add_op 3] 3); reflexivity.
Defined.

(** * The pipeline *)

Lemma topological_validates : forall g d,
    topological d = true -> validateTopologicalOrder g d = true.
Proof.
  intros g d Htopo. unfold validateTopologicalOrder.
  apply forallb_forall. intros s _. apply forallb_forall. intros j Hj.
  assert (H := deps_below d Htopo (idx s) j Hj).
  apply negb_true_iff. apply Nat.ltb_ge. lia.
Qed.

Lemma indexed_static : forall g1 g2,
    map static g1 = map static g2 -> indexed g1 = indexed g2.
Proof.
  intros g1 g2 H. unfold indexed. rewrite (static_length g1 g2 H).
  generalize (seq 0 (length g2)) as l.
  induction l as [|i l IH]; [reflexivity|]. simpl.
  rewrite IH, (static_idx g1 g2 i H). reflexivity.
Qed.

Lemma wf_dfg_static : forall g1 g2 d u,
    map static g1 = map static g2 -> wf_dfg g1 d u = wf_dfg g2 d u.
Proof.
  intros g1 g2 d u H. unfold wf_dfg.
  rewrite (indexed_static g1 g2 H), (static_length g1 g2 H). reflexivity.
Qed.

Lemma schedulable_static : forall T g1 g2,
    map static g1 = map static g2 -> schedulable T g1 = schedulable T g2.
Proof.
  intros T. induction g1 as [|a g1 IH]; intros [|b g2] H; simpl in H;
    try discriminate; [reflexivity|].
  injection H as Hi Ho Ht. simpl. rewrite (IH g2 Ht). f_equal.
  unfold placeable. rewrite Ho. reflexivity.
Qed.

Lemma schedule_fast_path :
  forall (PQ : PriorityQueue) fuel T d u g,
    validateTopologicalOrder g d = true ->
    exists s2 l2,
      map static s2 = map static g
      /\ schedule fuel T d u g
         = match scheduleByList fuel T d u s2 with
           | None => OutOfFuel
           | Some r => Done r
           end
      /\ scheduleALAP (fst (scheduleASAP g d)) u (snd (scheduleASAP g d)) = (s2, l2).
Proof.
  intros PQ fuel T d u g Hv. unfold schedule, reorderToTopological. rewrite Hv.
  assert (Ha := asap_static_kept g d).
  destruct (scheduleASAP g d) as [s1 l1]. cbn [fst snd] in *.
  assert (Hb := alap_static_kept s1 u l1).
  destruct (scheduleALAP s1 u l1) as [s2 l2]. cbn [fst] in Hb.
  exists s2, l2. split; [rewrite Hb; exact Ha|]. split; reflexivity.
Qed.

(** X12.  The validation of lines 20-29 rejects a producer index that is
    larger than the statement's own, not one that is equal: a graph in
    which a statement reaches itself passes it, and [schedule] then never
    returns. *)
Theorem schedule_cycle_runs_forever :
  forall (PQ : PriorityQueue) (cycleTime : Q) (deps0 uses0 : vec2d)
         (graph : list Stmt) (i : nat),
    validateTopologicalOrder graph deps0 = true ->
    clos_trans nat (depends_on deps0 (length graph)) i i ->
    forall fuel, schedule fuel cycleTime deps0 uses0 graph = OutOfFuel.
Proof.
  intros PQ T d u g i Hv Hc fuel.
  destruct (schedule_fast_path PQ fuel T d u g Hv) as [s2 [l2 [Hs [E _]]]].
  rewrite E.
  destruct (scheduleByList fuel T d u s2) as [[s3 l3]|] eqn:El; [exfalso|reflexivity].
  rewrite <- (static_length s2 g Hs) in Hc.
  assert (H := path_starts_earlier PQ fuel T d u s2 s3 l3 El i i Hc). lia.
Qed.

Lemma schedule_cycle_runs_forever_witness :
  validateTopologicalOrder self_loop self_loop_edges = true
  /\ clos_trans nat (depends_on self_loop_edges (length self_loop)) 0%nat 0%nat
  /\ forall fuel,
      schedule (PQ := list_queue) fuel 1 self_loop_edges self_loop_edges self_loop
      = OutOfFuel.
Proof.
  assert (Hc : clos_trans nat (depends_on self_loop_edges (length self_loop)) 0%nat 0%nat)
    by (apply t_step; split; [simpl; lia|simpl; auto]).
  split; [reflexivity|]. split; [exact Hc|].
  apply (schedule_cycle_runs_forever list_queue 1 self_loop_edges self_loop_edges
                                     self_loop 0%nat eq_refl Hc).
Defined.

Lemma final_busy_count :
  forall (PQ : PriorityQueue) fuel T d u stmts0 stmts' L,
    scheduleByList fuel T d u stmts0 = Some (stmts', L) ->
    forall k c, 0 <= limit k -> busy_count stmts' k c <= limit k.
Proof.
  intros PQ fuel T d u stmts0 stmts' L E k c Hk.
  destruct (scheduleByList_final T d u stmts0 fuel stmts' L E)
    as [st [Hs [H [Hall _]]]].
  assert (Hres := inv_res _ _ _ _ _ H k c Hk). rewrite Hs in Hres.
  unfold busy_count.
  rewrite (filter_ext_in (busy k c) (active_op k c)); [exact Hres|].
  intros x Hx. unfold active_op.
  apply In_nth with (d := dStmt) in Hx. destruct Hx as [i [Hi <-]].
  rewrite <- Hs in Hi |- *. rewrite (inv_length _ _ _ _ _ H) in Hi.
  assert (Hd := inv_done _ _ _ _ _ H i (Hall i Hi)). unfold stmt_at in Hd.
  destruct (start_cycle (nth i (statements st) dStmt) =? 0) eqn:Hz;
    [apply Z.eqb_eq in Hz; lia|reflexivity].
Qed.

(** X13.  The three passes together: for a well-formed graph in
    topological order in which every statement can be placed on its own,
    [schedule] returns; what it returns are the statements it was given,
    each with a start cycle of 1 or more that lies at least
    [max(latency, 1)] after the start of each of its producers, with no op
    kind over its limit in any cycle, and the latency it prints is the
    last cycle in which a statement is busy. *)
Theorem schedule_returns_valid_schedule :
  forall (PQ : PriorityQueue) (cycleTime : Q) (deps0 uses0 : vec2d) (graph : list Stmt),
    wf_dfg graph deps0 uses0 = true ->
    topological deps0 = true ->
    schedulable cycleTime graph = true ->
    exists fuel graph' L,
      schedule fuel cycleTime deps0 uses0 graph = Done (graph', L)
      /\ map static graph' = map static graph
      /\ (forall i, (i < length graph)%nat -> 1 <= start_cycle (stmt_at graph' i) <= L)
      /\ (forall i j, In j (row deps0 i) ->
                      start_cycle (stmt_at graph' j)
                      + Z.max (latency (op (stmt_at graph' j))) 1
                      <= start_cycle (stmt_at graph' i))
      /\ (forall k c, 0 <= limit k -> busy_count graph' k c <= limit k)
      /\ L = Zmax_list (map completion graph').
Proof.
  intros PQ T d u g Hwf Htopo Hsched.
  assert (Hv := topological_validates g d Htopo).
  destruct (schedule_fast_path PQ 0 T d u g Hv) as [s2 [l2 [Hs [_ Ealap]]]].
  assert (Hwf2 : wf_dfg s2 d u = true) by (rewrite (wf_dfg_static s2 g d u Hs); exact Hwf).
  assert (Hsched2 : schedulable T s2 = true)
    by (rewrite (schedulable_static T s2 g Hs); exact Hsched).
  destruct (scheduleByList_total T d u s2 Hwf2 Htopo Hsched2) as [fuel [[g' L] El]].
  destruct (schedule_fast_path PQ fuel T d u g Hv) as [s2' [l2' [_ [E Ealap']]]].
  rewrite Ealap in Ealap'. injection Ealap' as <- <-. rewrite El in E.
  exists fuel, g', L. split; [exact E|].
  destruct (scheduleByList_final T d u s2 fuel g' L El) as [st [Hst [H [Hall HL]]]].
  assert (Hstat : map static g' = map static s2)
    by (rewrite <- Hst; apply (inv_static _ _ _ _ _ H)).
  assert (Hlen : length s2 = length g) by (apply static_length; exact Hs).
  assert (Hlen' : length g' = length g) by (rewrite <- Hlen; apply static_length; exact Hstat).
  assert (Hpos : forall i, (i < length g)%nat -> 1 <= start_cycle (stmt_at g' i)).
  { intros i Hi. assert (Hd := inv_done _ _ _ _ _ H i (Hall i ltac:(lia))).
    rewrite Hst in Hd. lia. }
  split; [rewrite Hstat; exact Hs|]. split; [|split; [|split]].
  - intros i Hi. split; [apply Hpos; exact Hi|].
    assert (Hc := completion_ge_start (stmt_at g' i)).
    assert (Hg := schedule_latency_ge g' i ltac:(lia)). lia.
  - intros i j Hj.
    destruct (wf_dfg_spec _ _ _ Hwf) as [_ [Hd _]]. destruct (Hd i j Hj) as [Hi _].
    rewrite <- Hst.
    apply (proj2 (inv_prec _ _ _ _ _ H i j
                    ltac:(rewrite app_nil_r; apply Hall; lia) Hj)).
  - apply (final_busy_count PQ fuel T d u s2 g' L El).
  - rewrite HL. unfold schedule_latency. rewrite fold_max_map.
    apply fold_max_from_0. intros x Hx. apply in_map_iff in Hx.
    destruct Hx as [s [<- Hin]].
    apply In_nth with (d := dStmt) in Hin. destruct Hin as [i [Hi <-]].
    assert (Hp := Hpos i ltac:(lia)).
    assert (Hc := completion_ge_start (nth i g' dStmt)).
    unfold stmt_at in Hp. lia.
Qed.

Lemma schedule_returns_valid_schedule_witness :
  wf_dfg chain3 chain3_deps chain3_uses = true
  /\ topological chain3_deps = true
  /\ schedulable 1 chain3 = true
  /\ exists fuel graph' L,
      schedule (PQ := list_queue) fuel 1 chain3_deps chain3_uses chain3 = Done (graph', L)
      /\ map static graph' = map static chain3
      /\ (forall i, (i < length chain3)%nat -> 1 <= start_cycle (stmt_at graph' i) <= L)
      /\ (forall i j, In j (row chain3_deps i) ->
                      start_cycle (stmt_at graph' j)
                      + Z.max (latency (op (stmt_at graph' j))) 1
                      <= start_cycle (stmt_at graph' i))
      /\ (forall k c, 0 <= limit k -> busy_count graph' k c <= limit k)
      /\ L = Zmax_list (map completion graph').
Proof.
  split; [reflexivity|]. split; [reflexivity|]. split; [reflexivity|].
  apply (schedule_returns_valid_schedule list_queue 1 chain3_deps chain3_uses chain3);
    reflexivity.
Defined.

(** ** The rows after a reordering *)

Lemma reorder_rows_untranslated_witness :
  validateTopologicalOrder unordered3 unordered3_deps = false
  /\ in_range (length unordered3) unordered3_deps = true
  /\ in_range (length unordered3) unordered3_uses = true
  /\ reorderToTopological 10 unordered3 unordered3_deps unordered3_uses
     = Done ([mkStmt 0 op_a 0; mkStmt 1 op_c 0; mkStmt 2 op_b 0],
             [[]; []; [2%nat]], [[]; [1%nat]; []])
  /\ exists sortedOrder,
      forall i, (i < length unordered3)%nat ->
                stmt_at [mkStmt 0 op_a 0; mkStmt 1 op_c 0; mkStmt 2 op_b 0] i
                = with_idx i (stmt_at unordered3 (nth i sortedOrder 0%nat))
                /\ row [[]; []; [2%nat]] i = row unordered3_deps (nth i sortedOrder 0%nat)
                /\ row [[]; [1%nat]; []] i = row unordered3_uses (nth i sortedOrder 0%nat).
Proof.
  split; [reflexivity|]. split; [reflexivity|]. split; [reflexivity|].
  split; [reflexivity|].
  apply (reorder_rows_untranslated 10 unordered3 unordered3_deps unordered3_uses
           [mkStmt 0 op_a 0; mkStmt 1 op_c 0; mkStmt 2 op_b 0]
           [[]; []; [2%nat]] [[]; [1%nat]; []]); reflexivity.
Defined.

(** * The ASAP schedule is the earliest one *)

(** X14.  On statements in topological index order, no assignment of
    cycles that starts at cycle 1 or later and keeps every statement
    [max(latency, 1)] cycles behind its producers puts a statement earlier
    than [scheduleASAP] does, or ends before the latency that
    [scheduleASAP] returns. *)
Theorem asap_is_earliest :
  forall (stmts : list Stmt) (dependencies : vec2d) (stmts' : list Stmt) (L : Z)
         (s : nat -> Z),
    indexed stmts = true ->
    topological dependencies = true ->
    scheduleASAP stmts dependencies = (stmts', L) ->
    (forall i, (i < length stmts)%nat -> 1 <= s i) ->
    (forall i j, (i < length stmts)%nat -> In j (row dependencies i) ->
                 s j + Z.max (latency (op (stmt_at stmts j))) 1 <= s i) ->
    (forall i, (i < length stmts)%nat -> start_cycle (stmt_at stmts' i) <= s i)
    /\ (forall B, 0 <= B ->
                  (forall i, (i < length stmts)%nat ->
                             s i + Z.max (latency (op (stmt_at stmts i)) - 1) 0 <= B) ->
                  L <= B).
Proof.
  intros stmts deps sa La s Hidx Htopo Ea Hpos Hprec.
  assert (HA := asap_loop_inv stmts deps Hidx Htopo (length stmts) (Nat.le_refl _)).
  unfold scheduleASAP in Ea. rewrite Ea in HA. cbn [fst snd] in HA.
  assert (Hop : forall i, op (stmt_at sa i) = op (stmt_at stmts i))
    by (intros i; apply static_op; apply (asap_static _ _ _ _ _ HA)).
  assert (Hstart : forall i, (i < length stmts)%nat -> start_cycle (stmt_at sa i) <= s i).
  { intros i. induction i as [i IH] using lt_wf_ind. intros Hi.
    destruct (row deps i) as [|d ds] eqn:Hrow.
    - rewrite (asap_src _ _ _ _ _ HA i Hi Hrow). apply Hpos; exact Hi.
    - rewrite (asap_max _ _ _ _ _ HA i Hi) by (rewrite Hrow; discriminate).
      apply Zmax_list_le; [rewrite Hrow; discriminate|].
      intros x Hx. apply in_map_iff in Hx. destruct Hx as [j [<- Hj]].
      assert (Hji : (j < i)%nat) by (apply (deps_below deps Htopo); exact Hj).
      assert (Hp := Hprec i j Hi Hj).
      assert (Hj' := IH j Hji ltac:(lia)).
      unfold completion. rewrite (Hop j). lia. }
  split; [exact Hstart|].
  intros B HB Hend. rewrite (asap_lat _ _ _ _ _ HA). apply fold_max_le; [exact HB|].
  intros x Hx. apply in_map_iff in Hx. destruct Hx as [i [<- Hi]].
  apply in_seq in Hi.
  assert (Hi' := Hstart i ltac:(lia)). assert (He := Hend i ltac:(lia)).
  unfold completion. rewrite (Hop i). lia.
Qed.

Lemma asap_is_earliest_witness :
  indexed fan_in = true
  /\ topological fan_in_deps = true
  /\ scheduleASAP fan_in fan_in_deps
     = ([mkStmt 0 two_cycle_op 1; mkStmt 1 two_cycle_op 1; mkStmt 2 two_cycle_op 3], 4)
  /\ (forall i, (i < length fan_in)%nat -> 1 <= 2 * Z.of_nat i + 1)
  /\ (forall i j, (i < length fan_in)%nat -> In j (row fan_in_deps i) ->
                  (2 * Z.of_nat j + 1) + Z.max (latency (op (stmt_at fan_in j))) 1
                  <= 2 * Z.of_nat i + 1)
  /\ (forall i, (i < length fan_in)%nat ->
                start_cycle (stmt_at [mkStmt 0 two_cycle_op 1; mkStmt 1 two_cycle_op 1;
                                      mkStmt 2 two_cycle_op 3] i)
                <= 2 * Z.of_nat i + 1).
Proof.
  assert (Hpos : forall i, (i < length fan_in)%nat -> 1 <= 2 * Z.of_nat i + 1)
    by (intros i _; lia).
  assert (Hprec : forall i j, (i < length fan_in)%nat -> In j (row fan_in_deps i) ->
                    (2 * Z.of_nat j + 1) + Z.max (latency (op (stmt_at fan_in j))) 1
                    <= 2 * Z.of_nat i + 1).
  { intros i j Hi Hj.
    destruct i as [|[|[|i]]]; simpl in Hi, Hj; [destruct Hj|destruct Hj| |lia].
    destruct Hj as [<-|[<-|[]]]; simpl; lia. }
  split; [reflexivity|]. split; [reflexivity|]. split; [reflexivity|].
  split; [exact Hpos|]. split; [exact Hprec|].
  apply (asap_is_earliest fan_in fan_in_deps
           [mkStmt 0 two_cycle_op 1; mkStmt 1 two_cycle_op 1; mkStmt 2 two_cycle_op 3] 4
           (fun i => 2 * Z.of_nat i + 1) eq_refl eq_refl eq_refl Hpos Hprec).
Defined.

(** * What the list scheduler places *)

Section ListPlaced.

Context {PQ : PriorityQueue}.
Variable time_period : Q.
Variables dependencies usage_links : vec2d.
Variable stmts0 : list Stmt.
Hypothesis Hwf : wf_dfg stmts0 dependencies usage_links = true.

Local Abbreviation priority := (map start_cycle stmts0).

(** Every statement that has been given a cycle could be placed on its
    own. *)
Local Abbreviation placed_fit st sch :=
  (forall i, In i (completedStatements st ++ sch) ->
             placeable time_period (stmt_at stmts0 i) = true).

Lemma drain_iter_placed : forall st sch b st' sch',
    Inv dependencies usage_links stmts0 st sch ->
    placed_fit st sch ->
    drain_iter time_period usage_links priority st sch = Some (b, st', sch') ->
    placed_fit st' sch'.
Proof.
  intros st sch b st' sch' H HP E. unfold drain_iter in E.
  destruct (pq_pop (comparator priority (statements st)) (readyQueue st))
    as [[i q]|] eqn:Epop; [|discriminate].
  assert (Hi : In i (pq_elems (readyQueue st)))
    by (rewrite (pq_pop_some _ _ _ _ Epop); left; reflexivity).
  assert (Hop : op (stmt_at stmts0 i) = op (stmt_at (statements st) i))
    by (symmetry; apply static_op; apply (inv_static _ _ _ _ _ H)).
  rewrite (ledger_read_zero dependencies usage_links stmts0 Hwf st sch i H Hi),
    Qle_bool_plus_0 in E.
  assert (Hext : placeable time_period (stmt_at stmts0 i) = true ->
                 forall j, In j (completedStatements st ++ sch ++ [i]) ->
                           placeable time_period (stmt_at stmts0 j) = true).
  { intros Hfit j Hj. rewrite app_assoc in Hj. apply in_app_or in Hj.
    destruct Hj as [Hj|[<-|[]]]; [apply HP; exact Hj|exact Hfit]. }
  destruct (limit (op (stmt_at (statements st) i)) <? 0) eqn:Hlim.
  - destruct (Qle_bool (delay (op (stmt_at (statements st) i))) time_period) eqn:Hfit;
      injection E as <- <- <-; [|exact HP].
    apply Hext. unfold placeable. rewrite Hop, Hlim. exact Hfit.
  - destruct (calculateResourceUsage _ _ _ <? _) eqn:Hadm;
      injection E as <- <- <-; [|exact HP].
    apply Hext. unfold placeable. rewrite Hop, Hlim.
    unfold calculateResourceUsage in Hadm. rewrite Hlim in Hadm.
    apply Z.ltb_lt in Hadm. apply Z.leb_le. lia.
Qed.

Lemma drain_placed : forall fuel st sch st' sch',
    Inv dependencies usage_links stmts0 st sch ->
    placed_fit st sch ->
    drain time_period usage_links priority fuel st sch = Some (st', sch') ->
    placed_fit st' sch'.
Proof.
  induction fuel as [|fuel IH]; intros st sch st' sch' H HP E; simpl in E;
    [discriminate|].
  destruct (drain_iter time_period usage_links priority st sch)
    as [[[b st1] sch1]|] eqn:Eit.
  - assert (H1 := drain_iter_Inv _ _ _ _ _ _ _ _ _ H Eit).
    assert (P1 := drain_iter_placed _ _ _ _ _ H HP Eit).
    destruct b.
    + apply (IH _ _ _ _ H1 P1 E).
    + injection E as <- <-; exact P1.
  - injection E as <- <-; exact HP.
Qed.

Lemma list_loop_placed : forall fuel st st',
    Inv dependencies usage_links stmts0 st [] ->
    placed_fit st [] ->
    list_loop time_period dependencies usage_links priority fuel st = Some st' ->
    placed_fit st' [].
Proof.
  induction fuel as [|fuel IH]; intros st st' H HP E; simpl in E; [discriminate|].
  destruct (length (completedStatements st) <? length (statements st))%nat.
  - destruct (drain time_period usage_links priority fuel st [])
      as [[st1 sch1]|] eqn:Ed; [|discriminate].
    assert (H1 := drain_Inv _ _ _ _ _ _ _ _ _ H Ed).
    assert (P1 := drain_placed _ _ _ _ _ H HP Ed).
    apply (IH _ _ (Inv_end_of_cycle _ _ _ _ _ H1)); [|exact E].
    intros i Hi. apply P1. rewrite app_nil_r in Hi. unfold end_of_cycle in Hi.
    cbn [completedStatements] in Hi.
    rewrite (inv_commit _ _ _ _ _ H1) in Hi. exact Hi.
  - injection E as <-. exact HP.
Qed.

End ListPlaced.

Lemma list_returns_schedulable :
  forall (PQ : PriorityQueue) fuel T deps uses stmts0 r,
    wf_dfg stmts0 deps uses = true ->
    scheduleByList fuel T deps uses stmts0 = Some r ->
    schedulable T stmts0 = true.
Proof.
  intros PQ fuel T deps uses stmts0 r Hwf E. unfold scheduleByList in E.
  destruct (list_loop T deps uses (map start_cycle stmts0) fuel (list_init deps stmts0))
    as [st1|] eqn:El; [|discriminate].
  assert (HP := list_loop_placed T deps uses stmts0 Hwf fuel _ st1
                                 (Inv_init deps uses stmts0)
                                 ltac:(intros i []) El).
  destruct (list_loop_Inv T deps uses stmts0 fuel _ st1 (Inv_init deps uses stmts0) El)
    as [H1 Hlen].
  assert (Hall1 := final_completed deps uses stmts0 st1 H1 Hlen).
  unfold schedulable. apply forallb_forall. intros s Hin.
  apply In_nth with (d := dStmt) in Hin. destruct Hin as [i [Hi <-]].
  apply (HP i). rewrite app_nil_r. apply Hall1; exact Hi.
Qed.

(** X15.  On a well-formed graph the list scheduler gives a cycle only to
    a statement that fits on its own: a combinational statement whose
    delay is within the clock period, a resource-limited one whose op has
    a unit.  So when some statement does not fit, the loop never ends. *)
Theorem list_unplaceable_never_returns :
  forall (PQ : PriorityQueue) (time_period : Q) (dependencies usage_links : vec2d)
         (stmts0 : list Stmt),
    wf_dfg stmts0 dependencies usage_links = true ->
    schedulable time_period stmts0 = false ->
    forall fuel,
      scheduleByList fuel time_period dependencies usage_links stmts0 = None.
Proof.
  intros PQ T deps uses stmts0 Hwf Hns fuel.
  destruct (scheduleByList fuel T deps uses stmts0) as [r|] eqn:E;
    [exfalso|reflexivity].
  assert (Hs := list_returns_schedulable PQ fuel T deps uses stmts0 r Hwf E).
  congruence.
Qed.

Lemma list_unplaceable_never_returns_witness :
  wf_dfg cyclic2_slow [[]; []] [[]; []] = true
  /\ schedulable 1 cyclic2_slow = false
  /\ forall fuel,
      scheduleByList (PQ := list_queue) fuel 1 [[]; []] [[]; []] cyclic2_slow = None.
Proof.
  split; [reflexivity|]. split; [reflexivity|].
  apply (list_unplaceable_never_returns list_queue 1 [[]; []] [[]; []] cyclic2_slow);
    reflexivity.
Defined.

(** * The ledger on the rows that the canonicalizer leaves *)

(** Of two statements in the queue, the one that the comparator ranks
    strictly above the other is popped. *)
Lemma pq_pop_forced_pair :
  forall (PQ : PriorityQueue) (c : nat -> nat -> bool) (q : pq_t) (a b : nat),
    strict_weak c ->
    Permutation (pq_elems q) [a; b] ->
    c b a = true ->
    exists q', pq_pop c q = Some (a, q') /\ pq_elems q' = [b].
Proof.
  intros PQ c q a b Hsw Hq Hba.
  destruct (pq_pop c q) as [[t q']|] eqn:E.
  - assert (P := pq_pop_some _ _ _ _ E).
    assert (Htop := pq_pop_top c q t q' Hsw E).
    assert (Ht : In t [a; b]).
    { apply (Permutation_in t Hq). apply (Permutation_in t (Permutation_sym P)).
      left; reflexivity. }
    assert (Ha : In a (pq_elems q))
      by (apply (Permutation_in a (Permutation_sym Hq)); left; reflexivity).
    destruct Ht as [<-|[<-|[]]].
    + exists q'. split; [reflexivity|].
      assert (P' : Permutation (a :: pq_elems q') [a; b])
        by (apply (Permutation_trans (Permutation_sym P) Hq)).
      apply Permutation_cons_inv in P'. symmetry in P'.
      apply Permutation_length_1_inv in P'. exact P'.
    + rewrite (Htop a Ha) in Hba. discriminate.
  - apply pq_pop_none in E. rewrite E in Hq.
    apply Permutation_nil in Hq. discriminate.
Qed.

(** A combinational statement that is alone in the queue and does not
    pass the test of line 211 is pushed back and popped again, for ever. *)
Lemma drain_respins :
  forall (PQ : PriorityQueue) (T : Q) (uses : vec2d) (priority : list Z)
         (fuel : nat) (st : LState) (sch : list nat) (i : nat),
    pq_elems (readyQueue st) = [i] ->
    (limit (op (stmt_at (statements st) i)) <? 0) = true ->
    Qle_bool (delay (op (stmt_at (statements st) i))
              + ledger_get (delayByCycle st) (currentCycle st) i) T = false ->
    drain T uses priority fuel st sch = None.
Proof.
  intros PQ T uses priority fuel; induction fuel as [|fuel IH];
    intros st sch i Hq Hlim Hfit; [reflexivity|].
  cbn [drain]. unfold drain_iter.
  destruct (pq_pop_single (comparator priority (statements st)) _ _ Hq)
    as [q [Hpop Hq']].
  rewrite Hpop, Hlim, Hfit.
  apply (IH _ sch i); cbn [with_queue statements readyQueue delayByCycle currentCycle];
    [apply pq_push_single; exact Hq'|exact Hlim|exact Hfit].
Qed.

(** The first cycle on the rows that the canonicalizer leaves for [g4]:
    statement 1 is popped and placed, and writes 3/5 into the ledger for
    statement 0, which is in the queue. *)
Lemma g4_first_pop :
  forall (PQ : PriorityQueue),
    exists q,
      pq_elems q = [0%nat]
      /\ drain_iter 1 g4_sorted_uses (map start_cycle g4_alap)
                    (list_init g4_sorted_deps g4_alap) []
         = Some (true,
                 mkL [mkStmt 0 comb_op 0; mkStmt 1 comb_op 1;
                      mkStmt 2 thin_op 0; mkStmt 3 thin_op 0]
                     [] [2%nat; 3%nat] q [(1, 0%nat, 3 # 5)] 1,
                 [1%nat]).
Proof.
  intros PQ. unfold drain_iter.
  assert (Hq : Permutation (pq_elems (readyQueue (list_init g4_sorted_deps g4_alap)))
                           [1%nat; 0%nat]).
  { unfold list_init. cbn [readyQueue].
    rewrite pq_push_all, pq_empty_elems. vm_compute. apply perm_swap. }
  destruct (pq_pop_forced_pair PQ
              (comparator (map start_cycle g4_alap)
                          (statements (list_init g4_sorted_deps g4_alap)))
              _ 1%nat 0%nat (comparator_strict_weak _ _) Hq eq_refl)
    as [q [Epop Hq']].
  exists q. split; [exact Hq'|]. rewrite Epop. reflexivity.
Qed.

(** C2, as stated, fails on inputs the scheduler receives.  The graph [g4]
    is well formed and acyclic but out of order; the canonicalizer hands
    the list scheduler rows that are no transposes of each other.  In cycle
    1 statement 1 is popped first (its ALAP key is the smallest), is placed
    and writes 3/5 into the ledger for statement 0; statement 0, whose own
    delay 3/5 fits the period 1, is popped in the same cycle, reads 3/5,
    fails the test of line 211 and is pushed back, for ever: the scheduler
    never returns, for every queue, where the scheduler without a ledger
    returns the start cycles 1, 1, 2, 3.  And on a well-formed graph in
    order a combinational statement that is ready and fits is not placed
    in the current cycle when the [break] of line 231 leaves it in the
    queue: statement 2 of [uuc] is in the queue in cycle 1 and is placed
    in cycle 2. *)
Lemma ledger_read_nonzero :
  wf_dfg g4 g4_deps g4_uses = true
  /\ reorderToTopological 10 g4 g4_deps g4_uses
     = Done (map (with_start 0) g4_alap, g4_sorted_deps, g4_sorted_uses)
  /\ wf_dfg g4_alap g4_sorted_deps g4_sorted_uses = false
  /\ (let '(s1, l1) := scheduleASAP (map (with_start 0) g4_alap) g4_sorted_deps in
      scheduleALAP s1 g4_sorted_uses l1) = (g4_alap, 5)
  /\ (forall PQ : PriorityQueue,
         exists st sch q,
           reachable 1 g4_sorted_deps g4_sorted_uses g4_alap st sch
           /\ pq_pop (comparator (map start_cycle g4_alap) (statements st)) (readyQueue st)
              = Some (0%nat, q)
           /\ ledger_get (delayByCycle st) (currentCycle st) 0 = (3 # 5)%Q
           /\ Qle_bool (delay (op (stmt_at (statements st) 0))) 1 = true
           /\ drain_iter 1 g4_sorted_uses (map start_cycle g4_alap) st sch
              = Some (true,
                      with_queue
                        (pq_push (comparator (map start_cycle g4_alap) (statements st))
                                 0%nat q) st,
                      sch))
  /\ (forall (PQ : PriorityQueue) (fuel : nat),
         scheduleByList fuel 1 g4_sorted_deps g4_sorted_uses g4_alap = None)
  /\ scheduleByList_plain (PQ := list_queue) 10 1 g4_sorted_deps g4_alap
     = Some ([mkStmt 0 comb_op 1; mkStmt 1 comb_op 1; mkStmt 2 thin_op 2;
              mkStmt 3 thin_op 3], 3)
  /\ (forall (PQ : PriorityQueue) (fuel : nat),
         schedule fuel 1 g4_deps g4_uses g4 = OutOfFuel)
  /\ wf_dfg uuc no_edges3 no_edges3 = true
  /\ topological no_edges3 = true
  /\ In 2%nat (pq_elems (PriorityQueue := list_queue)
                        (readyQueue (list_init no_edges3 uuc)))
  /\ Qle_bool (delay (op (stmt_at uuc 2))) 1 = true
  /\ schedule (PQ := list_queue) 10 1 no_edges3 no_edges3 uuc
     = Done ([mkStmt 0 unit_a 1; mkStmt 1 unit_b 2; mkStmt 2 small_comb 2], 2).
Proof.
  assert (Hspin : forall (PQ : PriorityQueue) (fuel : nat),
             scheduleByList fuel 1 g4_sorted_deps g4_sorted_uses g4_alap = None).
  { intros PQ fuel. unfold scheduleByList.
    destruct fuel as [|fuel]; [reflexivity|]. cbn [list_loop].
    change ((length (completedStatements (list_init g4_sorted_deps g4_alap))
             <? length (statements (list_init g4_sorted_deps g4_alap)))%nat)
      with true. cbv iota.
    destruct fuel as [|fuel]; [reflexivity|]. cbn [drain].
    destruct (g4_first_pop PQ) as [q [Hq E]]. rewrite E.
    rewrite (drain_respins PQ 1 g4_sorted_uses (map start_cycle g4_alap) fuel _ _ 0%nat);
      [reflexivity|exact Hq|reflexivity|reflexivity]. }
  split; [reflexivity|]. split; [reflexivity|]. split; [reflexivity|].
  split; [reflexivity|]. split; [|split; [exact Hspin|]].
  - intros PQ. destruct (g4_first_pop PQ) as [q [Hq E]].
    destruct (pq_pop_single
                (comparator (map start_cycle g4_alap)
                            [mkStmt 0 comb_op 0; mkStmt 1 comb_op 1;
                             mkStmt 2 thin_op 0; mkStmt 3 thin_op 0]) q 0%nat Hq)
      as [q' [Epop _]].
    exists (mkL [mkStmt 0 comb_op 0; mkStmt 1 comb_op 1;
                 mkStmt 2 thin_op 0; mkStmt 3 thin_op 0]
                [] [2%nat; 3%nat] q [(1, 0%nat, 3 # 5)] 1), [1%nat], q'.
    split; [apply (reach_iter _ _ _ _ _ _ _ _ (reach_init _ _ _ _) E)|].
    split; [exact Epop|]. split; [reflexivity|]. split; [reflexivity|].
    unfold drain_iter. cbn [statements readyQueue delayByCycle currentCycle].
    rewrite Epop. reflexivity.
  - split; [reflexivity|]. split.
    + intros PQ fuel. unfold schedule.
      destruct (reorderToTopological fuel g4 g4_deps g4_uses)
        as [[[s d] u]|m|] eqn:Er; [| |reflexivity].
      * assert (Hr : s = map (with_start 0) g4_alap
                     /\ d = g4_sorted_deps /\ u = g4_sorted_uses).
        { do 5 (destruct fuel as [|fuel]; [discriminate|]).
          vm_compute in Er. injection Er as <- <- <-. repeat split; reflexivity. }
        destruct Hr as [Hs [Hd Hu]]. rewrite Hs, Hd, Hu.
        change (scheduleASAP (map (with_start 0) g4_alap) g4_sorted_deps)
          with ([mkStmt 0 comb_op 1; mkStmt 1 comb_op 1; mkStmt 2 thin_op 2;
                 mkStmt 3 thin_op 3], 3).
        cbv iota beta.
        change (scheduleALAP [mkStmt 0 comb_op 1; mkStmt 1 comb_op 1; mkStmt 2 thin_op 2;
                              mkStmt 3 thin_op 3] g4_sorted_uses 3)
          with (g4_alap, 5).
        cbv iota beta. rewrite Hspin. reflexivity.
      * exfalso. do 5 (destruct fuel as [|fuel]; [discriminate|]).
        vm_compute in Er. discriminate.
    + repeat split; try reflexivity. vm_compute. auto.
Qed.

(** * The pace of the list scheduler *)





Lemma spans_static : forall s1 s2 l,
    map static s1 = map static s2 -> spans s1 l = spans s2 l.
Proof.
  intros s1 s2 l H; unfold spans; induction l as [|a l IH]; simpl; [reflexivity|].
  rewrite IH. unfold span. rewrite (static_op s1 s2 a H). reflexivity.
Qed.





Section ListPace.

Context {PQ : PriorityQueue}.
Variable time_period : Q.
Variables dependencies usage_links : vec2d.
Variable stmts0 : list Stmt.
Hypothesis Hwf : wf_dfg stmts0 dependencies usage_links = true.
Hypothesis Htopo : topological dependencies = true.
Hypothesis Hsched : schedulable time_period stmts0 = true.

Local Abbreviation priority := (map start_cycle stmts0).








End ListPace.


